(** * WebChat.go: the websocket chat hub, its pumps and its page server

    A shallow embedding of [src/WebChat.go].  The hub's goroutine owns the
    map of clients and serves three unbuffered channels (register,
    unregister, broadcast); every client owns a buffered [send] channel
    that the hub fills and the client's write pump drains.

    - a [*Client] is a heap address ([positive]);
    - [h.clients : map[*Client]bool] is a [gmap Client bool];
    - the [send] field of every allocated client is kept in a heap
      [gmap Client Chan.t], so two clients never share a channel;
    - a run-time panic of the Go program (closing a closed channel,
      sending on a closed channel) is the result [None];
    - a pump is a function from what its connection and its channel
      offer it to the calls it makes, in program order;
    - [sys_step] puts together what the goroutines do to the state they
      share: the hub's map and the [send] channels. *)

From stdpp Require Import gmap list fin_maps strings sorting.
From Stdlib Require Import Strings.Byte.

#[global] Instance byte_eq_decision : EqDecision byte := byte_eq_dec.

(** [[]byte] *)
Abbreviation Payload := (list byte).
(** [*Client] *)
Abbreviation Client := positive.

(** ** Go channels of payloads *)

Module Chan.

(** A buffered channel: the queued elements (oldest first), the capacity
    given to [make], and whether [close] was called. *)
Record t := mk { buf : list Payload; cap : nat; closed : bool }.

(** [make(chan []byte, n)] *)
Definition make (n : nat) : t := mk [] n false.

(** [len(ch)] *)
Definition len (ch : t) : nat := length (buf ch).

Definition full (ch : t) : Prop := cap ch ≤ len ch.

Inductive send_result :=
| Sent (ch' : t)
| WouldBlock
| SendPanic.

(** [select { case ch <- m: ... default: ... }]: a send on a closed
    channel panics; otherwise the send proceeds when the buffer has
    room and the [default] branch is taken when it has none. *)
Definition try_send (m : Payload) (ch : t) : send_result :=
  if closed ch then SendPanic
  else if decide (len ch < cap ch)
       then Sent (mk (buf ch ++ [m]) (cap ch) false)
       else WouldBlock.

(** [close(ch)]: panics on a channel that is already closed. *)
Definition close (ch : t) : option t :=
  if closed ch then None else Some (mk (buf ch) (cap ch) true).

Inductive recv_result :=
| Received (m : Payload) (ch' : t)
| RecvClosed
| RecvBlock.

(** [m, ok := <-ch]: queued elements are delivered first, also after
    [close]; an empty closed channel yields [ok = false]; an empty open
    channel blocks. *)
Definition recv (ch : t) : recv_result :=
  match buf ch with
  | m :: rest => Received m (mk rest (cap ch) (closed ch))
  | [] => if closed ch then RecvClosed else RecvBlock
  end.

End Chan.

(** ** The hub *)

(** The state the hub's goroutine works on: its own map of clients and
    the [send] channel of every client that was ever created. *)
Record Machine := mkMachine {
  clients : gmap Client bool;
  send : gmap Client Chan.t
}.

(** [newHub()], with no client allocated yet. *)
Definition newHub : Machine := mkMachine ∅ ∅.

(** What the hub receives in one turn of its [select]. *)
Inductive HubEvent :=
| Register (c : Client)
| Unregister (c : Client)
| Broadcast (m : Payload).

(** [case client := <-h.register] *)
Definition on_register (c : Client) (st : Machine) : option Machine :=
  Some (mkMachine (<[c := true]> (clients st)) (send st)).

(** [case client := <-h.unregister]: a client with no channel in the heap
    has a nil [send], and [close(nil)] panics. *)
Definition on_unregister (c : Client) (st : Machine) : option Machine :=
  match clients st !! c with
  | Some _ =>
      ch ← send st !! c;
      ch' ← Chan.close ch;
      Some (mkMachine (delete c (clients st)) (<[c := ch']> (send st)))
  | None => Some st
  end.

(** The body of the [range] loop for one client.  A send on a nil channel
    is never ready, so the [default] case runs and [close(nil)] panics. *)
Definition deliver (m : Payload) (c : Client) (st : Machine) : option Machine :=
  match send st !! c with
  | None => None
  | Some ch =>
      match Chan.try_send m ch with
      | Chan.Sent ch' => Some (mkMachine (clients st) (<[c := ch']> (send st)))
      | Chan.WouldBlock =>
          ch' ← Chan.close ch;
          Some (mkMachine (delete c (clients st)) (<[c := ch']> (send st)))
      | Chan.SendPanic => None
      end
  end.

(** [for client := range h.clients { ... }] in the order [order].  The
    body deletes no key but the current one, so every key of the map at
    the start of the loop is visited once. *)
Fixpoint broadcast_loop (m : Payload) (order : list Client) (st : Machine)
  : option Machine :=
  match order with
  | [] => Some st
  | c :: rest => st' ← deliver m c st; broadcast_loop m rest st'
  end.

(** Go leaves the order of a [range] over a map unspecified; [range_keys]
    is one such order and [broadcast_loop_perm] shows that the choice is
    immaterial. *)
Definition range_keys (cl : gmap Client bool) : list Client :=
  (map_to_list cl).*1.

(** [case message := <-h.broadcast] *)
Definition on_broadcast (m : Payload) (st : Machine) : option Machine :=
  broadcast_loop m (range_keys (clients st)) st.

(** One turn of the [for { select { ... } }] of [Hub.run]. *)
Definition hub_step (st : Machine) (ev : HubEvent) : option Machine :=
  match ev with
  | Register c => on_register c st
  | Unregister c => on_unregister c st
  | Broadcast m => on_broadcast m st
  end.

(** [Hub.run] on the events it receives, in the order it receives them. *)
Fixpoint run (st : Machine) (evs : list HubEvent) : option Machine :=
  match evs with
  | [] => Some st
  | ev :: rest => st' ← hub_step st ev; run st' rest
  end.

(** ** serveWs and the goroutines around the hub *)

(** [serveWs] after the upgrade: a new [Client] at an unused address, with
    [send: make(chan []byte, 256)], handed to the hub over [hub.register]
    (unbuffered, so [serveWs] goes on only once the hub has taken it).
    A failed upgrade returns at once. *)
Definition serveWs (upgrade_ok : bool) (st : Machine) : option Machine :=
  if upgrade_ok then
    let client := fresh (dom (send st)) in
    hub_step (mkMachine (clients st) (<[client := Chan.make 256]> (send st)))
             (Register client)
  else Some st.

(** [<-c.send] by the write pump of [c]; a receive that cannot proceed
    leaves everything as it is. *)
Definition take (c : Client) (st : Machine) : Machine :=
  match send st !! c with
  | Some ch =>
      match Chan.recv ch with
      | Chan.Received _ ch' => mkMachine (clients st) (<[c := ch']> (send st))
      | _ => st
      end
  | None => st
  end.

(** What the goroutines of the program do to the hub's map and to the
    [send] channels: [serveWs] registers, a read pump forwards a message
    or unregisters its client, a write pump receives. *)
Inductive Action :=
| Accepts (upgrade_ok : bool)
| Forwards (m : Payload)
| Leaves (c : Client)
| Takes (c : Client).

Definition sys_step (st : Machine) (a : Action) : option Machine :=
  match a with
  | Accepts ok => serveWs ok st
  | Forwards m => hub_step st (Broadcast m)
  | Leaves c => hub_step st (Unregister c)
  | Takes c => Some (take c st)
  end.

Fixpoint sys_run (st : Machine) (acts : list Action) : option Machine :=
  match acts with
  | [] => Some st
  | a :: rest => st' ← sys_step st a; sys_run st' rest
  end.

(** The payload a [Takes c] receives in [st], if any. *)
Definition taken (c : Client) (st : Machine) (a : Action) : list Payload :=
  match a with
  | Takes c' =>
      if decide (c' = c) then
        match send st !! c with
        | Some ch =>
            match Chan.recv ch with
            | Chan.Received m _ => [m]
            | _ => []
            end
        | None => []
        end
      else []
  | _ => []
  end.

(** Everything the write pump of [c] receives along [acts], oldest first. *)
Fixpoint received (c : Client) (st : Machine) (acts : list Action) : list Payload :=
  match acts with
  | [] => []
  | a :: rest =>
      match sys_step st a with
      | Some st' => taken c st a ++ received c st' rest
      | None => []
      end
  end.

(** The messages handed to [h.broadcast] along [acts], oldest first. *)
Definition forwarded (acts : list Action) : list Payload :=
  omap (λ a, match a with Forwards m => Some m | _ => None end) acts.

(** ** The connection, as the pumps use it *)

Inductive MessageType := TextMessage | CloseMessage | PingMessage.

(** The calls made on [c.conn] and on the writer [w]; deadlines are the
    seconds added to [time.Now()]. *)
Inductive ConnCall :=
| SetReadLimit (limit : Z)
| SetReadDeadline (seconds : Z)
| SetPongHandler
| SetWriteDeadline (seconds : Z)
| WriteMessage (ty : MessageType) (data : Payload)
| NextWriter (ty : MessageType)
| WriterWrite (data : Payload)
| WriterClose
| ConnClose.

(** What a pump does, in program order. *)
Inductive Effect :=
| Conn (call : ConnCall)
| ToHub (ev : HubEvent)
| NewTicker (seconds : Z)
| TickerStop
| LogPrintf.

Inductive ReadError :=
| ErrReadLimit
| CloseError (code : Z)
| OtherError.

(** What [c.conn] has for the read pump: a data message of the peer, a
    pong, or a failure of the read (peer close, I/O error, deadline). *)
Inductive Inbound :=
| DataFrame (data : Payload)
| PongFrame
| Failure (err : ReadError).

Definition CloseGoingAway : Z := 1001.
Definition CloseAbnormalClosure : Z := 1006.

(** [websocket.IsUnexpectedCloseError] of gorilla/websocket, a library
    outside the repository: the error is a close error whose code is none
    of the expected ones. *)
Definition IsUnexpectedCloseError (err : ReadError) (expected : list Z) : bool :=
  match err with
  | CloseError code => bool_decide (code ∉ expected)
  | _ => false
  end.

(** Modelled from the spec: [Conn.ReadMessage] of gorilla/websocket, a
    library that is not under src/, on a data message of the peer, under
    the limit given to [SetReadLimit]: 'Maximum frame size: 512 bytes
    (read side)', and an oversized frame is a read error that ends the
    connection.  A limit of zero is the library's 'no limit'. *)
Definition ReadMessage (limit : Z) (data : Payload) : Payload + ReadError :=
  if decide (0 < limit ∧ limit < Z.of_nat (length data))%Z
  then inr ErrReadLimit
  else inl data.

(** A pump is parked where it waits (in [ReadMessage], in its [select]),
    has returned, or is stuck inside a turn. *)
Inductive PumpStatus := Parked | Returned | Stalled.

(** The [if websocket.IsUnexpectedCloseError(...) { log.Printf(...) }]
    before the [break]. *)
Definition log_read_error (err : ReadError) : list Effect :=
  if IsUnexpectedCloseError err [CloseGoingAway; CloseAbnormalClosure]
  then [LogPrintf] else [].

(** The [for] loop of [readPump] over what the connection delivers.  A
    pong runs the pong handler inside [ReadMessage], which does not return
    for it.  With nothing more to read the pump is parked in
    [ReadMessage]. *)
Fixpoint readPump_loop (limit : Z) (inbound : list Inbound)
  : list Effect * PumpStatus :=
  match inbound with
  | [] => ([], Parked)
  | PongFrame :: rest =>
      let '(effs, s) := readPump_loop limit rest in
      (Conn (SetReadDeadline 60) :: effs, s)
  | DataFrame data :: rest =>
      match ReadMessage limit data with
      | inl message =>
          let '(effs, s) := readPump_loop limit rest in
          (ToHub (Broadcast message) :: effs, s)
      | inr err => (log_read_error err, Returned)
      end
  | Failure err :: _ => (log_read_error err, Returned)
  end.

(** [Client.readPump]: the three set-up calls, the loop, and the deferred
    function when the loop is left. *)
Definition readPump (c : Client) (inbound : list Inbound)
  : list Effect * PumpStatus :=
  let '(body, s) := readPump_loop 512 inbound in
  ([Conn (SetReadLimit 512); Conn (SetReadDeadline 60); Conn SetPongHandler]
   ++ body
   ++ match s with
      | Returned => [ToHub (Unregister c); Conn ConnClose]
      | _ => []
      end, s).

(** ** The write pump *)

(** [[]byte("\n")] *)
Definition newline : Payload := [x0a].

(** The [for i := 0; i < n; i++] loop of [writePump]: a separator and the
    next queued payload, [n] times.  A receive from a closed and empty
    channel yields nil at once; a receive from an open and empty channel
    waits ([false]). *)
Fixpoint coalesce (n : nat) (ch : Chan.t) : list Effect * Chan.t * bool :=
  match n with
  | 0 => ([], ch, true)
  | S n' =>
      match Chan.recv ch with
      | Chan.Received m ch' =>
          let '(effs, ch'', fin) := coalesce n' ch' in
          (Conn (WriterWrite newline) :: Conn (WriterWrite m) :: effs, ch'', fin)
      | Chan.RecvClosed =>
          let '(effs, ch'', fin) := coalesce n' ch in
          (Conn (WriterWrite newline) :: Conn (WriterWrite []) :: effs, ch'', fin)
      | Chan.RecvBlock => ([Conn (WriterWrite newline)], ch, false)
      end
  end.

(** What the hub's goroutine does to the [send] channel of a client
    while the client's write pump is busy: the [select] of the broadcast
    loop for a payload, or the [close] of an unregister. *)
Inductive HubOp :=
| Offers (m : Payload)
| Closes.

(** The channel after one such step.  The hub closes a channel only as
    it takes its client out of the map and touches the channels of the
    clients in its map only, so it leaves a closed channel alone; on an
    open one the [select] sends if there is room and closes if there is
    none. *)
Definition hub_touch (ch : Chan.t) (op : HubOp) : Chan.t :=
  if Chan.closed ch then ch
  else match op with
       | Offers m =>
           match Chan.try_send m ch with
           | Chan.Sent ch' => ch'
           | _ => Chan.mk (Chan.buf ch) (Chan.cap ch) true
           end
       | Closes => Chan.mk (Chan.buf ch) (Chan.cap ch) true
       end.

(** The payloads among what the hub offers. *)
Definition offered (ops : list HubOp) : list Payload :=
  omap (λ op, match op with Offers m => Some m | Closes => None end) ops.

(** Which case of the pump's [select] runs, whether the calls whose
    error the pump looks at succeed, and, for the receive case, what the
    hub does to the channel [meanwhile]: after the pump's receive and
    before the pump reads [len(c.send)]. *)
Inductive Wake :=
| OnSend (next_writer_ok close_ok : bool) (meanwhile : list HubOp)
| OnTick (ping_ok : bool).

(** What the hub does during the turn. *)
Definition meanwhile (w : Wake) : list HubOp :=
  match w with
  | OnSend _ _ ops => ops
  | OnTick _ => []
  end.

(** After a turn the loop goes round again ([Continue]), the function
    returns ([Return]), or the pump waits inside the coalescing loop for a
    payload that is not there ([Stuck]). *)
Inductive TurnStatus := Continue | Return | Stuck.

(** One turn of the [for { select { ... } }] of [writePump].  With
    [c.send] open and empty the receive case is not ready and the pump
    stays in its [select].  The pump and the hub run side by side: the
    pump receives the first payload from the channel as it finds it,
    and by the time it has its writer and reads [len(c.send)] the hub
    may have sent more or closed the channel, so the count is taken on
    the channel as the hub has left it by then.  The pump is the only
    receiver and the hub only appends or closes, so what the hub does
    once the count is taken does not change what the loop receives
    ([coalesce_ignores_later]); it is a [HubLeaves] after the turn, as
    is what the hub does when [NextWriter] fails and the pump returns
    without a count. *)
Definition write_turn (w : Wake) (ch : Chan.t) : list Effect * Chan.t * TurnStatus :=
  match w with
  | OnSend next_writer_ok close_ok ops =>
      match Chan.recv ch with
      | Chan.RecvBlock => ([], ch, Continue)
      | Chan.RecvClosed =>
          ([Conn (SetWriteDeadline 10); Conn (WriteMessage CloseMessage [])],
           ch, Return)
      | Chan.Received message ch1 =>
          if next_writer_ok then
            let at_len := foldl hub_touch ch1 ops in
            let '(effs, ch2, fin) := coalesce (Chan.len at_len) at_len in
            if fin then
              ([Conn (SetWriteDeadline 10); Conn (NextWriter TextMessage);
                Conn (WriterWrite message)] ++ effs ++ [Conn WriterClose],
               ch2, if close_ok then Continue else Return)
            else
              ([Conn (SetWriteDeadline 10); Conn (NextWriter TextMessage);
                Conn (WriterWrite message)] ++ effs, ch2, Stuck)
          else
            ([Conn (SetWriteDeadline 10); Conn (NextWriter TextMessage)],
             ch1, Return)
      end
  | OnTick ping_ok =>
      ([Conn (SetWriteDeadline 10); Conn (WriteMessage PingMessage [])],
       ch, if ping_ok then Continue else Return)
  end.

(** What happens around one write pump: the hub leaves the channel in a
    new state, or the pump takes a turn. *)
Inductive Sched :=
| HubLeaves (ch : Chan.t)
| Turn (w : Wake).

(** The [for] loop of [writePump] along a schedule, with the channel as
    the pump leaves it. *)
Fixpoint writePump_loop (sched : list Sched) (ch : Chan.t)
  : list Effect * Chan.t * PumpStatus :=
  match sched with
  | [] => ([], ch, Parked)
  | HubLeaves ch' :: rest => writePump_loop rest ch'
  | Turn w :: rest =>
      match write_turn w ch with
      | (effs, ch', Return) => (effs, ch', Returned)
      | (effs, ch', Stuck) => (effs, ch', Stalled)
      | (effs, ch', Continue) =>
          let '(more, ch'', s) := writePump_loop rest ch' in
          (effs ++ more, ch'', s)
      end
  end.

(** [Client.writePump]: the ticker, the loop, and the deferred function. *)
Definition writePump (sched : list Sched) (ch : Chan.t)
  : list Effect * Chan.t * PumpStatus :=
  let '(body, ch', s) := writePump_loop sched ch in
  ([NewTicker 54] ++ body
   ++ match s with
      | Returned => [TickerStop; Conn ConnClose]
      | _ => []
      end, ch', s).

(** ** The keepalive against a clock *)

(** Modelled from the spec: the ticker of Go's [time] package, a library
    that is not under src/: 'ping sent periodically by the write side,
    e.g. every 54 time-units'.  The [k]-th tick of a ticker comes [k]
    periods after the ticker was made. *)
Definition tick (period : Z) (k : nat) : Z := (period * Z.of_nat k)%Z.

(** The [for] loop of [readPump] against a clock.  Each thing the
    connection delivers comes with the time at which it arrives;
    [deadline] is the read deadline in force, the time of the last
    [SetReadDeadline] plus the 60 seconds it was given; the pump is
    watched until [horizon].  The result holds, next to the effects and
    the status, the time the loop has got to.

    Modelled from the spec: the read deadline itself is kept by
    gorilla/websocket and Go's [net] package, libraries that are not
    under src/: 'a read idle-timeout (connection considered dead if no
    liveness signal within a bounded window, e.g. 60 time-units)'.  A
    read that has got nothing when the deadline comes fails at the
    deadline, with an error that is not a close error. *)
Fixpoint readPump_loop_at (limit deadline : Z) (arrivals : list (Z * Inbound))
    (horizon : Z) : list Effect * PumpStatus * Z :=
  let nothing_more :=
    if decide (deadline ≤ horizon)%Z
    then (log_read_error OtherError, Returned, deadline)
    else ([], Parked, horizon) in
  match arrivals with
  | [] => nothing_more
  | (t, i) :: rest =>
      if decide (horizon < t)%Z then nothing_more
      else if decide (deadline ≤ t)%Z
      then (log_read_error OtherError, Returned, deadline)
      else
        match i with
        | PongFrame =>
            let '(effs, s, t') := readPump_loop_at limit (t + 60) rest horizon in
            (Conn (SetReadDeadline 60) :: effs, s, t')
        | DataFrame data =>
            match ReadMessage limit data with
            | inl message =>
                let '(effs, s, t') := readPump_loop_at limit deadline rest horizon in
                (ToHub (Broadcast message) :: effs, s, t')
            | inr err => (log_read_error err, Returned, t)
            end
        | Failure err => (log_read_error err, Returned, t)
        end
  end.

(** [Client.readPump] started at the time [start]. *)
Definition readPump_at (c : Client) (start : Z) (arrivals : list (Z * Inbound))
    (horizon : Z) : list Effect * PumpStatus * Z :=
  let '(body, s, t) := readPump_loop_at 512 (start + 60) arrivals horizon in
  ([Conn (SetReadLimit 512); Conn (SetReadDeadline 60); Conn SetPongHandler]
   ++ body
   ++ match s with
      | Returned => [ToHub (Unregister c); Conn ConnClose]
      | _ => []
      end, s, t).

(** What arrives from a peer that answers the first [n] pings of a write
    pump with a ticker of the given period, the [k]-th ping [lat k]
    after it was sent, and sends nothing else. *)
Definition pongs (period : Z) (lat : nat → Z) (n : nat) : list (Z * Inbound) :=
  (λ k, (tick period k + lat k, PongFrame)%Z) <$> seq 1 n.

(** When the read pump last heard of such a peer: with its [n]-th pong,
    or never since the pumps were started at time 0. *)
Definition last_heard (period : Z) (lat : nat → Z) (n : nat) : Z :=
  match n with
  | O => 0%Z
  | S _ => (tick period n + lat n)%Z
  end.

(** The calls on the connection among the effects of a pump. *)
Definition conn_calls (effs : list Effect) : list ConnCall :=
  omap (λ e, match e with Conn call => Some call | _ => None end) effs.

(** Modelled from the spec: the messages that gorilla/websocket, a library
    that is not under src/, puts on the wire for a sequence of calls:
    [WriteMessage] sends one message, and a writer obtained from
    [NextWriter] sends what was written to it as one message when it is
    closed ('coalesces any additional payloads already queued at that
    instant into one outbound frame'). *)
Fixpoint frames (cur : option (MessageType * Payload)) (calls : list ConnCall)
  : list (MessageType * Payload) :=
  match calls with
  | [] => []
  | WriteMessage ty data :: rest => (ty, data) :: frames cur rest
  | NextWriter ty :: rest => frames (Some (ty, [])) rest
  | WriterWrite data :: rest =>
      frames (prod_map id (λ acc, acc ++ data) <$> cur) rest
  | WriterClose :: rest =>
      match cur with
      | Some f => f :: frames None rest
      | None => frames None rest
      end
  | _ :: rest => frames cur rest
  end.

(** The payloads joined by the separator, as the spec words it. *)
Fixpoint join (sep : Payload) (ps : list Payload) : Payload :=
  match ps with
  | [] => []
  | [p] => p
  | p :: rest => p ++ sep ++ join sep rest
  end.

(** [evt.data.split('\n')] of the page's script, on the bytes of the
    frame: the pieces between the occurrences of the separator. *)
Fixpoint split (sep : byte) (data : Payload) : list Payload :=
  match data with
  | [] => [[]]
  | b :: rest =>
      if decide (b = sep) then [] :: split sep rest
      else match split sep rest with
           | piece :: pieces => (b :: piece) :: pieces
           | [] => [[b]]
           end
  end.

(** The separator and a payload, for each payload: what the coalescing
    loop writes for a queue. *)
Definition separated (ps : list Payload) : list Effect :=
  ps ≫= λ p, [Conn (WriterWrite newline); Conn (WriterWrite p)].

(** ** serveHome *)

Record Request := mkRequest { url_path : string; method : string; host : string }.

(** What the handler writes: [http.Error(w, msg, code)], or the header's
    content type followed by [homeTemplate] executed on [data]. *)
Inductive Response :=
| HttpError (msg : string) (code : Z)
| HomePage (content_type : string) (data : string).

Definition StatusNotFound : Z := 404.
Definition StatusMethodNotAllowed : Z := 405.
Definition MethodGet : string := "GET".

Definition serveHome (r : Request) : Response :=
  if decide (url_path r ≠ "/") then
    HttpError "Страница не найдена" StatusNotFound
  else if decide (method r ≠ MethodGet) then
    HttpError "Метод не поддерживается" StatusMethodNotAllowed
  else HomePage "text/html; charset=utf-8" (host r).

(** ** Invariants and the spec's reading of membership *)

#[global] Instance full_dec (ch : Chan.t) : Decision (Chan.full ch).
Proof. unfold Chan.full. apply _. Defined.

(** Every client in the hub's map has a [send] channel that is open. *)
Definition live_open (st : Machine) : Prop :=
  ∀ c, is_Some (clients st !! c) →
       ∃ ch, send st !! c = Some ch ∧ Chan.closed ch = false.

(** What the loop body leaves of [st] for a client whose channel [ch] is
    open: the payload queued, or the channel closed and the client gone. *)
Definition delivered (m : Payload) (c : Client) (ch : Chan.t) (st : Machine) : Machine :=
  if decide (Chan.len ch < Chan.cap ch)
  then mkMachine (clients st)
                 (<[c := Chan.mk (Chan.buf ch ++ [m]) (Chan.cap ch) false]> (send st))
  else mkMachine (delete c (clients st))
                 (<[c := Chan.mk (Chan.buf ch) (Chan.cap ch) true]> (send st)).

(** Every channel has the capacity [serveWs] gave it and holds no more. *)
Definition bounded (st : Machine) : Prop :=
  ∀ c ch, send st !! c = Some ch → Chan.cap ch = 256 ∧ Chan.len ch ≤ 256.

(** Both invariants are decided by a pass over the map they speak of. *)
#[global] Instance live_open_dec (st : Machine) : Decision (live_open st).
Proof.
  refine (cast_if (decide (map_Forall
            (λ c _, Chan.closed <$> send st !! c = Some false) (clients st))));
    unfold live_open; rewrite map_Forall_lookup in *.
  - intros c [b Hb]. pose proof (m c b Hb) as Hc.
    destruct (send st !! c) as [ch|]; [| done].
    exists ch. split; [done |]. simpl in Hc. congruence.
  - intros Hlive. apply n. intros c b Hb.
    destruct (Hlive c) as (ch & -> & Hopen); [by exists b |].
    simpl. by rewrite Hopen.
Defined.

#[global] Instance bounded_dec (st : Machine) : Decision (bounded st).
Proof.
  refine (cast_if (decide (map_Forall
            (λ _ ch, Chan.cap ch = 256 ∧ Chan.len ch ≤ 256) (send st))));
    unfold bounded; by rewrite map_Forall_lookup in *.
Defined.

(** The hub processes a register event for [c]: [serveWs], after a
    successful upgrade, hands it the client it has just allocated. *)
Definition registers (c : Client) (st : Machine) (a : Action) : bool :=
  match a with
  | Accepts true => bool_decide (fresh (dom (send st)) = c)
  | _ => false
  end.

(** The hub processes a removal of [c], as the spec lists them: an
    explicit unregister of [c], or a broadcast that finds the mailbox of
    [c] full. *)
Definition removes (c : Client) (st : Machine) (a : Action) : bool :=
  match a with
  | Leaves c' => bool_decide (c' = c)
  | Forwards _ =>
      match send st !! c with
      | Some ch => bool_decide (Chan.full ch)
      | None => false
      end
  | _ => false
  end.

(** No removal of [c] is processed along [acts]. *)
Fixpoint kept (c : Client) (st : Machine) (acts : list Action) : Prop :=
  match acts with
  | [] => True
  | a :: rest =>
      removes c st a = false ∧
      match sys_step st a with
      | Some st' => kept c st' rest
      | None => False
      end
  end.

(** 'It has been registered and not yet unregistered': a register event
    for [c] was processed, and no removal of [c] since. *)
Definition registered_since (c : Client) (st0 : Machine) (acts : list Action) : Prop :=
  ∃ pre a post st1 st2,
    acts = pre ++ a :: post ∧
    sys_run st0 pre = Some st1 ∧
    registers c st1 a = true ∧
    sys_step st1 a = Some st2 ∧
    kept c st2 post.

(** Whether the [send] channel of [c] has been closed. *)
Definition is_closed (c : Client) (st : Machine) : bool :=
  match send st !! c with
  | Some ch => Chan.closed ch
  | None => false
  end.

(** How often [close(c.send)] runs along [acts]: a close that returns
    turns an open channel into a closed one, and nothing else does. *)
Fixpoint closings (c : Client) (st : Machine) (acts : list Action) : nat :=
  match acts with
  | [] => 0
  | a :: rest =>
      match sys_step st a with
      | Some st' =>
          (if negb (is_closed c st) && is_closed c st' then 1 else 0)
          + closings c st' rest
      | None => 0
      end
  end.

(** ** Concrete states and inputs *)

(** One client, registered, whose write pump has fallen 256 payloads
    behind. *)
Definition slow_hub : Machine :=
  mkMachine {[ 1%positive := true ]}
            {[ 1%positive := Chan.mk (replicate 256 [x00]) 256 false ]}.

(** A slow client and a healthy one. *)
Definition mixed_hub : Machine :=
  mkMachine {[ 1%positive := true; 2%positive := true ]}
            {[ 1%positive := Chan.mk (replicate 256 [x00]) 256 false;
               2%positive := Chan.mk [[x00]] 256 false ]}.

(** One client, freshly registered. *)
Definition one_client : Machine :=
  mkMachine {[ 1%positive := true ]} {[ 1%positive := Chan.make 256 ]}.

(** One payload that holds a line feed. *)
Definition two_lines : Payload := ["a"%byte; x0a; "b"%byte].

(** The hub events among the effects of a pump. *)
Definition hub_events (effs : list Effect) : list HubEvent :=
  omap (λ e, match e with ToHub ev => Some ev | _ => None end) effs.

(** The data messages among what the connection delivers. *)
Definition data_frames (inbound : list Inbound) : list Payload :=
  omap (λ i, match i with DataFrame data => Some data | _ => None end) inbound.

(** What [ReadMessage] under the limit of 512 bytes gets past without an
    error: a pong, or a data message of no more than 512 bytes. *)
Definition reads_well (i : Inbound) : bool :=
  match i with
  | DataFrame data => bool_decide (Z.of_nat (length data) ≤ 512)%Z
  | PongFrame => true
  | Failure _ => false
  end.

(** A call that writes to the connection. *)
Definition is_write (call : ConnCall) : bool :=
  match call with
  | WriteMessage _ _ | NextWriter _ | WriterWrite _ | WriterClose => true
  | _ => false
  end.

(** A client is in the hub's map exactly if its channel is open. *)
Definition open_iff_registered (st : Machine) : Prop :=
  ∀ c ch, send st !! c = Some ch →
          (is_Some (clients st !! c) ↔ Chan.closed ch = false).

(** One client that has left: its channel is closed and empty. *)
Definition left_hub : Machine :=
  mkMachine ∅ {[ 1%positive := Chan.mk [] 256 true ]}.

(** A call that concerns the read side of the connection. *)
Definition is_read (call : ConnCall) : bool :=
  match call with
  | SetReadLimit _ | SetReadDeadline _ | SetPongHandler => true
  | _ => false
  end.

(** * DayList.go: notes in a slice *)

(** Go's [int] on a 64-bit platform: sums wrap around. *)
Definition wrap_int (z : Z) : Z := ((z + 2 ^ 63) `mod` 2 ^ 64 - 2 ^ 63)%Z.

Module DayList.

(** [type Note struct]; a [time.Time] is a number. *)
Record Note := mkNote { ID : Z; Content : string; CreatedAt : Z }.

(** What the program prints, one constructor for each message. *)
Inductive Output :=
| Added (id : Z)
| NoNotes
| Listed (n : Note)
| NotFound (id : Z)
| Deleted (id : Z)
| LoadFailed
| Usage
| UsageAdd
| UsageDelete
| IdNotNumber
| UnknownCommand (command : string)
| AvailableCommands
| SaveFailed.

(** [addNote]: the new note gets the ID of the last note plus one, or 1
    when there is no note. *)
Definition addNote (content : string) (now : Z) (notes : list Note)
  : list Note * list Output :=
  let id := match last notes with
            | Some n => wrap_int (ID n + 1)
            | None => 1%Z
            end in
  (notes ++ [mkNote id content now], [Added id]).

(** [listNotes] *)
Definition listNotes (notes : list Note) : list Output :=
  match notes with
  | [] => [NoNotes]
  | _ => Listed <$> notes
  end.

(** [deleteNote]: the first note with the given ID is cut out of the
    slice; [index == -1] is [None]. *)
Definition deleteNote (id : Z) (notes : list Note) : list Note * list Output :=
  match list_find (λ n, ID n = id) notes with
  | None => (notes, [NotFound id])
  | Some (index, _) => (delete index notes, [Deleted id])
  end.

(** How [main] ends: the exit status, what was printed, and the notes
    handed to [saveNotes], if it was called. *)
Record Outcome := mkOutcome {
  exit_code : Z;
  printed : list Output;
  saved : option (list Note)
}.

(** [os.Exit(1)] after a message, before anything is saved. *)
Definition fail (out : list Output) : Outcome := mkOutcome 1 out None.

(** The end of [main]: [saveNotes], which may fail. *)
Definition finish (save_ok : bool) (r : list Note * list Output) : Outcome :=
  if save_ok then mkOutcome 0 r.2 (Some r.1)
  else mkOutcome 1 (r.2 ++ [SaveFailed]) (Some r.1).

(** [main] on [os.Args], on what [loadNotes] returns ([None] for an
    error, the empty list for a missing file), the clock and the success
    of the final write.  [filepath.IsAbs] and [strconv.Atoi] are those of
    the Go library. *)
Definition main (IsAbs : string → bool) (Atoi : string → option Z)
    (args : list string) (loaded : option (list Note)) (now : Z) (save_ok : bool)
  : Outcome :=
  match loaded with
  | None => fail [LoadFailed]
  | Some notes =>
      if decide (length args < 2) then fail [Usage]
      else
        let shift := IsAbs (default "" (args !! 1)) && bool_decide (2 < length args) in
        let command := default "" (args !! (if shift then 2 else 1)) in
        let args := if shift then firstn 1 args ++ skipn 2 args else args in
        if decide (command = "add") then
          if decide (length args < 3) then fail [UsageAdd]
          else finish save_ok (addNote (default "" (args !! 2)) now notes)
        else if decide (command = "list") then
          finish save_ok (notes, listNotes notes)
        else if decide (command = "delete") then
          if decide (length args < 3) then fail [UsageDelete]
          else match Atoi (default "" (args !! 2)) with
               | None => fail [IdNotNumber]
               | Some id => finish save_ok (deleteNote id notes)
               end
        else fail [UnknownCommand command; AvailableCommands]
  end.

(** What one run of the program does to the notes. *)
Inductive Command :=
| Add (content : string) (now : Z)
| Delete (id : Z).

Definition exec (notes : list Note) (cmd : Command) : list Note :=
  match cmd with
  | Add content now => (addNote content now notes).1
  | Delete id => (deleteNote id notes).1
  end.

End DayList.

(** * RESTful_API.go: tasks behind an HTTP interface *)

(** [strings.Split(s, sep)] of the Go library for a separator of one
    byte: the pieces of [s] between the separators. *)
Fixpoint Split (sep : Ascii.ascii) (s : string) : list string :=
  match s with
  | EmptyString => [EmptyString]
  | String a rest =>
      if decide (a = sep) then EmptyString :: Split sep rest
      else match Split sep rest with
           | piece :: pieces => String a piece :: pieces
           | [] => [String a EmptyString]
           end
  end.

(** The byte of the solidus, the separator of path segments. *)
Definition slash : Ascii.ascii := Ascii.ascii_of_byte x2f.

Module RestApi.

(** [type Task struct]; a [time.Time] is a number. *)
Record Task := mkTask {
  ID : Z;
  Title : string;
  Description : string;
  Completed : bool;
  CreatedAt : Z
}.

(** The package variables [tasks] and [nextID]; every access is made
    with [mutex] held. *)
Record Store := mkStore { tasks : list Task; nextID : Z }.

(** [var tasks []Task] and [var nextID int = 1] *)
Definition start : Store := mkStore [] 1.

(** What a handler writes after the status line: nothing, the encoded
    tasks, one encoded task, or the text of [http.Error]. *)
Inductive Body :=
| NoBody
| JsonTasks (ts : list Task)
| JsonTask (t : Task)
| ErrorText (msg : string).

Record Response := mkResponse { status : Z; body : Body }.

Definition StatusOK : Z := 200.
Definition StatusCreated : Z := 201.
Definition StatusNoContent : Z := 204.
Definition StatusBadRequest : Z := 400.
Definition StatusNotFound : Z := 404.
Definition StatusMethodNotAllowed : Z := 405.

(** [getTasks] *)
Definition getTasks (st : Store) : Store * Response :=
  (st, mkResponse StatusOK (JsonTasks (tasks st))).

(** [getTask]: the first task with the ID. *)
Definition getTask (id : Z) (st : Store) : Store * Response :=
  match list_find (λ t, ID t = id) (tasks st) with
  | Some (_, t) => (st, mkResponse StatusOK (JsonTask t))
  | None => (st, mkResponse StatusNotFound (ErrorText "Задача не найдена"))
  end.

(** [createTask] on what the JSON decoder made of the body ([None] for an
    error) and on the clock. *)
Definition createTask (decoded : option Task) (now : Z) (st : Store)
  : Store * Response :=
  match decoded with
  | None => (st, mkResponse StatusBadRequest (ErrorText "Неверные данные"))
  | Some task =>
      let task := mkTask (nextID st) (Title task) (Description task)
                         (Completed task) now in
      (mkStore (tasks st ++ [task]) (wrap_int (nextID st + 1)),
       mkResponse StatusCreated (JsonTask task))
  end.

(** [updateTask] *)
Definition updateTask (decoded : option Task) (id : Z) (st : Store)
  : Store * Response :=
  match decoded with
  | None => (st, mkResponse StatusBadRequest (ErrorText "Неверные данные"))
  | Some updatedTask =>
      match list_find (λ t, ID t = id) (tasks st) with
      | Some (i, t) =>
          let t := mkTask (ID t) (Title updatedTask) (Description updatedTask)
                          (Completed updatedTask) (CreatedAt t) in
          (mkStore (<[i := t]> (tasks st)) (nextID st),
           mkResponse StatusOK (JsonTask t))
      | None => (st, mkResponse StatusNotFound (ErrorText "Задача не найдена"))
      end
  end.

(** [deleteTask] *)
Definition deleteTask (id : Z) (st : Store) : Store * Response :=
  match list_find (λ t, ID t = id) (tasks st) with
  | Some (i, _) =>
      (mkStore (delete i (tasks st)) (nextID st), mkResponse StatusNoContent NoBody)
  | None => (st, mkResponse StatusNotFound (ErrorText "Задача не найдена"))
  end.

(** [tasksHandler] *)
Definition tasksHandler (method : string) (decoded : option Task) (now : Z)
    (st : Store) : Store * Response :=
  if decide (method = "GET") then getTasks st
  else if decide (method = "POST") then createTask decoded now st
  else (st, mkResponse StatusMethodNotAllowed NoBody).

(** [taskHandler]; [strconv.Atoi] is that of the Go library. *)
Definition taskHandler (Atoi : string → option Z) (method path : string)
    (decoded : option Task) (st : Store) : Store * Response :=
  let parts := Split slash path in
  if decide (length parts < 3) then
    (st, mkResponse StatusBadRequest (ErrorText "Неверный URL"))
  else
    match Atoi (default "" (parts !! 2)) with
    | None => (st, mkResponse StatusBadRequest (ErrorText "Неверный ID задачи"))
    | Some id =>
        if decide (method = "GET") then getTask id st
        else if decide (method = "PUT") then updateTask decoded id st
        else if decide (method = "DELETE") then deleteTask id st
        else (st, mkResponse StatusMethodNotAllowed NoBody)
    end.

(** A request as [main] routes it: to [tasksHandler] ([/tasks]) or to
    [taskHandler] (below [/tasks/]). *)
Inductive Request :=
| ToTasks (method : string) (decoded : option Task) (now : Z)
| ToTask (method path : string) (decoded : option Task).

Definition method_of (r : Request) : string :=
  match r with
  | ToTasks method _ _ => method
  | ToTask method _ _ => method
  end.

Definition handle (Atoi : string → option Z) (st : Store) (r : Request)
  : Store * Response :=
  match r with
  | ToTasks method decoded now => tasksHandler method decoded now st
  | ToTask method path decoded => taskHandler Atoi method path decoded st
  end.

(** The store after a sequence of requests. *)
Definition serve (Atoi : string → option Z) (st : Store) (rs : list Request) : Store :=
  foldl (λ st r, (handle Atoi st r).1) st rs.

End RestApi.

(** * Tracker.go: tasks and their sessions *)

Module Tracker.

(** [type Session struct]; a [time.Time] is a number and the zero time,
    for which [IsZero] holds, is 0. *)
Record Session := mkSession { Start : Z; End : Z }.

(** [type Task struct] *)
Record Task := mkTask { ID : Z; Name : string; Sessions : list Session }.

(** The condition inside the loop of [findActiveTask]: the task has a
    session and the end of its last session is the zero time. *)
Definition running (t : Task) : Prop :=
  match last (Sessions t) with
  | Some lastSession => End lastSession = 0%Z
  | None => False
  end.

#[global] Instance running_dec (t : Task) : Decision (running t).
Proof. unfold running. destruct (last (Sessions t)); apply _. Defined.

(** [findActiveTask]: the first running task, with its place in [tasks]
    for the pointer that is returned; [nil] is [None]. *)
Definition findActiveTask (tasks : list Task) : option (nat * Task) :=
  list_find running tasks.

(** What the program prints, one constructor for each message. *)
Inductive Output :=
| CannotStart (active : string)
| SaveFailed
| Started (name : string)
| NothingToStop
| Stopped (name : string) (start stop : Z).

(** The loop that computes [newID] in [startTask]. *)
Definition newID (tasks : list Task) : Z :=
  foldl (λ newID t, if decide (newID ≤ ID t)%Z then wrap_int (ID t + 1) else newID)
        1%Z tasks.

(** [append(task.Sessions, session)] for the task the pointer is at. *)
Definition open_session (now : Z) (t : Task) : Task :=
  mkTask (ID t) (Name t) (Sessions t ++ [mkSession now 0]).

(** [startTask]; [strings.EqualFold] is that of the Go library, the
    clock and the success of [saveTasks] are given. *)
Definition startTask (EqualFold : string → string → bool)
    (taskName : string) (now : Z) (save_ok : bool) (tasks : list Task)
  : list Task * list Output :=
  match findActiveTask tasks with
  | Some (_, active) => (tasks, [CannotStart (Name active)])
  | None =>
      let '(tasks, i, name) :=
        match list_find (λ t, EqualFold (Name t) taskName = true) tasks with
        | Some (i, task) => (tasks, i, Name task)
        | None => (tasks ++ [mkTask (newID tasks) taskName []], length tasks, taskName)
        end in
      (alter (open_session now) i tasks,
       if save_ok then [Started name] else [SaveFailed])
  end.

(** [active.Sessions[idx].End = time.Now()] with [idx] the last index. *)
Definition close_session (now : Z) (t : Task) : Task :=
  mkTask (ID t) (Name t)
         (alter (λ s, mkSession (Start s) now) (length (Sessions t) - 1) (Sessions t)).

(** [stopTask]; the duration that is printed is that between the two
    times of [Stopped]. *)
Definition stopTask (now : Z) (save_ok : bool) (tasks : list Task)
  : list Task * list Output :=
  match findActiveTask tasks with
  | None => (tasks, [NothingToStop])
  | Some (i, active) =>
      (alter (close_session now) i tasks,
       if save_ok
       then [Stopped (Name active)
                     (default 0%Z (Start <$> last (Sessions active))) now]
       else [SaveFailed])
  end.

(** The two commands that change the tasks. *)
Inductive Command :=
| DoStart (taskName : string) (now : Z) (save_ok : bool)
| DoStop (now : Z) (save_ok : bool).

Definition at_time (cmd : Command) : Z :=
  match cmd with
  | DoStart _ now _ => now
  | DoStop now _ => now
  end.

Definition exec (EqualFold : string → string → bool) (tasks : list Task)
    (cmd : Command) : list Task :=
  match cmd with
  | DoStart taskName now save_ok => (startTask EqualFold taskName now save_ok tasks).1
  | DoStop now save_ok => (stopTask now save_ok tasks).1
  end.

(** What a later state keeps of a task: its ID, its name, the start of
    every session, and every session that has ended. *)
Definition keeps (t t' : Task) : Prop :=
  ID t' = ID t ∧ Name t' = Name t ∧
  ∀ j s, Sessions t !! j = Some s →
         ∃ s', Sessions t' !! j = Some s' ∧ Start s' = Start s ∧
               (End s ≠ 0%Z → s' = s).

End Tracker.

(** * Proofs *)

(** ** Channels *)

Lemma try_send_open m ch :
  Chan.closed ch = false →
  Chan.try_send m ch =
    if decide (Chan.len ch < Chan.cap ch)
    then Chan.Sent (Chan.mk (Chan.buf ch ++ [m]) (Chan.cap ch) false)
    else Chan.WouldBlock.
Proof. intros Hopen. unfold Chan.try_send. by rewrite Hopen. Qed.

Lemma close_open ch :
  Chan.closed ch = false →
  Chan.close ch = Some (Chan.mk (Chan.buf ch) (Chan.cap ch) true).
Proof. intros Hopen. unfold Chan.close. by rewrite Hopen. Qed.

Lemma close_closed ch : Chan.closed ch = true → Chan.close ch = None.
Proof. intros Hcl. unfold Chan.close. by rewrite Hcl. Qed.

Lemma full_not_room ch : Chan.full ch ↔ ¬ Chan.len ch < Chan.cap ch.
Proof. unfold Chan.full. lia. Qed.

(** ** One client in a broadcast *)

Lemma deliver_open m c ch st :
  send st !! c = Some ch → Chan.closed ch = false →
  deliver m c st = Some (delivered m c ch st).
Proof.
  intros Hch Hopen. unfold deliver, delivered.
  rewrite Hch, (try_send_open _ _ Hopen).
  case_decide; [done |]. by rewrite (close_open _ Hopen).
Qed.

Lemma deliver_Some m c st st' :
  deliver m c st = Some st' →
  ∃ ch, send st !! c = Some ch ∧ Chan.closed ch = false ∧ st' = delivered m c ch st.
Proof.
  unfold deliver. destruct (send st !! c) as [ch|] eqn:Hch; [| done].
  destruct (Chan.closed ch) eqn:Hopen.
  - unfold Chan.try_send. by rewrite Hopen.
  - intros Hd. exists ch. split_and!; [done.. |].
    pose proof (deliver_open m c ch st Hch Hopen) as Hd'.
    unfold deliver in Hd'. rewrite Hch in Hd'. congruence.
Qed.

Lemma delivered_other m c ch st c' :
  c' ≠ c →
  clients (delivered m c ch st) !! c' = clients st !! c' ∧
  send (delivered m c ch st) !! c' = send st !! c'.
Proof.
  intros Hne. unfold delivered. case_decide; simpl;
    rewrite ?lookup_delete_ne, ?lookup_insert_ne by done; done.
Qed.

Lemma delivered_self m c ch st :
  send (delivered m c ch st) !! c =
    Some (if decide (Chan.len ch < Chan.cap ch)
          then Chan.mk (Chan.buf ch ++ [m]) (Chan.cap ch) false
          else Chan.mk (Chan.buf ch) (Chan.cap ch) true) ∧
  clients (delivered m c ch st) !! c =
    (if decide (Chan.len ch < Chan.cap ch) then clients st !! c else None).
Proof.
  unfold delivered. case_decide; simpl;
    rewrite ?lookup_delete_eq, ?lookup_insert_eq; done.
Qed.

(** ** The range loop *)

Lemma broadcast_loop_other m order : ∀ st st' c,
  broadcast_loop m order st = Some st' → c ∉ order →
  clients st' !! c = clients st !! c ∧ send st' !! c = send st !! c.
Proof.
  induction order as [|c0 order IH]; intros st st' c Hrun Hnot; simpl in Hrun.
  - by simplify_eq.
  - destruct (deliver m c0 st) as [st1|] eqn:Hd; [| done]. simpl in Hrun.
    apply deliver_Some in Hd as (ch & _ & _ & ->).
    apply not_elem_of_cons in Hnot as [Hne Hnot].
    destruct (IH _ _ _ Hrun Hnot) as [-> ->].
    by apply delivered_other.
Qed.

Lemma broadcast_loop_at m order : ∀ st st' c,
  broadcast_loop m order st = Some st' → NoDup order → c ∈ order →
  ∃ ch, send st !! c = Some ch ∧ Chan.closed ch = false ∧
        send st' !! c = send (delivered m c ch st) !! c ∧
        clients st' !! c = clients (delivered m c ch st) !! c.
Proof.
  induction order as [|c0 order IH]; intros st st' c Hrun Hnd Hin; simpl in Hrun.
  - by apply elem_of_nil in Hin.
  - destruct (deliver m c0 st) as [st1|] eqn:Hd; [| done]. simpl in Hrun.
    apply deliver_Some in Hd as (ch0 & Hch0 & Hopen0 & ->).
    apply NoDup_cons in Hnd as [Hfresh Hnd].
    apply elem_of_cons in Hin as [-> | Hin].
    + exists ch0. destruct (broadcast_loop_other _ _ _ _ c0 Hrun Hfresh) as [-> ->].
      done.
    + assert (c ≠ c0) as Hne by (intros ->; done).
      destruct (IH _ _ _ Hrun Hnd Hin) as (ch & Hch & Hopen & Hs & Hc).
      destruct (delivered_other m c0 ch0 st c Hne) as [Hc0 Hs0].
      rewrite Hs0 in Hch. exists ch. split_and!; [done.. | |].
      * rewrite Hs. unfold delivered. case_decide; simpl;
          by rewrite !lookup_insert_eq.
      * rewrite Hc. unfold delivered. case_decide; simpl;
          rewrite ?lookup_delete_eq; done.
Qed.

Lemma broadcast_loop_total m order : ∀ st,
  NoDup order →
  (∀ c, c ∈ order → ∃ ch, send st !! c = Some ch ∧ Chan.closed ch = false) →
  is_Some (broadcast_loop m order st).
Proof.
  induction order as [|c0 order IH]; intros st Hnd Hopen; simpl; [done |].
  apply NoDup_cons in Hnd as [Hfresh Hnd].
  destruct (Hopen c0) as (ch0 & Hch0 & Hopen0); [left |].
  rewrite (deliver_open _ _ _ _ Hch0 Hopen0). simpl.
  apply IH; [done |]. intros c Hin.
  assert (c ≠ c0) as Hne by (intros ->; done).
  destruct (delivered_other m c0 ch0 st c Hne) as [_ ->].
  apply Hopen. by right.
Qed.

Lemma elem_of_range_keys (cl : gmap Client bool) c :
  c ∈ range_keys cl ↔ is_Some (cl !! c).
Proof.
  unfold range_keys. rewrite list_elem_of_fmap. split.
  - intros ([c' b] & -> & Hin). apply elem_of_map_to_list in Hin. by exists b.
  - intros [b Hb]. exists (c, b). split; [done |]. by apply elem_of_map_to_list.
Qed.

Lemma NoDup_range_keys (cl : gmap Client bool) : NoDup (range_keys cl).
Proof. apply NoDup_fst_map_to_list. Qed.

Lemma machine_eq (st st' : Machine) :
  (∀ c, clients st !! c = clients st' !! c) →
  (∀ c, send st !! c = send st' !! c) →
  st = st'.
Proof.
  destruct st as [cl sd], st' as [cl' sd']; simpl. intros Hc Hs.
  f_equal; by apply map_eq.
Qed.

Lemma broadcast_loop_open m order st st' c :
  broadcast_loop m order st = Some st' → NoDup order → c ∈ order →
  ∃ ch, send st !! c = Some ch ∧ Chan.closed ch = false.
Proof.
  intros Hrun Hnd Hin.
  destruct (broadcast_loop_at _ _ _ _ _ Hrun Hnd Hin) as (ch & ? & ? & _).
  by exists ch.
Qed.

(** The order in which the range loop visits the clients does not change
    what the loop leaves, a panic included. *)
Lemma broadcast_loop_perm m order order' st :
  order ≡ₚ order' → NoDup order →
  broadcast_loop m order st = broadcast_loop m order' st.
Proof.
  intros Hperm Hnd.
  assert (NoDup order') as Hnd' by (by rewrite <- Hperm).
  destruct (broadcast_loop m order st) as [st1|] eqn:H1,
           (broadcast_loop m order' st) as [st2|] eqn:H2; [| | | done].
  - f_equal. apply machine_eq; intros c.
    + destruct (decide (c ∈ order)) as [Hin | Hout].
      * destruct (broadcast_loop_at _ _ _ _ _ H1 Hnd Hin) as (ch & Hch & _ & _ & ->).
        assert (c ∈ order') as Hin' by (by rewrite <- Hperm).
        destruct (broadcast_loop_at _ _ _ _ _ H2 Hnd' Hin') as (ch' & Hch' & _ & _ & ->).
        congruence.
      * assert (c ∉ order') as Hout' by (by rewrite <- Hperm).
        destruct (broadcast_loop_other _ _ _ _ _ H1 Hout) as [-> _].
        by destruct (broadcast_loop_other _ _ _ _ _ H2 Hout') as [-> _].
    + destruct (decide (c ∈ order)) as [Hin | Hout].
      * destruct (broadcast_loop_at _ _ _ _ _ H1 Hnd Hin) as (ch & Hch & _ & -> & _).
        assert (c ∈ order') as Hin' by (by rewrite <- Hperm).
        destruct (broadcast_loop_at _ _ _ _ _ H2 Hnd' Hin') as (ch' & Hch' & _ & -> & _).
        congruence.
      * assert (c ∉ order') as Hout' by (by rewrite <- Hperm).
        destruct (broadcast_loop_other _ _ _ _ _ H1 Hout) as [_ ->].
        by destruct (broadcast_loop_other _ _ _ _ _ H2 Hout') as [_ ->].
  - exfalso. apply (is_Some_None (A := Machine)). rewrite <- H2.
    apply broadcast_loop_total; [done |]. intros c Hin.
    apply (broadcast_loop_open m order st st1); [done.. |]. by rewrite Hperm.
  - exfalso. apply (is_Some_None (A := Machine)). rewrite <- H1.
    apply broadcast_loop_total; [done |]. intros c Hin.
    apply (broadcast_loop_open m order' st st2); [done.. |]. by rewrite <- Hperm.
Qed.

(** A broadcast over a hub whose clients all have open channels: it
    returns, and it treats every client on its own. *)
Lemma broadcast_pointwise m order st :
  live_open st → order ≡ₚ range_keys (clients st) →
  ∃ st', broadcast_loop m order st = Some st' ∧
    ∀ c,
      (clients st !! c = None →
         clients st' !! c = None ∧ send st' !! c = send st !! c) ∧
      (∀ ch, is_Some (clients st !! c) → send st !! c = Some ch →
         send st' !! c = send (delivered m c ch st) !! c ∧
         clients st' !! c = clients (delivered m c ch st) !! c).
Proof.
  intros Hlive Hperm.
  assert (NoDup order) as Hnd by (rewrite Hperm; apply NoDup_range_keys).
  assert (∀ c, c ∈ order ↔ is_Some (clients st !! c)) as Hin.
  { intros c. rewrite Hperm. apply elem_of_range_keys. }
  destruct (broadcast_loop_total m order st Hnd) as [st' Hrun].
  { intros c Hc. apply Hlive. by apply Hin. }
  exists st'. split; [done |]. intros c. split.
  - intros Hnone.
    assert (c ∉ order) as Hout.
    { rewrite Hin, Hnone. by intros [? ?]. }
    destruct (broadcast_loop_other _ _ _ _ _ Hrun Hout) as [-> ->]. done.
  - intros ch Hsome Hch. apply Hin in Hsome.
    destruct (broadcast_loop_at _ _ _ _ _ Hrun Hnd Hsome) as (ch' & Hch' & _ & Hs & Hc).
    by simplify_eq.
Qed.

(** ** The invariants along the program's steps *)

Lemma delivered_chan m c ch st c' ch' :
  send st !! c = Some ch →
  send (delivered m c ch st) !! c' = Some ch' →
  Chan.cap ch' = (if decide (c' = c) then Chan.cap ch else Chan.cap ch') ∧
  ∃ ch0, send st !! c' = Some ch0 ∧ Chan.cap ch' = Chan.cap ch0 ∧
         Chan.len ch' ≤ Nat.max (Chan.len ch0) (Chan.cap ch0).
Proof.
  intros Hch. destruct (decide (c' = c)) as [-> | Hne].
  - destruct (delivered_self m c ch st) as [-> _]. intros [= <-].
    split; [by case_decide |]. exists ch. split; [done |].
    case_decide; simpl; unfold Chan.len in *; simpl; [| lia].
    rewrite length_app; simpl. lia.
  - destruct (delivered_other m c ch st c' Hne) as [_ ->]. intros Hch'.
    split; [done |]. exists ch'. split; [done |]. lia.
Qed.

Lemma live_open_broadcast m order st st' :
  live_open st → order ≡ₚ range_keys (clients st) →
  broadcast_loop m order st = Some st' →
  live_open st'.
Proof.
  intros Hlive Hperm Hrun c Hc.
  destruct (broadcast_pointwise m order st Hlive Hperm) as (st1 & Hrun' & Hpt).
  assert (st1 = st') as -> by congruence.
  destruct (Hpt c) as [Hnone Hsome].
  destruct (clients st !! c) as [b|] eqn:Hcl.
  - destruct (Hlive c) as (ch & Hch & Hopen); [by rewrite Hcl |].
    destruct (Hsome ch) as [Hs Hc']; [done.. |].
    destruct (delivered_self m c ch st) as [Hs' Hc''].
    rewrite Hc', Hc'' in Hc. rewrite Hs, Hs'. case_decide.
    + eexists. split; [done |]. done.
    + by destruct Hc.
  - destruct Hnone as [Hnone _]; [done |]. rewrite Hnone in Hc. by destruct Hc.
Qed.

Lemma bounded_broadcast m order st st' :
  live_open st → bounded st → order ≡ₚ range_keys (clients st) →
  broadcast_loop m order st = Some st' →
  bounded st'.
Proof.
  intros Hlive Hb Hperm Hrun c ch' Hch'.
  destruct (broadcast_pointwise m order st Hlive Hperm) as (st1 & Hrun' & Hpt).
  assert (st1 = st') as -> by congruence.
  destruct (Hpt c) as [Hnone Hsome].
  destruct (clients st !! c) as [b|] eqn:Hcl.
  - destruct (Hlive c) as (ch & Hch & Hopen); [by rewrite Hcl |].
    destruct (Hsome ch) as [Hs _]; [done.. |]. rewrite Hs in Hch'.
    destruct (delivered_chan _ _ _ _ _ _ Hch Hch') as [_ (ch0 & Hch0 & Hcap & Hlen)].
    destruct (Hb _ _ Hch0) as [Hcap0 Hlen0]. lia.
  - destruct Hnone as [_ Hs]; [done |]. rewrite Hs in Hch'. by apply (Hb c).
Qed.

Lemma on_unregister_present c st ch :
  is_Some (clients st !! c) → send st !! c = Some ch → Chan.closed ch = false →
  on_unregister c st =
    Some (mkMachine (delete c (clients st))
                    (<[c := Chan.mk (Chan.buf ch) (Chan.cap ch) true]> (send st))).
Proof.
  intros [b Hb] Hch Hopen. unfold on_unregister. rewrite Hb, Hch. simpl.
  by rewrite (close_open _ Hopen).
Qed.

Lemma on_unregister_absent c st :
  clients st !! c = None → on_unregister c st = Some st.
Proof. intros Hnone. unfold on_unregister. by rewrite Hnone. Qed.

Lemma unregister_inv c st :
  live_open st → bounded st →
  ∃ st', on_unregister c st = Some st' ∧ live_open st' ∧ bounded st' ∧
         clients st' !! c = None.
Proof.
  intros Hlive Hb. destruct (clients st !! c) as [b|] eqn:Hcl.
  - destruct (Hlive c) as (ch & Hch & Hopen); [by rewrite Hcl |].
    eexists. split; [apply on_unregister_present; by rewrite ?Hcl |].
    split_and!; simpl.
    + intros c' Hc'. simpl in *. destruct (decide (c' = c)) as [-> | Hne].
      * rewrite lookup_delete_eq in Hc'. by destruct Hc'.
      * rewrite lookup_delete_ne in Hc' by done.
        rewrite lookup_insert_ne by done. by apply Hlive.
    + intros c' ch'. simpl. destruct (decide (c' = c)) as [-> | Hne].
      * rewrite lookup_insert_eq. intros [= <-].
        destruct (Hb c ch Hch) as [Hcap Hlen]. by split.
      * rewrite lookup_insert_ne by done. apply Hb.
    + simpl. apply lookup_delete_eq.
  - exists st. by rewrite on_unregister_absent.
Qed.

Lemma serveWs_accept st :
  serveWs true st =
    Some (mkMachine (<[fresh (dom (send st)) := true]> (clients st))
                    (<[fresh (dom (send st)) := Chan.make 256]> (send st))) ∧
  send st !! fresh (dom (send st)) = None.
Proof.
  split; [done |]. apply not_elem_of_dom, is_fresh.
Qed.

Lemma take_clients c st : clients (take c st) = clients st.
Proof.
  unfold take. destruct (send st !! c) as [ch|]; [| done].
  by destruct (Chan.recv ch).
Qed.

Lemma recv_received ch m ch' :
  Chan.recv ch = Chan.Received m ch' →
  Chan.buf ch = m :: Chan.buf ch' ∧ Chan.cap ch' = Chan.cap ch ∧
  Chan.closed ch' = Chan.closed ch.
Proof.
  unfold Chan.recv. destruct (Chan.buf ch) as [|m0 rest].
  - by destruct (Chan.closed ch).
  - by intros [= <- <-].
Qed.

Lemma take_inv c st : live_open st → bounded st → live_open (take c st) ∧ bounded (take c st).
Proof.
  intros Hlive Hb. unfold take.
  destruct (send st !! c) as [ch|] eqn:Hch; [| done].
  destruct (Chan.recv ch) as [m ch'| |] eqn:Hrecv; [| done..].
  apply recv_received in Hrecv as (Hbuf & Hcap & Hcl). split.
  - intros c' Hc'. simpl in *. destruct (decide (c' = c)) as [-> | Hne].
    + rewrite lookup_insert_eq. exists ch'. split; [done |].
      destruct (Hlive c Hc') as (ch0 & Hch0 & Hopen).
      assert (ch0 = ch) as -> by congruence. congruence.
    + rewrite lookup_insert_ne by done. by apply Hlive.
  - intros c' ch1. simpl. destruct (decide (c' = c)) as [-> | Hne].
    + rewrite lookup_insert_eq. intros [= <-].
      destruct (Hb c ch Hch) as [Hcap0 Hlen0]. unfold Chan.len in *.
      rewrite Hbuf in Hlen0. simpl in Hlen0. split; [congruence | lia].
    + rewrite lookup_insert_ne by done. apply Hb.
Qed.

(** Every step of the program returns and keeps the invariants: no
    close of a closed channel, no send on one. *)
Lemma sys_step_inv st a :
  live_open st → bounded st →
  ∃ st', sys_step st a = Some st' ∧ live_open st' ∧ bounded st'.
Proof.
  intros Hlive Hb. destruct a as [[] | m | c | c]; cbn [sys_step hub_step].
  - destruct (serveWs_accept st) as [-> Hfresh].
    eexists. split; [done |]. split.
    + intros c' Hc'. simpl in *.
      destruct (decide (c' = fresh (dom (send st)))) as [-> | Hne].
      * rewrite lookup_insert_eq. by eexists.
      * rewrite lookup_insert_ne in Hc' by done.
        rewrite lookup_insert_ne by done. by apply Hlive.
    + intros c' ch'. simpl.
      destruct (decide (c' = fresh (dom (send st)))) as [-> | Hne].
      * rewrite lookup_insert_eq. intros [= <-]. simpl.
        unfold Chan.len; simpl. lia.
      * rewrite lookup_insert_ne by done. apply Hb.
  - by exists st.
  - destruct (broadcast_pointwise m (range_keys (clients st)) st Hlive) as (st' & Hrun & _);
      [done |].
    exists st'. unfold on_broadcast. split; [done |]. split.
    + by eapply live_open_broadcast.
    + by eapply bounded_broadcast.
  - destruct (unregister_inv c st Hlive Hb) as (st' & ? & ? & ? & _). by exists st'.
  - eexists. split; [done |]. by apply take_inv.
Qed.

Lemma sys_run_inv acts : ∀ st,
  live_open st → bounded st →
  ∃ st', sys_run st acts = Some st' ∧ live_open st' ∧ bounded st'.
Proof.
  induction acts as [|a acts IH]; intros st Hlive Hb; simpl.
  - by exists st.
  - destruct (sys_step_inv st a Hlive Hb) as (st1 & -> & Hlive1 & Hb1). simpl.
    by apply IH.
Qed.

Lemma newHub_inv : live_open newHub ∧ bounded newHub.
Proof.
  split.
  - intros c [b Hb]. simpl in Hb. by rewrite lookup_empty in Hb.
  - intros c ch Hch. simpl in Hch. by rewrite lookup_empty in Hch.
Qed.

(** ** Broadcast *)

Lemma delivered_room m c ch st :
  ¬ Chan.full ch →
  delivered m c ch st =
    mkMachine (clients st)
              (<[c := Chan.mk (Chan.buf ch ++ [m]) (Chan.cap ch) false]> (send st)).
Proof.
  intros Hroom. unfold delivered. case_decide; [done |].
  by apply full_not_room in H.
Qed.

Lemma delivered_full m c ch st :
  Chan.full ch →
  delivered m c ch st =
    mkMachine (delete c (clients st))
              (<[c := Chan.mk (Chan.buf ch) (Chan.cap ch) true]> (send st)).
Proof.
  intros Hfull. unfold delivered. case_decide; [| done].
  by apply full_not_room in Hfull.
Qed.

(** A client with room in its mailbox gets the payload at the tail of the
    mailbox, once, and stays registered. *)
Lemma broadcast_enqueues m order st c ch :
  live_open st → order ≡ₚ range_keys (clients st) →
  is_Some (clients st !! c) → send st !! c = Some ch → ¬ Chan.full ch →
  ∃ st', broadcast_loop m order st = Some st' ∧
         clients st' !! c = clients st !! c ∧
         send st' !! c = Some (Chan.mk (Chan.buf ch ++ [m]) (Chan.cap ch) false).
Proof.
  intros Hlive Hperm Hc Hch Hroom.
  destruct (broadcast_pointwise m order st Hlive Hperm) as (st' & Hrun & Hpt).
  exists st'. split; [done |].
  destruct (Hpt c) as [_ Hsome]. destruct (Hsome ch Hc Hch) as [-> ->].
  rewrite (delivered_room _ _ _ _ Hroom). simpl. by rewrite lookup_insert_eq.
Qed.

(** A client with a full mailbox is closed and removed. *)
Lemma broadcast_tears_down m order st c ch :
  live_open st → order ≡ₚ range_keys (clients st) →
  is_Some (clients st !! c) → send st !! c = Some ch → Chan.full ch →
  ∃ st', broadcast_loop m order st = Some st' ∧
         clients st' !! c = None ∧
         send st' !! c = Some (Chan.mk (Chan.buf ch) (Chan.cap ch) true).
Proof.
  intros Hlive Hperm Hc Hch Hfull.
  destruct (broadcast_pointwise m order st Hlive Hperm) as (st' & Hrun & Hpt).
  exists st'. split; [done |].
  destruct (Hpt c) as [_ Hsome]. destruct (Hsome ch Hc Hch) as [-> ->].
  rewrite (delivered_full _ _ _ _ Hfull). simpl.
  by rewrite lookup_insert_eq, lookup_delete_eq.
Qed.

(** The hub without the client [c]. *)
Lemma live_open_without c st :
  live_open st → live_open (mkMachine (delete c (clients st)) (send st)).
Proof.
  intros Hlive c' Hc'. simpl in *. apply Hlive.
  destruct (decide (c' = c)) as [-> | Hne].
  - rewrite lookup_delete_eq in Hc'. by destruct Hc'.
  - by rewrite lookup_delete_ne in Hc'.
Qed.

(** C2: in a broadcast, a client whose mailbox is full has its mailbox
    closed and is removed from the hub's map in that same step, which
    returns (the send is a select with a default, for any order of the
    range loop); every other registered client with room in its mailbox
    gets the payload and stays registered, and more generally every other
    client comes out of the step exactly as it would from the same
    broadcast over the hub without the full client. *)
Theorem broadcast_overflow_isolated m order st c ch :
  live_open st → order ≡ₚ range_keys (clients st) →
  is_Some (clients st !! c) → send st !! c = Some ch → Chan.full ch →
  ∃ st', broadcast_loop m order st = Some st' ∧
    clients st' !! c = None ∧
    send st' !! c = Some (Chan.mk (Chan.buf ch) (Chan.cap ch) true) ∧
    (∀ c' ch', c' ≠ c → is_Some (clients st !! c') →
       send st !! c' = Some ch' → ¬ Chan.full ch' →
       clients st' !! c' = clients st !! c' ∧
       send st' !! c' = Some (Chan.mk (Chan.buf ch' ++ [m]) (Chan.cap ch') false)) ∧
    ∃ st'', on_broadcast m (mkMachine (delete c (clients st)) (send st)) = Some st'' ∧
      ∀ c', c' ≠ c →
        clients st' !! c' = clients st'' !! c' ∧ send st' !! c' = send st'' !! c'.
Proof.
  intros Hlive Hperm Hc Hch Hfull.
  destruct (broadcast_tears_down m order st c ch) as (st' & Hrun & Hgone & Hclosed);
    [done.. |].
  exists st'. split_and!; [done.. | |].
  - intros c' ch' Hne Hc' Hch' Hroom.
    destruct (broadcast_enqueues m order st c' ch') as (st1 & Hrun1 & ? & ?); [done.. |].
    by assert (st1 = st') as -> by congruence.
  - pose proof (live_open_without c st Hlive) as Hlive'.
    destruct (broadcast_pointwise m
                (range_keys (delete c (clients st)))
                (mkMachine (delete c (clients st)) (send st)) Hlive')
      as (st'' & Hrun'' & Hpt''); [done |].
    exists st''. split; [done |]. intros c' Hne.
    destruct (broadcast_pointwise m order st Hlive Hperm) as (st1 & Hrun1 & Hpt).
    assert (st1 = st') as -> by congruence.
    destruct (Hpt c') as [Hnone Hsome], (Hpt'' c') as [Hnone'' Hsome''].
    simpl in Hnone'', Hsome''. rewrite lookup_delete_ne in Hnone'', Hsome'' by done.
    destruct (clients st !! c') as [b|] eqn:Hcl.
    + destruct (Hlive c') as (ch' & Hch' & _); [by rewrite Hcl |].
      destruct (Hsome ch') as [-> ->]; [done.. |].
      destruct (Hsome'' ch') as [-> ->]; [done.. |].
      unfold delivered. case_decide; simpl;
        rewrite ?lookup_insert_eq, ?lookup_delete_eq, ?lookup_delete_ne by done; done.
    + destruct Hnone as [-> ->]; [done |]. by destruct Hnone'' as [-> ->].
Qed.

(** C2 at a hub with a full client ([1]) and a healthy one ([2]), the
    loop visiting [1] first. *)
Lemma broadcast_overflow_isolated_witness :
  ∃ st', broadcast_loop [x01] [1; 2]%positive mixed_hub = Some st' ∧
    clients st' !! 1%positive = None ∧
    send st' !! 1%positive = Some (Chan.mk (replicate 256 [x00]) 256 true) ∧
    (∀ c' ch', c' ≠ 1%positive → is_Some (clients mixed_hub !! c') →
       send mixed_hub !! c' = Some ch' → ¬ Chan.full ch' →
       clients st' !! c' = clients mixed_hub !! c' ∧
       send st' !! c' = Some (Chan.mk (Chan.buf ch' ++ [[x01]]) (Chan.cap ch') false)) ∧
    ∃ st'', on_broadcast [x01]
              (mkMachine (delete 1%positive (clients mixed_hub)) (send mixed_hub))
            = Some st'' ∧
      ∀ c', c' ≠ 1%positive →
        clients st' !! c' = clients st'' !! c' ∧ send st' !! c' = send st'' !! c'.
Proof.
  apply (broadcast_overflow_isolated [x01] [1; 2]%positive mixed_hub 1%positive
           (Chan.mk (replicate 256 [x00]) 256 false)).
  - apply (bool_decide_unpack _). by vm_compute.
  - vm_compute. apply perm_swap.
  - by exists true.
  - reflexivity.
  - apply (bool_decide_unpack _). by vm_compute.
Defined.

(** ** The stream of one mailbox *)

(** One step of the program, seen from an allocated client: as long as
    the client is registered after the step, it was registered before,
    and what its pump took in the step followed by its mailbox is its old
    mailbox followed by what was forwarded in the step. *)
Lemma sys_step_stream st a st1 c ch :
  live_open st → sys_step st a = Some st1 → send st !! c = Some ch →
  ∃ ch1, send st1 !! c = Some ch1 ∧
    (is_Some (clients st1 !! c) →
     is_Some (clients st !! c) ∧
     taken c st a ++ Chan.buf ch1 = Chan.buf ch ++ forwarded [a]).
Proof.
  intros Hlive Hstep Hch. destruct a as [[] | m | c0 | c0]; cbn [sys_step hub_step] in Hstep.
  - destruct (serveWs_accept st) as [Heq Hfresh]. rewrite Heq in Hstep.
    injection Hstep as <-. simpl.
    assert (fresh (dom (send st)) ≠ c) as Hne by congruence.
    rewrite !lookup_insert_ne by done. exists ch. split; [done |].
    intros Hc. split; [done |]. by rewrite app_nil_r.
  - injection Hstep as <-. exists ch. split; [done |].
    intros Hc. split; [done |]. simpl. by rewrite app_nil_r.
  - destruct (broadcast_pointwise m (range_keys (clients st)) st Hlive)
      as (st' & Hrun & Hpt); [done |].
    unfold on_broadcast in Hstep. assert (st' = st1) as -> by congruence.
    destruct (Hpt c) as [Hnone Hsome].
    destruct (clients st !! c) as [b|] eqn:Hcl.
    + destruct (Hsome ch) as [Hs Hc]; [done.. |]. rewrite Hs, Hc.
      destruct (delivered_self m c ch st) as [-> ->]. eexists. split; [done |].
      case_decide; simpl; [| by intros [? ?]].
      intros _. split; [by exists b | done].
    + destruct Hnone as [-> ->]; [done |]. exists ch. split; [done |].
      by intros [? ?].
  - unfold on_unregister in Hstep. destruct (clients st !! c0) as [b|] eqn:Hcl.
    + destruct (Hlive c0) as (ch0 & Hch0 & Hopen0); [by rewrite Hcl |].
      rewrite Hch0 in Hstep. simpl in Hstep.
      rewrite (close_open _ Hopen0) in Hstep. simpl in Hstep.
      injection Hstep as <-. simpl.
      destruct (decide (c = c0)) as [-> | Hne].
      * rewrite lookup_insert_eq, lookup_delete_eq. eexists. split; [done |].
        by intros [? ?].
      * rewrite lookup_insert_ne, lookup_delete_ne by done.
        exists ch. split; [done |]. intros Hc. split; [done |].
        by rewrite app_nil_r.
    + injection Hstep as <-. exists ch. split; [done |].
      intros Hc. split; [done |]. simpl. by rewrite app_nil_r.
  - injection Hstep as <-. rewrite take_clients. unfold take, taken.
    destruct (decide (c0 = c)) as [-> | Hne].
    + rewrite Hch. destruct (Chan.recv ch) as [m ch' | |] eqn:Hrecv.
      * apply recv_received in Hrecv as (Hbuf & _ & _). simpl.
        rewrite lookup_insert_eq. exists ch'. split; [done |].
        intros Hc. split; [done |]. by rewrite Hbuf, app_nil_r.
      * exists ch. split; [done |]. intros Hc. split; [done |].
        simpl. by rewrite app_nil_r.
      * exists ch. split; [done |]. intros Hc. split; [done |].
        simpl. by rewrite app_nil_r.
    + assert (∃ ch1, send match send st !! c0 with
                          | Some ch0 =>
                              match Chan.recv ch0 with
                              | Chan.Received _ ch' =>
                                  mkMachine (clients st) (<[c0 := ch']> (send st))
                              | _ => st
                              end
                          | None => st
                          end !! c = Some ch1 ∧ ch1 = ch) as (ch1 & -> & ->).
      { destruct (send st !! c0) as [ch0|]; [| by exists ch].
        destruct (Chan.recv ch0); [| by exists ch ..].
        simpl. rewrite lookup_insert_ne by done. by exists ch. }
      exists ch. split; [done |]. intros Hc. split; [done |].
      simpl. by rewrite app_nil_r.
Qed.

Lemma forwarded_cons a acts : forwarded (a :: acts) = forwarded [a] ++ forwarded acts.
Proof. unfold forwarded. simpl. by destruct a. Qed.

(** Along any run of the program, a client that is still registered at
    the end has been so all along, and the payloads its write pump has
    taken, followed by those still in its mailbox, are the payloads that
    were in its mailbox at the start followed by every payload the hub
    broadcast, each once and in the order of the broadcasts. *)
Lemma mailbox_stream acts : ∀ st st' c ch ch',
  live_open st → bounded st →
  sys_run st acts = Some st' →
  send st !! c = Some ch → send st' !! c = Some ch' →
  is_Some (clients st' !! c) →
  is_Some (clients st !! c) ∧
  received c st acts ++ Chan.buf ch' = Chan.buf ch ++ forwarded acts.
Proof.
  induction acts as [|a acts IH]; intros st st' c ch ch' Hlive Hb Hrun Hch Hch' Hc.
  - simpl in *. injection Hrun as <-. split; [done |].
    assert (ch' = ch) as -> by congruence. unfold forwarded. simpl.
    by rewrite app_nil_r.
  - simpl in Hrun. destruct (sys_step_inv st a Hlive Hb) as (st1 & Hstep & Hlive1 & Hb1).
    rewrite Hstep in Hrun. simpl in Hrun.
    destruct (sys_step_stream st a st1 c ch Hlive Hstep Hch) as (ch1 & Hch1 & Hone).
    destruct (IH st1 st' c ch1 ch' Hlive1 Hb1 Hrun Hch1 Hch' Hc) as [Hc1 Hrest].
    destruct (Hone Hc1) as [Hc0 Hfirst]. split; [done |].
    cbn [received]. rewrite Hstep, forwarded_cons, <- app_assoc, Hrest.
    by rewrite !app_assoc, Hfirst.
Qed.

Lemma readPump_forwards c data :
  (Z.of_nat (length data) ≤ 512)%Z →
  readPump c [DataFrame data] =
    ([Conn (SetReadLimit 512); Conn (SetReadDeadline 60); Conn SetPongHandler;
      ToHub (Broadcast data)], Parked).
Proof.
  intros Hlen. unfold readPump, readPump_loop, ReadMessage.
  case_decide; [lia | done].
Qed.

(** C1, amended: a read pump hands a message within the read limit to the
    hub as a broadcast that names no sender; when the hub processes a
    broadcast of [m], every client in its map whose mailbox is not full --
    the originator like any other -- gets [m] appended to its mailbox
    exactly once and stays registered, whatever the order of the range
    loop; and along any run, for a client still registered at the end,
    the payloads its pump received followed by those still queued are its
    initial mailbox followed by all broadcast payloads in the order the
    hub processed them. *)
Theorem broadcast_fanout_in_order :
  (∀ c0 data, (Z.of_nat (length data) ≤ 512)%Z →
     readPump c0 [DataFrame data] =
       ([Conn (SetReadLimit 512); Conn (SetReadDeadline 60); Conn SetPongHandler;
         ToHub (Broadcast data)], Parked)) ∧
  (∀ m order st c ch,
     live_open st → order ≡ₚ range_keys (clients st) →
     is_Some (clients st !! c) → send st !! c = Some ch → ¬ Chan.full ch →
     ∃ st', broadcast_loop m order st = Some st' ∧
            clients st' !! c = clients st !! c ∧
            send st' !! c = Some (Chan.mk (Chan.buf ch ++ [m]) (Chan.cap ch) false)) ∧
  (∀ acts st st' c ch ch',
     live_open st → bounded st →
     sys_run st acts = Some st' →
     send st !! c = Some ch → send st' !! c = Some ch' →
     is_Some (clients st' !! c) →
     is_Some (clients st !! c) ∧
     received c st acts ++ Chan.buf ch' = Chan.buf ch ++ forwarded acts).
Proof.
  split_and!.
  - apply readPump_forwards.
  - apply broadcast_enqueues.
  - intros acts. apply mailbox_stream.
Qed.

(** C1 on a hub with a healthy client ([2]) beside a slow one, and on a
    run of three broadcasts with one receive in between. *)
Lemma broadcast_fanout_in_order_witness :
  (∃ st', broadcast_loop [x01] [1; 2]%positive mixed_hub = Some st' ∧
          clients st' !! 2%positive = clients mixed_hub !! 2%positive ∧
          send st' !! 2%positive = Some (Chan.mk [[x00]; [x01]] 256 false)) ∧
  (is_Some (clients one_client !! 1%positive) ∧
   received 1%positive one_client
     [Forwards [x01]; Forwards [x02]; Takes 1%positive; Forwards [x03]]
     ++ [[x02]; [x03]]
   = [] ++ forwarded [Forwards [x01]; Forwards [x02]; Takes 1%positive; Forwards [x03]]).
Proof.
  split.
  - apply (proj1 (proj2 broadcast_fanout_in_order) [x01] [1; 2]%positive mixed_hub
             2%positive (Chan.mk [[x00]] 256 false)).
    + apply (bool_decide_unpack _). by vm_compute.
    + vm_compute. apply perm_swap.
    + by exists true.
    + reflexivity.
    + apply (bool_decide_unpack _). by vm_compute.
  - apply (proj2 (proj2 broadcast_fanout_in_order)
             [Forwards [x01]; Forwards [x02]; Takes 1%positive; Forwards [x03]]
             one_client
             (mkMachine {[ 1%positive := true ]}
                        {[ 1%positive := Chan.mk [[x02]; [x03]] 256 false ]})
             1%positive (Chan.make 256) (Chan.mk [[x02]; [x03]] 256 false)).
    + apply (bool_decide_unpack _). by vm_compute.
    + apply (bool_decide_unpack _). by vm_compute.
    + by vm_compute.
    + reflexivity.
    + reflexivity.
    + by exists true.
Defined.

(** C1 as stated fails at a registered client whose mailbox is full: the
    hub reached by one accepted connection and 256 broadcasts that its
    write pump never took has client [1] registered; the next broadcast,
    of [x01], leaves the mailbox of [1] as it was, closed, with no copy
    of [x01] in it, and drops [1] from the map. *)
Lemma broadcast_fanout_counterexample :
  sys_run newHub (Accepts true :: replicate 256 (Forwards [x00])) = Some slow_hub ∧
  is_Some (clients slow_hub !! 1%positive) ∧
  hub_step slow_hub (Broadcast [x01]) =
    Some (mkMachine ∅ {[ 1%positive := Chan.mk (replicate 256 [x00]) 256 true ]}) ∧
  [x01] ∉ replicate 256 [x00].
Proof.
  split_and!.
  - by vm_compute.
  - by exists true.
  - by vm_compute.
  - intros [Heq _]%elem_of_replicate. discriminate Heq.
Qed.

(** ** Unregister *)

Lemma sys_step_closed c st a st' :
  live_open st → sys_step st a = Some st' →
  is_closed c st = true → is_closed c st' = true.
Proof.
  unfold is_closed. intros Hlive Hstep Hcl.
  destruct (send st !! c) as [ch|] eqn:Hch; [| done].
  destruct (sys_step_stream st a st' c ch Hlive Hstep Hch) as (ch' & Hch' & Hact).
  rewrite Hch'.
  destruct a as [[] | m | c0 | c0]; cbn [sys_step hub_step] in Hstep.
  - destruct (serveWs_accept st) as [Heq Hfresh]. rewrite Heq in Hstep.
    injection Hstep as <-. simpl in Hch'.
    rewrite lookup_insert_ne in Hch' by congruence. congruence.
  - simpl in Hstep. congruence.
  - destruct (broadcast_pointwise m (range_keys (clients st)) st Hlive)
      as (st1 & Hrun & Hpt); [done |].
    unfold on_broadcast in Hstep. assert (st1 = st') as -> by congruence.
    destruct (Hpt c) as [Hnone _].
    destruct (clients st !! c) as [b|] eqn:Hc.
    + destruct (Hlive c) as (ch0 & Hch0 & Hopen0); [by rewrite Hc |]. congruence.
    + destruct Hnone as [_ Hs]; [done |]. congruence.
  - unfold on_unregister in Hstep. destruct (clients st !! c0) as [b|] eqn:Hc0.
    + destruct (Hlive c0) as (ch0 & Hch0 & Hopen0); [by rewrite Hc0 |].
      rewrite Hch0 in Hstep. simpl in Hstep.
      rewrite (close_open _ Hopen0) in Hstep. injection Hstep as <-.
      simpl in Hch'. destruct (decide (c = c0)) as [-> | Hne].
      * rewrite lookup_insert_eq in Hch'. by injection Hch' as <-.
      * rewrite lookup_insert_ne in Hch' by done. congruence.
    + congruence.
  - injection Hstep as <-. unfold take in Hch'.
    destruct (send st !! c0) as [ch0|] eqn:Hch0; [| congruence].
    destruct (Chan.recv ch0) as [m ch1 | |] eqn:Hrecv; [| congruence..].
    apply recv_received in Hrecv as (_ & _ & Hcl1). simpl in Hch'.
    destruct (decide (c = c0)) as [-> | Hne].
    + rewrite lookup_insert_eq in Hch'. congruence.
    + rewrite lookup_insert_ne in Hch' by done. congruence.
Qed.

Lemma closings_closed c acts : ∀ st,
  live_open st → bounded st → is_closed c st = true → closings c st acts = 0.
Proof.
  induction acts as [|a acts IH]; intros st Hlive Hb Hcl; simpl; [done |].
  destruct (sys_step_inv st a Hlive Hb) as (st1 & Hstep & Hlive1 & Hb1).
  rewrite Hstep, Hcl. simpl. apply IH; [done.. |].
  by apply (sys_step_closed c st a).
Qed.

Lemma closings_once c acts : ∀ st,
  live_open st → bounded st → closings c st acts ≤ 1.
Proof.
  induction acts as [|a acts IH]; intros st Hlive Hb; simpl; [lia |].
  destruct (sys_step_inv st a Hlive Hb) as (st1 & Hstep & Hlive1 & Hb1).
  rewrite Hstep.
  destruct (is_closed c st1) eqn:Hcl1.
  - rewrite (closings_closed c acts st1) by done.
    destruct (negb (is_closed c st)); simpl; lia.
  - rewrite andb_false_r. simpl. by apply IH.
Qed.

(** C3: processing [unregister(c)] for a registered client removes it
    from the map and closes its mailbox; for a client that is not in the
    map it changes nothing; so a second unregister, or an unregister
    after a broadcast has torn the client down for overflow, returns
    with the state untouched (a second [close] would have panicked), and
    along any run of the program every step returns and the mailbox of
    a client is closed at most once. *)
Theorem unregister_idempotent st c :
  live_open st → bounded st →
  (∀ ch, is_Some (clients st !! c) → send st !! c = Some ch →
     hub_step st (Unregister c) =
       Some (mkMachine (delete c (clients st))
                       (<[c := Chan.mk (Chan.buf ch) (Chan.cap ch) true]> (send st)))) ∧
  (clients st !! c = None → hub_step st (Unregister c) = Some st) ∧
  (∃ st1, hub_step st (Unregister c) = Some st1 ∧
          clients st1 !! c = None ∧
          run st [Unregister c; Unregister c] = Some st1) ∧
  (∀ m order ch,
     order ≡ₚ range_keys (clients st) →
     is_Some (clients st !! c) → send st !! c = Some ch → Chan.full ch →
     ∃ st1, broadcast_loop m order st = Some st1 ∧
            is_closed c st1 = true ∧
            hub_step st1 (Unregister c) = Some st1) ∧
  (∀ acts, is_Some (sys_run st acts) ∧ closings c st acts ≤ 1).
Proof.
  intros Hlive Hb. split_and!.
  - intros ch Hc Hch. destruct (Hlive c Hc) as (ch0 & Hch0 & Hopen).
    assert (ch0 = ch) as -> by congruence.
    by apply on_unregister_present.
  - apply on_unregister_absent.
  - destruct (unregister_inv c st Hlive Hb) as (st1 & Hstep & _ & _ & Hgone).
    exists st1. split_and!; [done.. |].
    cbn [run hub_step]. rewrite Hstep. simpl. by rewrite on_unregister_absent.
  - intros m order ch Hperm Hc Hch Hfull.
    destruct (broadcast_tears_down m order st c ch) as (st1 & Hrun & Hgone & Hclosed);
      [done.. |].
    exists st1. split_and!; [done | |].
    + unfold is_closed. by rewrite Hclosed.
    + by apply on_unregister_absent.
  - intros acts. split.
    + destruct (sys_run_inv acts st Hlive Hb) as (st' & -> & _). by exists st'.
    + by apply closings_once.
Qed.

(** C3 at the hub with one slow client: two unregisters of that client
    in a row. *)
Lemma unregister_idempotent_witness :
  ∃ st1, hub_step slow_hub (Unregister 1%positive) = Some st1 ∧
         clients st1 !! 1%positive = None ∧
         run slow_hub [Unregister 1%positive; Unregister 1%positive] = Some st1.
Proof.
  apply (unregister_idempotent slow_hub 1%positive).
  - apply (bool_decide_unpack _). by vm_compute.
  - apply (bool_decide_unpack _). by vm_compute.
Defined.

(** ** Membership *)

(** One step: a client is in the map afterwards exactly if the step
    registered it, or it was there and the step did not remove it. *)
Lemma sys_step_member c st a st' :
  live_open st → sys_step st a = Some st' →
  is_Some (clients st' !! c) ↔
  registers c st a = true ∨ (is_Some (clients st !! c) ∧ removes c st a = false).
Proof.
  intros Hlive Hstep.
  destruct a as [[] | m | c0 | c0]; cbn [sys_step hub_step registers removes] in *.
  - destruct (serveWs_accept st) as [Heq _]. rewrite Heq in Hstep.
    injection Hstep as <-. simpl. rewrite bool_decide_eq_true.
    destruct (decide (fresh (dom (send st)) = c)) as [-> | Hne].
    + rewrite lookup_insert_eq. split; [by left | by eexists].
    + rewrite lookup_insert_ne by done. tauto.
  - simpl in Hstep. injection Hstep as <-. split; [auto | intros [? | [? _]]; done].
  - destruct (broadcast_pointwise m (range_keys (clients st)) st Hlive)
      as (st1 & Hrun & Hpt); [done |].
    unfold on_broadcast in Hstep. assert (st1 = st') as -> by congruence.
    destruct (Hpt c) as [Hnone Hsome].
    destruct (clients st !! c) as [b|] eqn:Hc.
    + destruct (Hlive c) as (ch & Hch & Hopen); [by rewrite Hc |].
      destruct (Hsome ch) as [_ ->]; [done.. |]. rewrite Hch.
      destruct (delivered_self m c ch st) as [_ ->].
      rewrite bool_decide_eq_false, full_not_room, Hc.
      case_decide; split.
      * intros _. right. split; [done |]. by intros Hn; apply Hn.
      * by intros _.
      * by intros [? ?].
      * intros [? | [_ Hn]]; [done |]. by destruct Hn.
    + destruct Hnone as [-> _]; [done |]. split.
      * by intros [? ?].
      * intros [? | [[? ?] _]]; done.
  - rewrite bool_decide_eq_false.
    unfold on_unregister in Hstep. destruct (clients st !! c0) as [b|] eqn:Hc0.
    + destruct (Hlive c0) as (ch0 & Hch0 & Hopen0); [by rewrite Hc0 |].
      rewrite Hch0 in Hstep. simpl in Hstep.
      rewrite (close_open _ Hopen0) in Hstep. injection Hstep as <-. simpl.
      destruct (decide (c0 = c)) as [-> | Hne].
      * rewrite lookup_delete_eq. split; [by intros [? ?] |].
        intros [? | [_ Hn]]; done.
      * rewrite lookup_delete_ne by done. split; [auto | intros [? | [? _]]; done].
    + injection Hstep as <-. split.
      * intros Hc. right. split; [done |]. intros ->. rewrite Hc0 in Hc.
        by destruct Hc.
      * intros [? | [? _]]; done.
  - injection Hstep as <-. rewrite take_clients.
    split; [auto | intros [? | [? _]]; done].
Qed.

Lemma registered_since_cons c st a st1 acts :
  sys_step st a = Some st1 →
  registered_since c st (a :: acts) ↔
  (registers c st a = true ∧ kept c st1 acts) ∨ registered_since c st1 acts.
Proof.
  intros Hstep. split.
  - intros (pre & a0 & post & s1 & s2 & Heq & Hpre & Hreg & Hs & Hkept).
    destruct pre as [|a' pre]; simpl in *.
    + injection Heq as <- <-. injection Hpre as <-. left.
      split; [done |]. by assert (s2 = st1) as -> by congruence.
    + injection Heq as <- ->. rewrite Hstep in Hpre. simpl in Hpre.
      right. by exists pre, a0, post, s1, s2.
  - intros [[Hreg Hkept] | (pre & a0 & post & s1 & s2 & -> & Hpre & Hreg & Hs & Hkept)].
    + by exists [], a, acts, st, st1.
    + exists (a :: pre), a0, post, s1, s2. split_and!; [done | | done..].
      simpl. by rewrite Hstep.
Qed.

Lemma sys_run_member c acts : ∀ st st',
  live_open st → bounded st → sys_run st acts = Some st' →
  is_Some (clients st' !! c) ↔
  (is_Some (clients st !! c) ∧ kept c st acts) ∨ registered_since c st acts.
Proof.
  induction acts as [|a acts IH]; intros st st' Hlive Hb Hrun.
  - simpl in Hrun. injection Hrun as <-. simpl. split; [auto |].
    intros [[? _] | (pre & a0 & post & s1 & s2 & Heq & _)]; [done |].
    by destruct pre.
  - simpl in Hrun. destruct (sys_step_inv st a Hlive Hb) as (st1 & Hstep & Hlive1 & Hb1).
    rewrite Hstep in Hrun. simpl in Hrun.
    rewrite (IH st1 st' Hlive1 Hb1 Hrun).
    rewrite (registered_since_cons c st a st1 acts Hstep).
    rewrite (sys_step_member c st a st1 Hlive Hstep).
    simpl. rewrite Hstep. tauto.
Qed.

(** C6: from the new hub every run of the program returns, and in the
    state it reaches a client is in the hub's map exactly if a register
    event for it was processed and no removal of it (an unregister, or a
    broadcast that found its mailbox full) was processed since; and a
    step of the program that changes the map is a turn of the hub's loop
    ([hub_step]) on a state with that same map: the receive of a write
    pump, the only step outside the hub, leaves the map alone. *)
Theorem registry_membership :
  (∀ acts c, ∃ st,
     sys_run newHub acts = Some st ∧
     (is_Some (clients st !! c) ↔ registered_since c newHub acts)) ∧
  (∀ st a st', sys_step st a = Some st' →
     clients st' = clients st ∨
     ∃ st0 ev, clients st0 = clients st ∧ hub_step st0 ev = Some st') ∧
  (∀ c st, clients (take c st) = clients st).
Proof.
  split_and!.
  - intros acts c. destruct newHub_inv as [Hlive Hb].
    destruct (sys_run_inv acts newHub Hlive Hb) as (st & Hrun & _).
    exists st. split; [done |].
    rewrite (sys_run_member c acts newHub st Hlive Hb Hrun). split.
    + intros [[[b Hc] _] | ?]; [| done]. simpl in Hc. by rewrite lookup_empty in Hc.
    + by right.
  - intros st a st' Hstep. destruct a as [[] | m | c | c]; cbn [sys_step] in Hstep.
    + right. unfold serveWs in Hstep. eexists _, _. split; [| exact Hstep]. done.
    + left. simpl in Hstep. by injection Hstep as <-.
    + right. by exists st, (Broadcast m).
    + right. by exists st, (Unregister c).
    + left. injection Hstep as <-. apply take_clients.
  - apply take_clients.
Qed.

(** C6 on a run in which the first client is registered, overflows
    nothing, and leaves, and a second client is registered after it. *)
Lemma registry_membership_witness :
  ∃ st,
    sys_run newHub [Accepts true; Forwards [x01]; Leaves 1%positive; Accepts true]
      = Some st ∧
    (is_Some (clients st !! 2%positive) ↔
     registered_since 2%positive newHub
       [Accepts true; Forwards [x01]; Leaves 1%positive; Accepts true]).
Proof.
  apply (proj1 registry_membership
           [Accepts true; Forwards [x01]; Leaves 1%positive; Accepts true]
           2%positive).
Defined.

(** ** The read pump *)

Lemma readPump_loop_app limit pre : ∀ rest effs,
  readPump_loop limit pre = (effs, Parked) →
  readPump_loop limit (pre ++ rest) =
    (let '(more, s) := readPump_loop limit rest in (effs ++ more, s)).
Proof.
  induction pre as [|i pre IH]; intros rest effs Hpre; simpl in *.
  - injection Hpre as <-. by destruct (readPump_loop limit rest).
  - destruct i as [data | | err]; [| | done].
    + destruct (ReadMessage limit data) as [message | err]; [| done].
      destruct (readPump_loop limit pre) as [effs0 s0] eqn:Hloop.
      injection Hpre as <- ->. rewrite (IH rest effs0 eq_refl).
      by destruct (readPump_loop limit rest).
    + destruct (readPump_loop limit pre) as [effs0 s0] eqn:Hloop.
      injection Hpre as <- ->. rewrite (IH rest effs0 eq_refl).
      by destruct (readPump_loop limit rest).
Qed.

Lemma log_read_error_quiet err e : e ∈ log_read_error err → e = LogPrintf.
Proof.
  unfold log_read_error. destruct (IsUnexpectedCloseError _ _).
  - by intros ->%list_elem_of_singleton.
  - by intros ?%elem_of_nil.
Qed.

(** Whatever the loop hands to the hub passed [ReadMessage]. *)
Lemma readPump_loop_forwarded limit inbound : ∀ effs s m,
  readPump_loop limit inbound = (effs, s) →
  ToHub (Broadcast m) ∈ effs →
  ReadMessage limit m = inl m ∧ DataFrame m ∈ inbound.
Proof.
  induction inbound as [|i inbound IH]; intros effs s m Hloop Hin; simpl in Hloop.
  - injection Hloop as <- _. by apply elem_of_nil in Hin.
  - destruct i as [data | | err].
    + destruct (ReadMessage limit data) as [message | err] eqn:Hread.
      * destruct (readPump_loop limit inbound) as [effs0 s0] eqn:Hloop0.
        injection Hloop as <- _. apply elem_of_cons in Hin as [Heq | Hin].
        -- injection Heq as ->. unfold ReadMessage in Hread.
           case_decide; [done |]. injection Hread as ->.
           split; [| left]. unfold ReadMessage. by case_decide.
        -- destruct (IH _ _ _ eq_refl Hin) as [? ?]. split; [done | by right].
      * injection Hloop as <- _. by apply log_read_error_quiet in Hin.
    + destruct (readPump_loop limit inbound) as [effs0 s0] eqn:Hloop0.
      injection Hloop as <- _. apply elem_of_cons in Hin as [Heq | Hin]; [done |].
      destruct (IH _ _ _ eq_refl Hin) as [? ?]. split; [done | by right].
    + injection Hloop as <- _. by apply log_read_error_quiet in Hin.
Qed.

(** C5: [readPump] sets the read limit to 512 bytes; nothing it hands to
    the hub's broadcast channel is longer than that; and when it is still
    reading and the peer sends a payload of more than 512 bytes, the read
    fails, nothing is logged or broadcast for that payload, and the pump
    returns through its deferred function: it sends its client on the
    hub's unregister channel, which takes the client out of the map, and
    closes the connection. *)
Theorem read_limit_enforced :
  (∀ c inbound, ∃ body s,
     readPump c inbound = (Conn (SetReadLimit 512) :: body, s)) ∧
  (∀ c inbound effs s m,
     readPump c inbound = (effs, s) → ToHub (Broadcast m) ∈ effs →
     (Z.of_nat (length m) ≤ 512)%Z ∧ DataFrame m ∈ inbound) ∧
  (∀ c pre data rest effs,
     (512 < Z.of_nat (length data))%Z →
     readPump c pre = (effs, Parked) →
     ReadMessage 512 data = inr ErrReadLimit ∧
     readPump c (pre ++ DataFrame data :: rest) =
       (effs ++ [ToHub (Unregister c); Conn ConnClose], Returned)) ∧
  (∀ c st, live_open st → bounded st →
     ∃ st', hub_step st (Unregister c) = Some st' ∧ clients st' !! c = None).
Proof.
  split_and!.
  - intros c inbound. unfold readPump.
    destruct (readPump_loop 512 inbound) as [body s]. by eexists _, _.
  - intros c inbound effs s m Hpump Hin. unfold readPump in Hpump.
    destruct (readPump_loop 512 inbound) as [body s0] eqn:Hloop.
    injection Hpump as <- <-.
    assert (ToHub (Broadcast m) ∈ body) as Hbody.
    { rewrite !elem_of_cons, elem_of_app in Hin.
      destruct Hin as [? | [? | [? | [Hin | Hin]]]]; try done.
      destruct s0; [by apply elem_of_nil in Hin | | by apply elem_of_nil in Hin].
      rewrite !elem_of_cons in Hin. destruct Hin as [? | [? | Hin]]; try done.
      by apply elem_of_nil in Hin. }
    destruct (readPump_loop_forwarded _ _ _ _ _ Hloop Hbody) as [Hread Hfrom].
    split; [| done]. unfold ReadMessage in Hread. case_decide; [done | lia].
  - intros c pre data rest effs Hlong Hpre.
    assert (ReadMessage 512 data = inr ErrReadLimit) as Hread.
    { unfold ReadMessage. case_decide; [done | lia]. }
    split; [done |]. unfold readPump in *.
    destruct (readPump_loop 512 pre) as [body s0] eqn:Hloop.
    injection Hpre as <- ->.
    rewrite (readPump_loop_app 512 pre _ body Hloop). simpl. rewrite Hread.
    done.
  - intros c st Hlive Hb.
    destruct (unregister_inv c st Hlive Hb) as (st' & ? & _ & _ & ?). by exists st'.
Qed.

(** C5 on a client that sends a short message and then one of 513
    bytes. *)
Lemma read_limit_enforced_witness :
  ReadMessage 512 (replicate 513 x00) = inr ErrReadLimit ∧
  readPump 1%positive ([DataFrame [x01]] ++ DataFrame (replicate 513 x00) :: []) =
    ([Conn (SetReadLimit 512); Conn (SetReadDeadline 60); Conn SetPongHandler;
      ToHub (Broadcast [x01])]
     ++ [ToHub (Unregister 1%positive); Conn ConnClose], Returned).
Proof.
  apply (proj1 (proj2 (proj2 read_limit_enforced)) 1%positive
           [DataFrame [x01]] (replicate 513 x00) []).
  - rewrite length_replicate. lia.
  - reflexivity.
Defined.

(** ** serveHome *)

(** C9: [serveHome] answers a request whose path is not the root with
    404 whatever its method, a request for the root with a method other
    than GET with 405, and a GET for the root with the page as
    [text/html]; the path is looked at first. *)
Theorem serveHome_responses r :
  (url_path r ≠ "/" →
     serveHome r = HttpError "Страница не найдена" 404) ∧
  (url_path r = "/" → method r ≠ "GET" →
     serveHome r = HttpError "Метод не поддерживается" 405) ∧
  (url_path r = "/" → method r = "GET" →
     serveHome r = HomePage "text/html; charset=utf-8" (host r)).
Proof.
  unfold serveHome, MethodGet, StatusNotFound, StatusMethodNotAllowed.
  split_and!.
  - intros Hpath. by case_decide.
  - intros Hpath Hmeth. case_decide; [done |]. by case_decide.
  - intros Hpath Hmeth. case_decide; [done |]. by case_decide.
Qed.

(** C9 on a POST to a path that is not the root: not found, not
    method-not-allowed. *)
Lemma serveHome_responses_witness :
  serveHome (mkRequest "/ws2" "POST" "localhost:8080")
  = HttpError "Страница не найдена" 404.
Proof.
  apply (proj1 (serveHome_responses (mkRequest "/ws2" "POST" "localhost:8080"))).
  simpl. discriminate.
Defined.

(** ** The write pump *)

Lemma recv_closed ch :
  Chan.recv ch = Chan.RecvClosed ↔ Chan.buf ch = [] ∧ Chan.closed ch = true.
Proof.
  unfold Chan.recv. destruct (Chan.buf ch), (Chan.closed ch); split; try done.
  all: by intros [? ?].
Qed.

Lemma writePump_loop_app sched : ∀ more ch effs ch1,
  writePump_loop sched ch = (effs, ch1, Parked) →
  writePump_loop (sched ++ more) ch =
    (let '(effs', ch2, s) := writePump_loop more ch1 in (effs ++ effs', ch2, s)).
Proof.
  induction sched as [|[ch0 | w] sched IH]; intros more ch effs ch1 Hloop; simpl in *.
  - injection Hloop as <- <-. by destruct (writePump_loop more ch) as [[? ?] ?].
  - by apply IH.
  - destruct (write_turn w ch) as [[e ch'] []]; [| done..].
    destruct (writePump_loop sched ch') as [[e0 ch0] s0] eqn:Hrest.
    injection Hloop as <- <- ->. rewrite (IH more ch' e0 ch0 Hrest).
    destruct (writePump_loop more ch0) as [[? ?] ?]. by rewrite app_assoc.
Qed.




(** ** Coalescing *)

Lemma coalesce_all ps : ∀ cap closed,
  coalesce (length ps) (Chan.mk ps cap closed) =
    (separated ps, Chan.mk [] cap closed, true).
Proof.
  induction ps as [|p ps IH]; intros cap closed; [done |].
  simpl. unfold Chan.recv. simpl. by rewrite IH.
Qed.

Lemma frames_separated ps : ∀ ty acc,
  frames (Some (ty, acc)) (conn_calls (separated ps ++ [Conn WriterClose])) =
    [(ty, acc ++ (ps ≫= λ p, newline ++ p))].
Proof.
  induction ps as [|p ps IH]; intros ty acc; simpl.
  - by rewrite app_nil_r.
  - rewrite IH. by rewrite <- !app_assoc.
Qed.

Lemma join_cons sep p ps : join sep (p :: ps) = p ++ (ps ≫= λ q, sep ++ q).
Proof.
  revert p. induction ps as [|q ps IH]; intros p.
  - simpl. by rewrite app_nil_r.
  - change (join sep (p :: q :: ps)) with (p ++ sep ++ join sep (q :: ps)).
    rewrite IH. simpl. by rewrite <- !app_assoc.
Qed.

Lemma split_no_sep sep p : sep ∉ p → split sep p = [p].
Proof.
  induction p as [|b p IH]; intros Hnot; [done |].
  apply not_elem_of_cons in Hnot as [Hne Hnot]. simpl.
  case_decide; [congruence |]. by rewrite (IH Hnot).
Qed.

Lemma split_app_sep sep p data :
  sep ∉ p → split sep (p ++ sep :: data) = p :: split sep data.
Proof.
  induction p as [|b p IH]; intros Hnot; simpl.
  - by case_decide.
  - apply not_elem_of_cons in Hnot as [Hne Hnot].
    case_decide; [congruence |]. by rewrite (IH Hnot).
Qed.

(** Splitting a joined frame gives the payloads back when none of them
    holds the separator. *)
Lemma split_join sep p ps :
  (∀ q, q ∈ p :: ps → sep ∉ q) →
  split sep (join [sep] (p :: ps)) = p :: ps.
Proof.
  revert p. induction ps as [|q ps IH]; intros p Hnot.
  - simpl. apply split_no_sep, Hnot. by left.
  - change (join [sep] (p :: q :: ps)) with (p ++ [sep] ++ join [sep] (q :: ps)).
    simpl app at 2. rewrite split_app_sep by (apply Hnot; by left).
    f_equal. apply IH. intros q' Hq'. apply Hnot. by right.
Qed.

(** *** What the hub does to a mailbox during a turn *)

Lemma hub_touch_closed ch op : Chan.closed ch = true → hub_touch ch op = ch.
Proof. intros Hcl. unfold hub_touch. by rewrite Hcl. Qed.

Lemma hub_touches_closed ops ch :
  Chan.closed ch = true → foldl hub_touch ch ops = ch.
Proof.
  intros Hcl. induction ops as [|op ops IH]; [done |].
  simpl. by rewrite hub_touch_closed.
Qed.

(** The hub appends what it offers, or nothing, and never reopens or
    resizes a channel. *)
Lemma hub_touch_shape ch op :
  Chan.cap (hub_touch ch op) = Chan.cap ch ∧
  (Chan.closed ch = true → Chan.closed (hub_touch ch op) = true) ∧
  ∃ arrived, Chan.buf (hub_touch ch op) = Chan.buf ch ++ arrived ∧
             arrived `sublist_of` offered [op].
Proof.
  unfold hub_touch. destruct (Chan.closed ch) eqn:Hcl.
  - split_and!; [done.. |]. exists []. rewrite app_nil_r. split; [done |].
    apply sublist_nil_l.
  - destruct op as [m |]; simpl.
    + unfold Chan.try_send. rewrite Hcl. case_decide; simpl.
      * split_and!; [done.. |]. by exists [m].
      * split_and!; [done.. |]. exists []. rewrite app_nil_r. split; [done |].
        apply sublist_nil_l.
    + split_and!; [done.. |]. exists []. by rewrite app_nil_r.
Qed.

Lemma hub_touches_shape ops : ∀ ch,
  Chan.cap (foldl hub_touch ch ops) = Chan.cap ch ∧
  (Chan.closed ch = true → Chan.closed (foldl hub_touch ch ops) = true) ∧
  ∃ arrived, Chan.buf (foldl hub_touch ch ops) = Chan.buf ch ++ arrived ∧
             arrived `sublist_of` offered ops.
Proof.
  induction ops as [|op ops IH]; intros ch; simpl.
  - split_and!; [done.. |]. exists []. by rewrite app_nil_r.
  - destruct (hub_touch_shape ch op) as (Hcap & Hcl & arr1 & Hbuf & Hsub).
    destruct (IH (hub_touch ch op)) as (Hcap' & Hcl' & arr2 & Hbuf' & Hsub').
    split_and!; [congruence | tauto |].
    exists (arr1 ++ arr2). rewrite Hbuf', Hbuf, <- app_assoc. split; [done |].
    destruct op as [m |].
    + by apply (sublist_app arr1 [m] arr2 (offered ops)).
    + by apply (sublist_app arr1 [] arr2 (offered ops)).
Qed.

(** While there is room the hub's offers all arrive, in order. *)
Lemma offers_fit ms : ∀ ch,
  Chan.closed ch = false → Chan.len ch + length ms ≤ Chan.cap ch →
  foldl hub_touch ch (Offers <$> ms) = Chan.mk (Chan.buf ch ++ ms) (Chan.cap ch) false.
Proof.
  induction ms as [|m ms IH]; intros [queued cap closed] Hopen Hfit; simpl in *.
  - subst closed. by rewrite app_nil_r.
  - subst closed. unfold hub_touch, Chan.try_send, Chan.len in *. simpl in *.
    rewrite decide_True by lia. rewrite IH; simpl.
    + by rewrite <- app_assoc.
    + done.
    + rewrite length_app. simpl. lia.
Qed.

(** The hub's offers to a mailbox of capacity 256: the first 256
    payloads stay, and one offer too many closes it. *)
Lemma offers_fill ms : ∀ queued,
  length queued ≤ 256 →
  foldl hub_touch (Chan.mk queued 256 false) (Offers <$> ms)
  = Chan.mk (firstn 256 (queued ++ ms)) 256 (bool_decide (256 < length (queued ++ ms))).
Proof.
  induction ms as [|m ms IH]; intros queued Hlen.
  - rewrite app_nil_r, take_ge by done. by rewrite bool_decide_eq_false_2 by lia.
  - cbn [fmap list_fmap foldl]. unfold hub_touch at 2, Chan.try_send, Chan.len.
    cbn [Chan.closed Chan.buf Chan.cap]. case_decide as Hroom.
    + rewrite IH by (rewrite length_app; simpl; lia). by rewrite <- app_assoc.
    + rewrite hub_touches_closed by done. rewrite length_app. simpl.
      rewrite bool_decide_eq_true_2 by lia.
      by rewrite take_app_length' by lia.
Qed.

(** The loop takes the payloads it has counted and no others. *)
Lemma coalesce_counted n : ∀ ch,
  n ≤ Chan.len ch →
  coalesce n ch
  = (separated (firstn n (Chan.buf ch)),
     Chan.mk (skipn n (Chan.buf ch)) (Chan.cap ch) (Chan.closed ch), true).
Proof.
  induction n as [|n IH]; intros [queued cap closed] Hlen; [done |].
  unfold Chan.len in Hlen. simpl in Hlen.
  destruct queued as [|m queued]; simpl in Hlen; [lia |].
  cbn [coalesce]. unfold Chan.recv. cbn [Chan.buf Chan.cap Chan.closed].
  rewrite IH by (unfold Chan.len; simpl; lia). done.
Qed.

(** What the hub does to the mailbox once the pump has counted it does
    not change what the loop writes. *)
Lemma coalesce_ignores_later n ch ops :
  n ≤ Chan.len ch →
  (coalesce n (foldl hub_touch ch ops)).1.1 = (coalesce n ch).1.1.
Proof.
  intros Hlen.
  destruct (hub_touches_shape ops ch) as (_ & _ & arrived & Hbuf & _).
  rewrite !coalesce_counted; [| done | unfold Chan.len in *; rewrite Hbuf, length_app; lia].
  simpl. rewrite Hbuf. unfold Chan.len in Hlen. by rewrite take_app_le.
Qed.

(** One turn on a mailbox of [p1 :: rest] with successful writes. *)
Lemma write_turn_frame p1 rest cap closed ops :
  ∃ effs arrived,
    Chan.buf (foldl hub_touch (Chan.mk rest cap closed) ops) = rest ++ arrived ∧
    arrived `sublist_of` offered ops ∧
    (ops = [] → arrived = []) ∧
    (∀ ms, ops = Offers <$> ms → closed = false →
           length rest + length ms ≤ cap → arrived = ms) ∧
    write_turn (OnSend true true ops) (Chan.mk (p1 :: rest) cap closed) =
      (effs,
       Chan.mk [] cap (Chan.closed (foldl hub_touch (Chan.mk rest cap closed) ops)),
       Continue) ∧
    frames None (conn_calls effs) =
      [(TextMessage, join newline (p1 :: rest ++ arrived))] ∧
    ((∀ p, p ∈ p1 :: rest ++ arrived → x0a ∉ p) →
     split x0a (join newline (p1 :: rest ++ arrived)) = p1 :: rest ++ arrived).
Proof.
  destruct (hub_touches_shape ops (Chan.mk rest cap closed))
    as (Hcap & _ & arrived & Hbuf & Hsub). simpl in Hcap, Hbuf.
  eexists. exists arrived. split_and!; [done | done | | | | |].
  - intros ->. simpl in Hbuf. by apply app_inv_head with rest; rewrite app_nil_r.
  - intros ms -> -> Hfit.
    rewrite offers_fit in Hbuf by done. simpl in Hbuf.
    by apply app_inv_head in Hbuf.
  - unfold write_turn, Chan.recv. cbn [Chan.buf Chan.cap Chan.closed].
    destruct (foldl hub_touch (Chan.mk rest cap closed) ops) as [queued cap' closed'].
    simpl in Hcap, Hbuf. subst cap' queued. unfold Chan.len. cbn [Chan.buf Chan.closed].
    by rewrite coalesce_all.
  - change (frames (Some (TextMessage, [] ++ p1))
              (conn_calls (separated (rest ++ arrived) ++ [Conn WriterClose]))
            = [(TextMessage, join newline (p1 :: rest ++ arrived))]).
    by rewrite frames_separated, join_cons.
  - apply split_join.
Qed.

(** C4, amended: when the write pump wakes on a mailbox that holds
    [p1 :: rest] and its writes succeed, it sends one text frame and
    leaves the mailbox empty.  The frame is [p1 :: rest] followed by
    what the hub has added by the time the pump counts the mailbox, all
    joined by a line feed in their order of arrival: exactly
    [p1 :: rest] when the hub does nothing in between, and all of [ms]
    after them when the hub offers [ms] and there is room.  Splitting
    the frame on the line feed, as the page's script does, gives back
    exactly the payloads of the frame provided none of them holds a line
    feed. *)
Theorem coalesced_frame p1 rest cap closed ops :
  ∃ effs arrived,
    Chan.buf (foldl hub_touch (Chan.mk rest cap closed) ops) = rest ++ arrived ∧
    arrived `sublist_of` offered ops ∧
    (ops = [] → arrived = []) ∧
    (∀ ms, ops = Offers <$> ms → closed = false →
           length rest + length ms ≤ cap → arrived = ms) ∧
    write_turn (OnSend true true ops) (Chan.mk (p1 :: rest) cap closed) =
      (effs,
       Chan.mk [] cap (Chan.closed (foldl hub_touch (Chan.mk rest cap closed) ops)),
       Continue) ∧
    frames None (conn_calls effs) =
      [(TextMessage, join newline (p1 :: rest ++ arrived))] ∧
    ((∀ p, p ∈ p1 :: rest ++ arrived → x0a ∉ p) →
     split x0a (join newline (p1 :: rest ++ arrived)) = p1 :: rest ++ arrived).
Proof. apply write_turn_frame. Qed.

(** C4 on a mailbox of two payloads to which the hub adds a third while
    the pump is getting its writer. *)
Lemma coalesced_frame_witness :
  ∃ effs,
    write_turn (OnSend true true [Offers ["d"%byte]])
               (Chan.mk [["a"%byte]; ["b"%byte; "c"%byte]] 256 false) =
      (effs, Chan.mk [] 256 false, Continue) ∧
    frames None (conn_calls effs) =
      [(TextMessage, ["a"%byte; x0a; "b"%byte; "c"%byte; x0a; "d"%byte])] ∧
    split x0a ["a"%byte; x0a; "b"%byte; "c"%byte; x0a; "d"%byte]
    = [["a"%byte]; ["b"%byte; "c"%byte]; ["d"%byte]].
Proof.
  destruct (coalesced_frame ["a"%byte] [["b"%byte; "c"%byte]] 256 false
              [Offers ["d"%byte]])
    as (effs & arrived & Hbuf & _ & _ & _ & Hturn & Hframes & Hsplit).
  assert (arrived = [["d"%byte]]) as ->.
  { apply (app_inv_head [["b"%byte; "c"%byte]]). symmetry. exact Hbuf. }
  exists effs. split_and!.
  - exact Hturn.
  - exact Hframes.
  - apply Hsplit. apply Forall_forall.
    apply (bool_decide_unpack _). by vm_compute.
Defined.

(** C4 as stated fails in two ways.  A payload may hold a line feed: a
    mailbox with the single payload [a, LF, b] is sent as the frame
    [a, LF, b], which splits into the two pieces [a] and [b].  And the
    frame may hold more than the mailbox held when the pump woke: with
    [a] in the mailbox at the wake and [b] sent by the hub before the
    pump counts, the frame is [a, LF, b], which splits into [a] and [b],
    not into [a] alone. *)
Lemma coalesced_frame_counterexample :
  (Z.of_nat (length two_lines) ≤ 512)%Z ∧
  (∃ effs,
     write_turn (OnSend true true []) (Chan.mk [two_lines] 256 false) =
       (effs, Chan.mk [] 256 false, Continue) ∧
     frames None (conn_calls effs) = [(TextMessage, two_lines)]) ∧
  split x0a two_lines = [["a"%byte]; ["b"%byte]] ∧
  split x0a two_lines ≠ [two_lines] ∧
  (∃ effs,
     write_turn (OnSend true true [Offers ["b"%byte]])
                (Chan.mk [["a"%byte]] 256 false) =
       (effs, Chan.mk [] 256 false, Continue) ∧
     frames None (conn_calls effs) = [(TextMessage, ["a"%byte; x0a; "b"%byte])]) ∧
  split x0a ["a"%byte; x0a; "b"%byte] ≠ [["a"%byte]].
Proof.
  split_and!.
  - simpl. lia.
  - by eexists.
  - reflexivity.
  - discriminate.
  - by eexists.
  - discriminate.
Qed.

(** ** The write pump and its mailbox *)

Lemma coalesce_takes n : ∀ ch effs ch' fin,
  coalesce n ch = (effs, ch', fin) →
  Chan.cap ch' = Chan.cap ch ∧ Chan.closed ch' = Chan.closed ch ∧
  ∃ got, Chan.buf ch = got ++ Chan.buf ch'.
Proof.
  induction n as [|n IH]; intros ch effs ch' fin; simpl.
  - intros [= _ <- _]. split_and!; [done.. |]. by exists [].
  - destruct (Chan.recv ch) as [m ch1 | |] eqn:Hrecv.
    + destruct (coalesce n ch1) as [[e1 ch2] f1] eqn:Hco. intros [= _ <- _].
      apply recv_received in Hrecv as (Hbuf & Hcap & Hcl).
      destruct (IH _ _ _ _ Hco) as (Hcap2 & Hcl2 & got & Hgot).
      split_and!; [congruence.. |]. exists (m :: got). rewrite Hbuf, Hgot. done.
    + destruct (coalesce n ch) as [[e1 ch2] f1] eqn:Hco. intros [= _ <- _].
      by apply (IH _ _ _ _ Hco).
    + intros [= _ <- _]. split_and!; [done.. |]. by exists [].
Qed.

(** All a turn of the write pump does to its mailbox is to take payloads
    from its head: the steps [Takes] of the program.  What else happens
    to the mailbox during the turn is the hub's doing. *)
Lemma write_turn_takes w ch effs ch' s :
  write_turn w ch = (effs, ch', s) →
  Chan.cap ch' = Chan.cap ch ∧
  (Chan.closed ch = true → Chan.closed ch' = true) ∧
  ∃ got arrived, Chan.buf ch ++ arrived = got ++ Chan.buf ch' ∧
                 arrived `sublist_of` offered (meanwhile w).
Proof.
  assert (∀ (l : list Payload), [] `sublist_of` l) as Hnil
    by (intros l; apply sublist_nil_l).
  destruct w as [a b ops | ok]; simpl.
  - destruct (Chan.recv ch) as [m ch1 | |] eqn:Hrecv.
    + apply recv_received in Hrecv as (Hbuf & Hcap & Hcl). destruct a.
      * destruct (hub_touches_shape ops ch1) as (Hcap1 & Hcl1 & arrived & Hbuf1 & Hsub).
        destruct (coalesce _ _) as [[body ch2] fin] eqn:Hco.
        destruct (coalesce_takes _ _ _ _ _ Hco) as (Hcap2 & Hcl2 & got & Hgot).
        destruct fin; intros [= _ <- _];
          (split_and!; [congruence | intros ?; rewrite Hcl2; apply Hcl1; congruence |]);
          exists (m :: got), arrived; split; [| done | | done];
          by rewrite Hbuf, <- app_comm_cons, <- Hbuf1, Hgot.
      * intros [= _ <- _]. split_and!; [done | congruence |].
        exists [m], []. rewrite app_nil_r. by rewrite Hbuf.
    + intros [= _ <- _]. split_and!; [done.. |]. exists [], []. by rewrite app_nil_r.
    + intros [= _ <- _]. split_and!; [done.. |]. exists [], []. by rewrite app_nil_r.
  - intros [= _ <- _]. split_and!; [done.. |]. exists [], []. by rewrite app_nil_r.
Qed.

(** With the hub at rest the mailbox changes in no other way. *)
Lemma write_turn_takes_at_rest w ch effs ch' s :
  meanwhile w = [] →
  write_turn w ch = (effs, ch', s) →
  Chan.cap ch' = Chan.cap ch ∧ Chan.closed ch' = Chan.closed ch ∧
  ∃ got, Chan.buf ch = got ++ Chan.buf ch'.
Proof.
  destruct w as [a b ops | ok]; simpl.
  - intros ->. destruct (Chan.recv ch) as [m ch1 | |] eqn:Hrecv.
    + apply recv_received in Hrecv as (Hbuf & Hcap & Hcl). destruct a.
      * simpl. destruct (coalesce (Chan.len ch1) ch1) as [[body ch2] fin] eqn:Hco.
        destruct (coalesce_takes _ _ _ _ _ Hco) as (Hcap2 & Hcl2 & got & Hgot).
        destruct fin; intros [= _ <- _]; (split_and!; [congruence.. |]);
          exists (m :: got); by rewrite Hbuf, Hgot.
      * intros [= _ <- _]. split_and!; [done.. |]. exists [m]. by rewrite Hbuf.
    + intros [= _ <- _]. split_and!; [done.. |]. by exists [].
    + intros [= _ <- _]. split_and!; [done.. |]. by exists [].
  - intros _ [= _ <- _]. split_and!; [done.. |]. by exists [].
Qed.

(** The pump measures the queue and takes that many payloads, so it
    never waits inside the coalescing loop. *)
Lemma write_turn_never_stuck w ch effs ch' : write_turn w ch ≠ (effs, ch', Stuck).
Proof.
  destruct w as [a b ops | ok]; simpl.
  - destruct (Chan.recv ch) as [m ch1 | |]; [| done..].
    destruct a; [| done].
    destruct (foldl hub_touch ch1 ops) as [ps cap closed].
    unfold Chan.len. simpl. rewrite coalesce_all.
    by destruct b.
  - by destruct ok.
Qed.

(** ** The keepalive *)

(** Timely pongs are all read, and move the deadline along. *)
Lemma pongs_then lat limit rest horizon :
  (∀ k, 0 ≤ lat k < 6)%Z →
  ∀ n j deadline,
    (tick 54 j + 6 ≤ deadline)%Z →
    (tick 54 (j + n)%nat ≤ horizon)%Z →
    readPump_loop_at limit deadline
      (((λ k, (tick 54 k + lat k, PongFrame)%Z) <$> seq j n) ++ rest) horizon
    = (let '(effs, s, t) :=
         readPump_loop_at limit
           (match n with
            | O => deadline
            | S m => (tick 54 (j + m) + lat (j + m)%nat + 60)%Z
            end) rest horizon in
       (replicate n (Conn (SetReadDeadline 60)) ++ effs, s, t)).
Proof.
  intros Hlat. induction n as [|n IH]; intros j deadline Hdl Hhz.
  - simpl. by destruct (readPump_loop_at limit deadline rest horizon) as [[? ?] ?].
  - pose proof (Hlat j) as Hj. unfold tick in *.
    cbn [seq fmap list_fmap app readPump_loop_at].
    rewrite decide_False by lia. rewrite decide_False by lia.
    rewrite (IH (S j) (54 * Z.of_nat j + lat j + 60)%Z) by lia.
    replace (match n with
             | O => (54 * Z.of_nat j + lat j + 60)%Z
             | S m => (54 * Z.of_nat (S j + m) + lat (S j + m)%nat + 60)%Z
             end)
      with (54 * Z.of_nat (j + n) + lat (j + n)%nat + 60)%Z.
    + by destruct (readPump_loop_at limit _ rest horizon) as [[? ?] ?].
    + destruct n as [|m].
      * by rewrite Nat.add_0_r.
      * by replace (j + S m) with (S j + m) by lia.
Qed.

(** Without a pong the deadline stands, and the pump is gone by then. *)
Lemma no_pong_times_out limit horizon : ∀ chatter deadline,
  Forall (λ a : Z * Inbound, a.2 ≠ PongFrame) chatter →
  (deadline ≤ horizon)%Z →
  ∃ effs t, readPump_loop_at limit deadline chatter horizon = (effs, Returned, t) ∧
            (t ≤ deadline)%Z.
Proof.
  induction chatter as [|[t i] chatter IH]; intros deadline Hno Hdl; simpl.
  - rewrite decide_True by done. by eexists _, _.
  - apply Forall_cons in Hno as [Hi Hno]. simpl in Hi.
    rewrite (decide_True _ _ Hdl).
    case_decide; [by eexists _, _ |]. case_decide; [by eexists _, _ |].
    destruct i as [data | | err]; [| done |].
    + destruct (ReadMessage limit data) as [message | err].
      * destruct (IH deadline Hno Hdl) as (effs & t' & -> & Ht').
        by eexists _, _.
      * eexists _, _. split; [done | lia].
    + eexists _, _. split; [done | lia].
Qed.

(** The pump against the clock does what [readPump_loop] does on what it
    has read, with a failed read where the deadline has come. *)
Lemma readPump_loop_at_untimed limit horizon : ∀ arrivals deadline,
  ∃ seen,
    seen `prefix_of` arrivals.*2 ∧
    ((readPump_loop_at limit deadline arrivals horizon).1 = readPump_loop limit seen ∨
     (readPump_loop_at limit deadline arrivals horizon).1
     = readPump_loop limit (seen ++ [Failure OtherError])).
Proof.
  assert (∀ deadline (l : list Inbound), ∃ seen,
    seen `prefix_of` l ∧
    ((if decide (deadline ≤ horizon)%Z
      then (log_read_error OtherError, Returned, deadline)
      else ([], Parked, horizon)).1 = readPump_loop limit seen ∨
     (if decide (deadline ≤ horizon)%Z
      then (log_read_error OtherError, Returned, deadline)
      else ([], Parked, horizon)).1
     = readPump_loop limit (seen ++ [Failure OtherError]))) as Hend.
  { intros deadline l. exists []. split; [apply prefix_nil |].
    case_decide; [by right | by left]. }
  induction arrivals as [|[t i] arrivals IH]; intros deadline.
  - apply Hend.
  - cbn [readPump_loop_at]. case_decide; [apply Hend |].
    case_decide.
    { exists []. split; [apply prefix_nil | by right]. }
    destruct i as [data | | err].
    + destruct (ReadMessage limit data) as [message | err] eqn:Hread.
      * destruct (IH deadline) as (seen & Hpre & Hsame).
        exists (DataFrame data :: seen). split; [by apply prefix_cons |].
        cbn [app readPump_loop]. rewrite Hread.
        destruct (readPump_loop_at limit deadline arrivals horizon) as [[effs s] t'].
        simpl in *. destruct Hsame as [<- | <-]; [by left | by right].
      * exists [DataFrame data]. split; [apply prefix_cons, prefix_nil |].
        left. simpl. by rewrite Hread.
    + destruct (IH (t + 60)%Z) as (seen & Hpre & Hsame).
      exists (PongFrame :: seen). split; [by apply prefix_cons |].
      cbn [app readPump_loop].
      destruct (readPump_loop_at limit (t + 60) arrivals horizon) as [[effs s] t'].
      simpl in *. destruct Hsame as [<- | <-]; [by left | by right].
    + exists [Failure err]. split; [apply prefix_cons, prefix_nil |]. by left.
Qed.

(** C8, amended.  The write pump makes a ticker of 54 seconds; on every
    tick it sends a ping, and a ping that fails makes it return and
    close the connection.  The read pump sets a deadline of 60 seconds
    at its start and again at every pong it reads, and at nothing else:
    a data message leaves the deadline where it was.  With the ticks
    coming every 54 seconds and both pumps started at time 0, a peer
    that answers every ping in less than 6 seconds is never timed out:
    after any number of pongs the pump is still reading when the next
    ping is due.  A peer that stops answering is timed out whatever else
    it sends: the pump has returned, unregistered its client and closed
    the connection no later than 60 seconds after it last heard of the
    peer.  Against the clock the pump does what [readPump] does on what
    it has read, with a failed read where the deadline has come. *)
Theorem keepalive_protocol :
  (∀ sched ch, ∃ body, (writePump sched ch).1.1 = NewTicker 54 :: body) ∧
  (∀ sched ch effs ch1 more,
     writePump sched ch = (effs, ch1, Parked) →
     writePump (sched ++ [Turn (OnTick true)]) ch
     = (effs ++ [Conn (SetWriteDeadline 10); Conn (WriteMessage PingMessage [])],
        ch1, Parked) ∧
     writePump (sched ++ Turn (OnTick false) :: more) ch
     = (effs ++ [Conn (SetWriteDeadline 10); Conn (WriteMessage PingMessage []);
                 TickerStop; Conn ConnClose], ch1, Returned)) ∧
  (∀ limit deadline t rest horizon,
     (t ≤ horizon)%Z → (t < deadline)%Z →
     readPump_loop_at limit deadline ((t, PongFrame) :: rest) horizon
     = (let '(effs, s, t') := readPump_loop_at limit (t + 60) rest horizon in
        (Conn (SetReadDeadline 60) :: effs, s, t')) ∧
     ∀ data, (Z.of_nat (length data) ≤ limit)%Z →
       readPump_loop_at limit deadline ((t, DataFrame data) :: rest) horizon
       = (let '(effs, s, t') := readPump_loop_at limit deadline rest horizon in
          (ToHub (Broadcast data) :: effs, s, t'))) ∧
  (∀ c lat n,
     (∀ k, 0 ≤ lat k < 6)%Z →
     readPump_at c 0 (pongs 54 lat n) (tick 54 (S n))
     = ([Conn (SetReadLimit 512); Conn (SetReadDeadline 60); Conn SetPongHandler]
        ++ replicate n (Conn (SetReadDeadline 60)), Parked, tick 54 (S n))) ∧
  (∀ c lat n chatter horizon,
     (∀ k, 0 ≤ lat k < 6)%Z →
     Forall (λ a : Z * Inbound, a.2 ≠ PongFrame) chatter →
     (last_heard 54 lat n + 60 ≤ horizon)%Z →
     ∃ effs t,
       readPump_at c 0 (pongs 54 lat n ++ chatter) horizon
       = (effs ++ [ToHub (Unregister c); Conn ConnClose], Returned, t) ∧
       (t ≤ last_heard 54 lat n + 60)%Z) ∧
  (∀ c start arrivals horizon, ∃ seen,
     seen `prefix_of` arrivals.*2 ∧
     ((readPump_at c start arrivals horizon).1 = readPump c seen ∨
      (readPump_at c start arrivals horizon).1
      = readPump c (seen ++ [Failure OtherError]))).
Proof.
  split_and!.
  - intros sched ch. unfold writePump.
    destruct (writePump_loop sched ch) as [[body ch'] s]. by eexists.
  - intros sched ch effs ch1 more Hpump. unfold writePump in *.
    destruct (writePump_loop sched ch) as [[body ch0] s] eqn:Hloop.
    injection Hpump as <- <- ->.
    rewrite !(writePump_loop_app sched _ ch body ch0 Hloop).
    simpl. by rewrite !app_nil_r, <- !app_assoc.
  - intros limit deadline t rest horizon Hhz Hdl. split.
    + cbn [readPump_loop_at]. by rewrite !decide_False by lia.
    + intros data Hlen. cbn [readPump_loop_at]. rewrite !decide_False by lia.
      unfold ReadMessage. by rewrite decide_False by lia.
  - intros c lat n Hlat. unfold readPump_at, pongs.
    pose proof (pongs_then lat 512 [] (tick 54 (S n)) Hlat n 1 (0 + 60)%Z) as Hloop.
    rewrite app_nil_r in Hloop. rewrite Hloop by (unfold tick; lia).
    cbn [readPump_loop_at]. rewrite decide_False.
    + by rewrite !app_nil_r.
    + destruct n as [|m]; [unfold tick; lia |].
      pose proof (Hlat (1 + m)). unfold tick. lia.
  - intros c lat n chatter horizon Hlat Hno Hhz. unfold readPump_at, pongs.
    assert (tick 54 (1 + n)%nat ≤ horizon)%Z as Hnext.
    { destruct n as [|m]; simpl in Hhz; [unfold tick; lia |].
      pose proof (Hlat (S m)). unfold tick in *. lia. }
    rewrite (pongs_then lat 512 chatter horizon Hlat n 1 (0 + 60)%Z)
      by (done || unfold tick; lia).
    destruct (no_pong_times_out 512 horizon chatter
                (match n with
                 | O => (0 + 60)%Z
                 | S m => (tick 54 (1 + m) + lat (1 + m)%nat + 60)%Z
                 end) Hno) as (effs & t & -> & Ht).
    { by destruct n. }
    exists ([Conn (SetReadLimit 512); Conn (SetReadDeadline 60); Conn SetPongHandler]
            ++ replicate n (Conn (SetReadDeadline 60)) ++ effs), t.
    split; [by rewrite <- !app_assoc | by destruct n].
  - intros c start arrivals horizon.
    destruct (readPump_loop_at_untimed 512 horizon arrivals (start + 60)%Z)
      as (seen & Hpre & Hsame).
    exists seen. split; [done |]. unfold readPump_at, readPump.
    destruct (readPump_loop_at 512 (start + 60) arrivals horizon) as [[body s] t].
    simpl in Hsame. destruct Hsame as [<- | <-]; [by left | by right].
Qed.

(** C8 on a peer that answers three pings after two seconds each. *)
Lemma keepalive_protocol_witness :
  readPump_at 1%positive 0 (pongs 54 (λ _, 2%Z) 3) (tick 54 4)
  = ([Conn (SetReadLimit 512); Conn (SetReadDeadline 60); Conn SetPongHandler]
     ++ replicate 3 (Conn (SetReadDeadline 60)), Parked, tick 54 4).
Proof.
  apply (proj1 (proj2 (proj2 (proj2 keepalive_protocol))) 1%positive (λ _, 2%Z) 3).
  intros k. lia.
Defined.

(** C8 as stated fails for a peer that answers every ping, but only
    after seven seconds.  The first ping goes out at 54 and the pong
    comes at 61, a second after the deadline set at the start: at 60 the
    read has failed and the pump has unregistered its client and closed
    the connection, and the pong is never read.  It is no different if
    the peer is as slow for the pings that would have followed. *)
Lemma keepalive_protocol_counterexample :
  tick 54 1 = 54%Z ∧
  pongs 54 (λ _, 7%Z) 1 = [(61%Z, PongFrame)] ∧
  readPump_at 1%positive 0 (pongs 54 (λ _, 7%Z) 1) 108
  = ([Conn (SetReadLimit 512); Conn (SetReadDeadline 60); Conn SetPongHandler;
      ToHub (Unregister 1%positive); Conn ConnClose], Returned, 60%Z) ∧
  readPump_at 1%positive 0 (pongs 54 (λ _, 7%Z) 3) 216
  = ([Conn (SetReadLimit 512); Conn (SetReadDeadline 60); Conn SetPongHandler;
      ToHub (Unregister 1%positive); Conn ConnClose], Returned, 60%Z).
Proof. split_and!; reflexivity. Qed.

(** * Further properties of the chat server *)

(** ** The hub *)

(** X1: whatever order Go picks for the range over [h.clients], the
    broadcast leaves the state that [hub_step] computes with its own
    order, a panic included. *)
Theorem broadcast_any_order m order st :
  order ≡ₚ range_keys (clients st) →
  broadcast_loop m order st = hub_step st (Broadcast m).
Proof.
  intros Hperm. cbn [hub_step]. unfold on_broadcast.
  apply broadcast_loop_perm; [done |].
  rewrite Hperm. apply NoDup_range_keys.
Qed.

(** X1 on the hub with two clients, visited in the order [1, 2]. *)
Lemma broadcast_any_order_witness :
  broadcast_loop [x01] [1; 2]%positive mixed_hub
  = hub_step mixed_hub (Broadcast [x01]).
Proof.
  apply (broadcast_any_order [x01] [1; 2]%positive mixed_hub).
  vm_compute. apply perm_swap.
Defined.

Lemma sys_step_open_iff st a st' :
  live_open st → open_iff_registered st → sys_step st a = Some st' →
  open_iff_registered st'.
Proof.
  intros Hlive Hiff Hstep c ch' Hch'. split.
  - intros Hc.
    assert (live_open st') as Hlive'.
    { destruct a as [[] | m | c0 | c0]; cbn [sys_step hub_step] in Hstep.
      - destruct (serveWs_accept st) as [Heq _]. rewrite Heq in Hstep.
        injection Hstep as <-. intros c1 Hc1. simpl in *.
        destruct (decide (c1 = fresh (dom (send st)))) as [-> | Hne].
        + rewrite lookup_insert_eq. by eexists.
        + rewrite lookup_insert_ne in Hc1 by done.
          rewrite lookup_insert_ne by done. by apply Hlive.
      - simpl in Hstep. by injection Hstep as <-.
      - by eapply (live_open_broadcast m (range_keys (clients st)) st).
      - unfold on_unregister in Hstep.
        destruct (clients st !! c0) as [b|] eqn:Hc0; [| by injection Hstep as <-].
        destruct (Hlive c0) as (ch0 & Hch0 & Hopen0); [by rewrite Hc0 |].
        rewrite Hch0 in Hstep. simpl in Hstep.
        rewrite (close_open _ Hopen0) in Hstep. injection Hstep as <-.
        intros c1 Hc1. simpl in *. destruct (decide (c1 = c0)) as [-> | Hne].
        + rewrite lookup_delete_eq in Hc1. by destruct Hc1.
        + rewrite lookup_delete_ne in Hc1 by done.
          rewrite lookup_insert_ne by done. by apply Hlive.
      - injection Hstep as <-. intros c1 Hc1. rewrite take_clients in Hc1.
        unfold take. destruct (send st !! c0) as [ch0|] eqn:Hch0; [| by apply Hlive].
        destruct (Chan.recv ch0) as [m ch1 | |] eqn:Hrecv; [| by apply Hlive..].
        apply recv_received in Hrecv as (_ & _ & Hcl). simpl.
        destruct (decide (c1 = c0)) as [-> | Hne].
        + rewrite lookup_insert_eq. exists ch1. split; [done |].
          destruct (Hlive c0 Hc1) as (ch2 & Hch2 & Hopen2).
          assert (ch2 = ch0) as -> by congruence. congruence.
        + rewrite lookup_insert_ne by done. by apply Hlive. }
    destruct (Hlive' c Hc) as (ch1 & Hch1 & Hopen1). congruence.
  - intros Hopen. destruct (send st !! c) as [ch|] eqn:Hch.
    + destruct (sys_step_stream st a st' c ch Hlive Hstep Hch) as (ch1 & Hch1 & _).
      assert (ch1 = ch') as -> by congruence.
      destruct (Chan.closed ch) eqn:Hcl.
      * assert (is_closed c st' = true) as Hcl'.
        { apply (sys_step_closed c st a); [done.. |]. unfold is_closed.
          by rewrite Hch. }
        unfold is_closed in Hcl'. rewrite Hch' in Hcl'. congruence.
      * apply (Hiff c ch Hch) in Hcl as Hc.
        apply (sys_step_member c st a st' Hlive Hstep). right. split; [done |].
        destruct a as [[] | m | c0 | c0]; cbn [removes]; [done.. | |  | done].
        -- rewrite Hch. apply bool_decide_eq_false. intros Hfull.
           cbn [sys_step hub_step] in Hstep. unfold on_broadcast in Hstep.
           destruct (broadcast_tears_down m (range_keys (clients st)) st c ch)
             as (st1 & Hrun & _ & Hs); [done.. |].
           assert (st1 = st') as -> by congruence.
           rewrite Hs in Hch'. injection Hch' as <-. done.
        -- apply bool_decide_eq_false. intros ->.
           cbn [sys_step hub_step] in Hstep.
           rewrite (on_unregister_present c st ch Hc Hch Hcl) in Hstep.
           injection Hstep as <-. simpl in Hch'.
           rewrite lookup_insert_eq in Hch'. injection Hch' as <-. done.
    + destruct a as [[] | m | c0 | c0]; cbn [sys_step hub_step] in Hstep.
      * destruct (serveWs_accept st) as [Heq _]. rewrite Heq in Hstep.
        injection Hstep as <-. simpl in *.
        destruct (decide (c = fresh (dom (send st)))) as [-> | Hne].
        -- rewrite lookup_insert_eq. by eexists.
        -- rewrite lookup_insert_ne in Hch' by done. congruence.
      * simpl in Hstep. injection Hstep as <-. congruence.
      * unfold on_broadcast in Hstep.
        destruct (decide (c ∈ range_keys (clients st))) as [Hin | Hout].
        -- destruct (broadcast_loop_open m _ st st' c Hstep (NoDup_range_keys _) Hin)
             as (ch & ? & _). congruence.
        -- destruct (broadcast_loop_other m _ st st' c Hstep Hout) as [_ Hs]. congruence.
      * unfold on_unregister in Hstep.
        destruct (clients st !! c0) as [b|] eqn:Hc0; [| injection Hstep as <-; congruence].
        destruct (Hlive c0) as (ch0 & Hch0 & Hopen0); [by rewrite Hc0 |].
        rewrite Hch0 in Hstep. simpl in Hstep.
        rewrite (close_open _ Hopen0) in Hstep. injection Hstep as <-.
        simpl in Hch'. rewrite lookup_insert_ne in Hch' by congruence. congruence.
      * injection Hstep as <-. unfold take in Hch'.
        destruct (send st !! c0) as [ch0|] eqn:Hch0; [| congruence].
        destruct (Chan.recv ch0) as [m ch1 | |]; [| congruence..].
        simpl in Hch'. rewrite lookup_insert_ne in Hch' by congruence. congruence.
Qed.

Lemma sys_run_open_iff acts : ∀ st st',
  live_open st → bounded st → open_iff_registered st →
  sys_run st acts = Some st' → open_iff_registered st'.
Proof.
  induction acts as [|a acts IH]; intros st st' Hlive Hb Hiff Hrun; simpl in Hrun.
  - by injection Hrun as <-.
  - destruct (sys_step_inv st a Hlive Hb) as (st1 & Hstep & Hlive1 & Hb1).
    rewrite Hstep in Hrun. simpl in Hrun.
    apply (IH st1 st' Hlive1 Hb1); [| done].
    by apply (sys_step_open_iff st a).
Qed.

(** X2: from a new hub, every sequence of accepted or refused upgrades,
    forwarded messages, unregisters and write-pump receives runs to the
    end without a panic, and in the state it reaches every channel holds
    at most 256 payloads and a client is in the hub's map exactly if its
    [send] channel is open: the hub never sends on, or closes, a closed
    channel. *)
Theorem reachable_invariants acts :
  ∃ st, sys_run newHub acts = Some st ∧
        (∀ c ch, send st !! c = Some ch → Chan.len ch ≤ 256) ∧
        (∀ c, is_Some (clients st !! c) → is_Some (send st !! c)) ∧
        (∀ c ch, send st !! c = Some ch →
                 (is_Some (clients st !! c) ↔ Chan.closed ch = false)).
Proof.
  destruct newHub_inv as [Hlive0 Hb0].
  destruct (sys_run_inv acts newHub Hlive0 Hb0) as (st & Hrun & Hlive & Hb).
  exists st. split_and!; [done | | |].
  - intros c ch Hch. by destruct (Hb c ch Hch).
  - intros c Hc. destruct (Hlive c Hc) as (ch & -> & _). by eexists.
  - apply (sys_run_open_iff acts newHub st Hlive0 Hb0); [| done].
    intros c ch Hch. simpl in Hch. by rewrite lookup_empty in Hch.
Qed.

(** X3: a client that has been removed from the hub's map never comes
    back: from a state that keeps the invariants, whatever the program
    does next runs to the end without a panic and leaves every allocated
    client that was outside the map outside of it, its channel still
    allocated and, if it was closed, still closed. *)
Theorem removed_client_stays_out acts : ∀ st c,
  live_open st → bounded st →
  is_Some (send st !! c) → clients st !! c = None →
  ∃ st', sys_run st acts = Some st' ∧
         clients st' !! c = None ∧
         is_Some (send st' !! c) ∧
         (is_closed c st = true → is_closed c st' = true).
Proof.
  induction acts as [|a acts IH]; intros st c Hlive Hb Halloc Hout; simpl.
  - by exists st.
  - destruct (sys_step_inv st a Hlive Hb) as (st1 & Hstep & Hlive1 & Hb1).
    rewrite Hstep. simpl. destruct Halloc as [ch Hch].
    destruct (sys_step_stream st a st1 c ch Hlive Hstep Hch) as (ch1 & Hch1 & Hback).
    assert (clients st1 !! c = None) as Hout1.
    { destruct (clients st1 !! c) as [b|] eqn:Hc1; [| done].
      destruct Hback as [[b' Hb'] _]; [by exists b |]. congruence. }
    destruct (IH st1 c Hlive1 Hb1) as (st' & Hrun & Hout' & Halloc' & Hcl');
      [by exists ch1 | done |].
    exists st'. split_and!; [done.. |].
    intros Hcl. apply Hcl'. by apply (sys_step_closed c st a).
Qed.

(** X3 on a hub whose only client has left: a new connection, a
    broadcast and a second unregister later it is still out. *)
Lemma removed_client_stays_out_witness :
  ∃ st', sys_run left_hub [Accepts true; Forwards [x01]; Leaves 1%positive] = Some st' ∧
         clients st' !! 1%positive = None ∧
         is_Some (send st' !! 1%positive) ∧
         (is_closed 1%positive left_hub = true → is_closed 1%positive st' = true).
Proof.
  apply (removed_client_stays_out
           [Accepts true; Forwards [x01]; Leaves 1%positive] left_hub 1%positive).
  - apply (bool_decide_unpack _). by vm_compute.
  - apply (bool_decide_unpack _). by vm_compute.
  - by eexists.
  - reflexivity.
Defined.

(** X4: a broadcast only ever reaches the clients in the hub's map: a
    client outside the map stays outside and its channel is left exactly
    as it was, no client is added to the map, and no channel is created
    or dropped. *)
Theorem broadcast_skips_unregistered m order st st' :
  order ≡ₚ range_keys (clients st) →
  broadcast_loop m order st = Some st' →
  (∀ c, clients st !! c = None →
        clients st' !! c = None ∧ send st' !! c = send st !! c) ∧
  (∀ c, is_Some (clients st' !! c) → is_Some (clients st !! c)) ∧
  (∀ c, is_Some (send st' !! c) ↔ is_Some (send st !! c)).
Proof.
  intros Hperm Hrun.
  assert (NoDup order) as Hnd by (rewrite Hperm; apply NoDup_range_keys).
  assert (∀ c, c ∈ order ↔ is_Some (clients st !! c)) as Hin.
  { intros c. rewrite Hperm. apply elem_of_range_keys. }
  assert (∀ c, clients st !! c = None →
               clients st' !! c = None ∧ send st' !! c = send st !! c) as Hskip.
  { intros c Hnone.
    assert (c ∉ order) as Hout by (rewrite Hin, Hnone; by intros [? ?]).
    destruct (broadcast_loop_other _ _ _ _ _ Hrun Hout) as [-> ->]. done. }
  split_and!; [done | |].
  - intros c Hc'. destruct (clients st !! c) as [b|] eqn:Hc; [by exists b |].
    destruct (Hskip c Hc) as [Hnone _]. rewrite Hnone in Hc'. by destruct Hc'.
  - intros c. destruct (decide (c ∈ order)) as [Hc | Hc].
    + destruct (broadcast_loop_at _ _ _ _ _ Hrun Hnd Hc) as (ch & -> & _ & -> & _).
      destruct (delivered_self m c ch st) as [-> _]. split; by eexists.
    + by destruct (broadcast_loop_other _ _ _ _ _ Hrun Hc) as [_ ->].
Qed.

(** X4 on a hub with one registered client: client [2], which is not in
    the map, is not touched by a broadcast. *)
Lemma broadcast_skips_unregistered_witness :
  clients (mkMachine {[ 1%positive := true ]}
                     {[ 1%positive := Chan.mk [[x01]] 256 false ]}) !! 2%positive = None ∧
  send (mkMachine {[ 1%positive := true ]}
                  {[ 1%positive := Chan.mk [[x01]] 256 false ]}) !! 2%positive
  = send one_client !! 2%positive.
Proof.
  destruct (broadcast_skips_unregistered [x01] [1%positive] one_client
              (mkMachine {[ 1%positive := true ]}
                         {[ 1%positive := Chan.mk [[x01]] 256 false ]}))
    as [Hskip _].
  - reflexivity.
  - reflexivity.
  - apply Hskip. reflexivity.
Defined.

(** X5: an accepted connection gets a client that was neither allocated
    nor in the map before, with an empty open mailbox, and changes
    nothing for any other client; a refused upgrade changes nothing. *)
Theorem serveWs_fresh_client st :
  live_open st →
  serveWs false st = Some st ∧
  ∃ st', serveWs true st = Some st' ∧
    send st !! fresh (dom (send st)) = None ∧
    clients st !! fresh (dom (send st)) = None ∧
    clients st' !! fresh (dom (send st)) = Some true ∧
    send st' !! fresh (dom (send st)) = Some (Chan.mk [] 256 false) ∧
    ∀ c, c ≠ fresh (dom (send st)) →
         clients st' !! c = clients st !! c ∧ send st' !! c = send st !! c.
Proof.
  intros Hlive. split; [done |].
  destruct (serveWs_accept st) as [-> Hfresh]. eexists. split; [done |].
  split_and!; simpl.
  - done.
  - destruct (clients st !! fresh (dom (send st))) as [b|] eqn:Hc; [| done].
    destruct (Hlive (fresh (dom (send st)))) as (ch & Hch & _); [by exists b |].
    congruence.
  - by rewrite lookup_insert_eq.
  - by rewrite lookup_insert_eq.
  - intros c Hne. by rewrite !lookup_insert_ne.
Qed.

(** X5 on the hub with one slow client. *)
Lemma serveWs_fresh_client_witness :
  serveWs false slow_hub = Some slow_hub ∧
  ∃ st', serveWs true slow_hub = Some st' ∧
    send slow_hub !! fresh (dom (send slow_hub)) = None ∧
    clients slow_hub !! fresh (dom (send slow_hub)) = None ∧
    clients st' !! fresh (dom (send slow_hub)) = Some true ∧
    send st' !! fresh (dom (send slow_hub)) = Some (Chan.mk [] 256 false) ∧
    ∀ c, c ≠ fresh (dom (send slow_hub)) →
         clients st' !! c = clients slow_hub !! c ∧ send st' !! c = send slow_hub !! c.
Proof.
  apply (serveWs_fresh_client slow_hub).
  apply (bool_decide_unpack _). by vm_compute.
Defined.

(** ** The pumps *)

Lemma hub_events_app effs effs' :
  hub_events (effs ++ effs') = hub_events effs ++ hub_events effs'.
Proof. apply omap_app. Qed.

Lemma conn_calls_app effs effs' :
  conn_calls (effs ++ effs') = conn_calls effs ++ conn_calls effs'.
Proof. apply omap_app. Qed.

Lemma log_read_error_events err :
  hub_events (log_read_error err) = [] ∧ conn_calls (log_read_error err) = [].
Proof. unfold log_read_error. by destruct (IsUnexpectedCloseError _ _). Qed.

Lemma ReadMessage_verbatim limit data message :
  ReadMessage limit data = inl message → message = data.
Proof. unfold ReadMessage. case_decide; [done |]. by intros [= <-]. Qed.

Lemma readPump_loop_reads_well inbound :
  Forall (λ i, reads_well i = true) inbound →
  ∃ effs, readPump_loop 512 inbound = (effs, Parked) ∧
          hub_events effs = Broadcast <$> data_frames inbound.
Proof.
  induction 1 as [|i inbound Hi _ (effs & Hloop & Hev)]; simpl.
  - by exists [].
  - destruct i as [data | | err]; [| | done].
    + simpl in Hi. apply bool_decide_eq_true in Hi.
      unfold ReadMessage. rewrite decide_False by lia. rewrite Hloop.
      eexists. split; [done |]. unfold hub_events, data_frames in *. simpl.
      f_equal. exact Hev.
    + rewrite Hloop. eexists. split; [done |]. done.
Qed.

Lemma readPump_loop_fails bad rest :
  reads_well bad = false →
  ∃ effs, readPump_loop 512 (bad :: rest) = (effs, Returned) ∧ hub_events effs = [].
Proof.
  intros Hbad. destruct bad as [data | | err]; [| done |]; simpl.
  - simpl in Hbad. apply bool_decide_eq_false in Hbad.
    unfold ReadMessage. rewrite decide_True by lia.
    eexists. split; [done |]. by destruct (log_read_error_events ErrReadLimit).
  - eexists. split; [done |]. by destruct (log_read_error_events err).
Qed.

Lemma first_bad_read (inbound : list Inbound) :
  Forall (λ i, reads_well i = true) inbound ∨
  ∃ pre bad rest, inbound = pre ++ bad :: rest ∧
                  Forall (λ i, reads_well i = true) pre ∧ reads_well bad = false.
Proof.
  induction inbound as [|i inbound IH]; [by left |].
  destruct (reads_well i) eqn:Hi.
  - destruct IH as [Hall | (pre & bad & rest & -> & Hpre & Hbad)].
    + left. by constructor.
    + right. exists (i :: pre), bad, rest. split_and!; [done | by constructor | done].
  - right. by exists [], i, inbound.
Qed.

(** X6: what [readPump] sends to the hub.  While every read goes well
    (pongs, and data messages of no more than 512 bytes) the pump is
    still reading and has sent the hub one broadcast for each data
    message, verbatim and in the order of arrival, and nothing else.  At
    the first read that does not (a failure, or a data message of more
    than 512 bytes) the pump returns, whatever else the connection
    holds: it has sent the hub the broadcasts for the data messages
    before that read, then one unregister of its own client, and
    nothing for what comes after.  One or the other is the case for
    everything a connection can deliver. *)
Theorem readPump_hub_events c :
  (∀ inbound,
     Forall (λ i, reads_well i = true) inbound →
     (readPump c inbound).2 = Parked ∧
     hub_events (readPump c inbound).1 = Broadcast <$> data_frames inbound) ∧
  (∀ pre bad rest,
     Forall (λ i, reads_well i = true) pre → reads_well bad = false →
     (readPump c (pre ++ bad :: rest)).2 = Returned ∧
     hub_events (readPump c (pre ++ bad :: rest)).1
     = (Broadcast <$> data_frames pre) ++ [Unregister c]) ∧
  (∀ inbound : list Inbound,
     Forall (λ i, reads_well i = true) inbound ∨
     ∃ pre bad rest, inbound = pre ++ bad :: rest ∧
                     Forall (λ i, reads_well i = true) pre ∧ reads_well bad = false).
Proof.
  split_and!.
  - intros inbound Hall.
    destruct (readPump_loop_reads_well inbound Hall) as (effs & Hloop & Hev).
    unfold readPump. rewrite Hloop. split; [done |].
    cbn [fst]. rewrite !hub_events_app, Hev. by rewrite app_nil_r.
  - intros pre bad rest Hpre Hbad.
    destruct (readPump_loop_reads_well pre Hpre) as (effs & Hloop & Hev).
    destruct (readPump_loop_fails bad rest Hbad) as (effs' & Hloop' & Hev').
    unfold readPump. rewrite (readPump_loop_app 512 pre _ effs Hloop), Hloop'.
    split; [done |]. cbn [fst].
    rewrite !hub_events_app, Hev, Hev'. by rewrite app_nil_r.
  - apply first_bad_read.
Qed.

Lemma coalesce_write_side n : ∀ ch,
  hub_events (coalesce n ch).1.1 = [] ∧
  Forall (λ call, is_read call = false) (conn_calls (coalesce n ch).1.1).
Proof.
  induction n as [|n IH]; intros ch; simpl; [done |].
  destruct (Chan.recv ch) as [m ch' | |].
  - destruct (IH ch') as [Hev Hcalls].
    destruct (coalesce n ch') as [[effs ch''] fin]. simpl in *.
    split; [done |]. by repeat constructor.
  - destruct (IH ch) as [Hev Hcalls].
    destruct (coalesce n ch) as [[effs ch''] fin]. simpl in *.
    split; [done |]. by repeat constructor.
  - split; [done |]. by repeat constructor.
Qed.

Lemma write_turn_write_side w ch :
  hub_events (write_turn w ch).1.1 = [] ∧
  Forall (λ call, is_read call = false) (conn_calls (write_turn w ch).1.1).
Proof.
  destruct w as [a b ops | ok]; simpl.
  - destruct (Chan.recv ch) as [m ch1 | |].
    + destruct a.
      * destruct (coalesce_write_side (Chan.len (foldl hub_touch ch1 ops))
                    (foldl hub_touch ch1 ops)) as [Hev Hcalls].
        destruct (coalesce _ _) as [[effs ch2] fin]. simpl in *.
        destruct fin; simpl.
        -- rewrite hub_events_app, conn_calls_app, Hev. split; [done |].
           repeat constructor. apply Forall_app. split; [done |].
           by repeat constructor.
        -- split; [done |]. by repeat constructor.
      * split; [done |]. by repeat constructor.
    + split; [done |]. by repeat constructor.
    + split; [done | constructor].
  - split; [done |]. by repeat constructor.
Qed.

Lemma writePump_loop_write_side sched : ∀ ch,
  hub_events (writePump_loop sched ch).1.1 = [] ∧
  Forall (λ call, is_read call = false) (conn_calls (writePump_loop sched ch).1.1).
Proof.
  induction sched as [|[ch0 | w] sched IH]; intros ch; simpl; [done | apply IH |].
  destruct (write_turn_write_side w ch) as [Hev Hcalls].
  destruct (write_turn w ch) as [[effs ch'] []]; simpl in *; [| done..].
  destruct (IH ch') as [Hev' Hcalls'].
  destruct (writePump_loop sched ch') as [[more ch''] s]. simpl in *.
  rewrite hub_events_app, conn_calls_app, Hev, Hev'. split; [done |].
  by apply Forall_app.
Qed.

Lemma readPump_loop_read_side limit inbound :
  Forall (λ call, is_write call = false)
         (conn_calls (readPump_loop limit inbound).1).
Proof.
  induction inbound as [|i inbound IH]; [constructor |].
  destruct i as [data | | err]; cbn [readPump_loop].
  - destruct (ReadMessage limit data) as [message | err].
    + by destruct (readPump_loop limit inbound) as [effs s].
    + cbn [fst]. destruct (log_read_error_events err) as [_ ->]. constructor.
  - destruct (readPump_loop limit inbound) as [effs s]. simpl in *.
    by constructor.
  - cbn [fst]. destruct (log_read_error_events err) as [_ ->]. constructor.
Qed.

(** X7: each pump keeps to its side of the connection.  [readPump]
    never writes to it (no [WriteMessage], no writer), so [writePump] is
    its only writer; [writePump] makes no read-side call and sends
    nothing to the hub: a failed write closes the connection and leaves
    the unregistering to the read pump. *)
Theorem pumps_keep_to_their_side :
  (∀ c inbound,
     Forall (λ call, is_write call = false) (conn_calls (readPump c inbound).1)) ∧
  (∀ sched ch,
     hub_events (writePump sched ch).1.1 = [] ∧
     Forall (λ call, is_read call = false) (conn_calls (writePump sched ch).1.1)).
Proof.
  split.
  - intros c inbound. unfold readPump.
    pose proof (readPump_loop_read_side 512 inbound) as Hbody.
    destruct (readPump_loop 512 inbound) as [body s]. simpl in *.
    repeat constructor.
    change (Forall (λ call, is_write call = false)
              (conn_calls (body ++ match s with
                                   | Returned => [ToHub (Unregister c); Conn ConnClose]
                                   | _ => []
                                   end))).
    rewrite conn_calls_app. apply Forall_app. split; [done |].
    destruct s; by repeat constructor.
  - intros sched ch. unfold writePump.
    destruct (writePump_loop_write_side sched ch) as [Hev Hcalls].
    destruct (writePump_loop sched ch) as [[body ch'] s]. simpl in *.
    change (hub_events (body ++ match s with
                                | Returned => [TickerStop; Conn ConnClose]
                                | _ => []
                                end) = [] ∧
            Forall (λ call, is_read call = false)
              (conn_calls (body ++ match s with
                                   | Returned => [TickerStop; Conn ConnClose]
                                   | _ => []
                                   end))).
    rewrite hub_events_app, conn_calls_app, Hev. split.
    + by destruct s.
    + apply Forall_app. split; [done |]. destruct s; by repeat constructor.
Qed.

Lemma frames_separated_then ps : ∀ ty acc more,
  frames (Some (ty, acc)) (conn_calls (separated ps ++ Conn WriterClose :: more)) =
    (ty, acc ++ (ps ≫= λ p, newline ++ p)) :: frames None (conn_calls more).
Proof.
  induction ps as [|p ps IH]; intros ty acc more; simpl.
  - by rewrite app_nil_r.
  - rewrite IH. by rewrite <- !app_assoc.
Qed.

(** X8: what becomes of the payloads that are queued when the hub
    closes the mailbox depends on the connection.  If the pump's writes
    succeed, its next turn sends them all as one text frame in their
    order, and only the turn after that finds the mailbox closed, sends
    the close message, stops the ticker, closes the connection and
    returns, whatever follows in the schedule.  If [NextWriter] fails,
    as it may once the read pump has closed the connection, the pump
    returns at once: it has taken the first payload, sends neither a
    frame nor a close message, and leaves the rest in the mailbox.  If
    the writer fails to close, the pump returns with the mailbox emptied
    and without sending a close message. *)
Theorem writePump_flushes_before_close p1 rest cap :
  (∀ ops a b ops' more, ∃ effs,
     writePump (Turn (OnSend true true ops) :: Turn (OnSend a b ops') :: more)
               (Chan.mk (p1 :: rest) cap true)
     = (effs, Chan.mk [] cap true, Returned) ∧
     frames None (conn_calls effs) =
       [(TextMessage, join newline (p1 :: rest)); (CloseMessage, [])] ∧
     ∃ body, effs = body ++ [Conn (WriteMessage CloseMessage []); TickerStop;
                             Conn ConnClose]) ∧
  (∀ b ops more,
     writePump (Turn (OnSend false b ops) :: more) (Chan.mk (p1 :: rest) cap true)
     = ([NewTicker 54; Conn (SetWriteDeadline 10); Conn (NextWriter TextMessage);
         TickerStop; Conn ConnClose], Chan.mk rest cap true, Returned) ∧
     frames None (conn_calls [NewTicker 54; Conn (SetWriteDeadline 10);
                              Conn (NextWriter TextMessage);
                              TickerStop; Conn ConnClose]) = []) ∧
  (∀ ops more,
     writePump (Turn (OnSend true false ops) :: more) (Chan.mk (p1 :: rest) cap true)
     = ([NewTicker 54; Conn (SetWriteDeadline 10); Conn (NextWriter TextMessage);
         Conn (WriterWrite p1)] ++ separated rest
        ++ [Conn WriterClose; TickerStop; Conn ConnClose],
        Chan.mk [] cap true, Returned) ∧
     ∀ ty data, Conn (WriteMessage ty data) ∉ separated rest).
Proof.
  split_and!.
  - intros ops a b ops' more. eexists. split_and!.
    + unfold writePump. cbn [writePump_loop write_turn].
      unfold Chan.recv at 1. cbn [Chan.buf Chan.cap Chan.closed].
      rewrite hub_touches_closed by done.
      unfold Chan.len. cbn [Chan.buf]. rewrite coalesce_all.
      unfold Chan.recv. cbn [Chan.buf Chan.closed]. reflexivity.
    + rewrite <- !app_assoc. simpl.
      change (frames (Some (TextMessage, [] ++ p1))
                (conn_calls (separated rest
                             ++ Conn WriterClose
                                :: [Conn (SetWriteDeadline 10);
                                    Conn (WriteMessage CloseMessage []);
                                    TickerStop; Conn ConnClose]))
              = [(TextMessage, join newline (p1 :: rest)); (CloseMessage, [])]).
      by rewrite frames_separated_then, join_cons.
    + eexists ([NewTicker 54; Conn (SetWriteDeadline 10); Conn (NextWriter TextMessage);
                Conn (WriterWrite p1)] ++ separated rest
               ++ [Conn WriterClose; Conn (SetWriteDeadline 10)]).
      by rewrite <- !app_assoc.
  - intros b ops more. split; reflexivity.
  - intros ops more. split.
    + unfold writePump. cbn [writePump_loop write_turn].
      unfold Chan.recv at 1. cbn [Chan.buf Chan.cap Chan.closed].
      rewrite hub_touches_closed by done.
      unfold Chan.len. cbn [Chan.buf]. rewrite coalesce_all.
      by rewrite <- !app_assoc.
    + intros ty data. unfold separated. rewrite list_elem_of_bind.
      intros (p & Hin & _). rewrite !elem_of_cons in Hin.
      destruct Hin as [? | [? | Hin]]; [done.. |]. by apply elem_of_nil in Hin.
Qed.

(** X9: all a turn of the write pump does to its mailbox is to take
    payloads from its head, and since it takes as many payloads as it
    has just counted, it never waits inside the coalescing loop.  With
    the hub at rest during the turn the capacity and the closed flag are
    as before and what is left is a tail of what was queued.  With the
    hub at work the capacity is as before, a closed mailbox stays
    closed, and what was queued followed by some of what the hub offered
    is what the pump took followed by what is left. *)
Theorem write_turn_only_dequeues w ch :
  (write_turn w ch).2 ≠ Stuck ∧
  Chan.cap (write_turn w ch).1.2 = Chan.cap ch ∧
  (meanwhile w = [] →
     Chan.closed (write_turn w ch).1.2 = Chan.closed ch ∧
     ∃ got, Chan.buf ch = got ++ Chan.buf (write_turn w ch).1.2) ∧
  (Chan.closed ch = true → Chan.closed (write_turn w ch).1.2 = true) ∧
  ∃ got arrived,
    Chan.buf ch ++ arrived = got ++ Chan.buf (write_turn w ch).1.2 ∧
    arrived `sublist_of` offered (meanwhile w).
Proof.
  destruct (write_turn w ch) as [[effs ch'] s] eqn:Hturn. simpl.
  destruct (write_turn_takes w ch effs ch' s Hturn) as (Hcap & Hcl & Hbuf).
  split_and!; [| done | | done..].
  - intros ->. by apply (write_turn_never_stuck w ch effs ch').
  - intros Hrest.
    by destruct (write_turn_takes_at_rest w ch effs ch' s Hrest Hturn) as (_ & ? & ?).
Qed.

(** ** The frame format *)

Lemma split_nonempty sep data : split sep data ≠ [].
Proof.
  destruct data as [|b data]; simpl; [done |].
  case_decide; [done |]. by destruct (split sep data).
Qed.

Lemma join_cons_byte sep b piece pieces :
  join [sep] ((b :: piece) :: pieces) = b :: join [sep] (piece :: pieces).
Proof. by destruct pieces. Qed.

(** X10: the script's [split] loses nothing: joining the pieces of any
    frame with the separator gives the frame back, there is one piece
    more than there are separators in the frame, and no piece holds a
    separator. *)
Theorem split_then_join sep data :
  join [sep] (split sep data) = data ∧
  length (split sep data) = S (length (filter (λ b, b = sep) data)) ∧
  Forall (λ piece, sep ∉ piece) (split sep data).
Proof.
  induction data as [|b data (Hjoin & Hlen & Hfree)]; simpl.
  - split_and!; [done.. |]. repeat constructor. by intros ?%elem_of_nil.
  - rewrite filter_cons. case_decide as Hb.
    + subst b. split_and!.
      * destruct (split sep data) as [|piece pieces] eqn:Hs;
          [by apply split_nonempty in Hs |].
        change (join [sep] ([] :: piece :: pieces))
          with ([] ++ [sep] ++ join [sep] (piece :: pieces)).
        by rewrite Hjoin.
      * simpl. by rewrite Hlen.
      * constructor; [by intros ?%elem_of_nil | done].
    + destruct (split sep data) as [|piece pieces] eqn:Hs;
        [by apply split_nonempty in Hs |].
      split_and!.
      * by rewrite join_cons_byte, Hjoin.
      * done.
      * apply Forall_cons in Hfree as [Hpiece Hpieces]. constructor; [| done].
        intros [-> | Hin]%elem_of_cons; done.
Qed.

(** ** A client that does not keep up *)

Lemma forwards_skip ms : ∀ st c,
  live_open st → bounded st → clients st !! c = None →
  ∃ st', sys_run st (Forwards <$> ms) = Some st' ∧
         clients st' !! c = None ∧ send st' !! c = send st !! c.
Proof.
  induction ms as [|m ms IH]; intros st c Hlive Hb Hout; simpl.
  - by exists st.
  - destruct (sys_step_inv st (Forwards m) Hlive Hb) as (st1 & Hstep & Hlive1 & Hb1).
    cbn [sys_step hub_step] in Hstep. rewrite Hstep. simpl.
    assert (c ∉ range_keys (clients st)) as Hnot.
    { rewrite elem_of_range_keys, Hout. by intros [? ?]. }
    destruct (broadcast_loop_other _ _ _ _ _ Hstep Hnot) as [Hc1 Hs1].
    destruct (IH st1 c Hlive1 Hb1) as (st' & Hrun & Hc' & Hs'); [congruence |].
    exists st'. split_and!; [done.. |]. congruence.
Qed.

Lemma broadcasts_fill ms : ∀ st c queued,
  live_open st → bounded st →
  is_Some (clients st !! c) → send st !! c = Some (Chan.mk queued 256 false) →
  ∃ st', sys_run st (Forwards <$> ms) = Some st' ∧
         send st' !! c =
           Some (Chan.mk (firstn 256 (queued ++ ms)) 256
                         (bool_decide (256 < length (queued ++ ms)))) ∧
         (is_Some (clients st' !! c) ↔ length (queued ++ ms) ≤ 256).
Proof.
  induction ms as [|m ms IH]; intros st c queued Hlive Hb Hc Hch.
  - destruct (Hb c _ Hch) as [_ Hlen]. unfold Chan.len in Hlen. simpl in Hlen.
    exists st. rewrite app_nil_r, take_ge by done.
    rewrite bool_decide_eq_false_2 by lia. by split_and!.
  - destruct (Hb c _ Hch) as [_ Hlen]. unfold Chan.len in Hlen. simpl in Hlen.
    destruct (sys_step_inv st (Forwards m) Hlive Hb) as (st1 & Hstep & Hlive1 & Hb1).
    cbn [fmap list_fmap sys_run]. rewrite Hstep. simpl.
    cbn [sys_step hub_step] in Hstep. unfold on_broadcast in Hstep.
    destruct (decide (length queued < 256)) as [Hroom | Hfull].
    + destruct (broadcast_enqueues m (range_keys (clients st)) st c _ Hlive
                  (reflexivity _) Hc Hch) as (st2 & Hloop & Hc2 & Hch2).
      { unfold Chan.full, Chan.len. simpl. lia. }
      assert (st2 = st1) as -> by congruence. simpl in Hch2.
      destruct (IH st1 c (queued ++ [m]) Hlive1 Hb1) as (st' & Hrun & Hch' & Hc');
        [by rewrite Hc2 | done |].
      exists st'. rewrite <- app_assoc in Hch', Hc'. by split_and!.
    + destruct (broadcast_tears_down m (range_keys (clients st)) st c _ Hlive
                  (reflexivity _) Hc Hch) as (st2 & Hloop & Hc2 & Hch2).
      { unfold Chan.full, Chan.len. simpl. lia. }
      assert (st2 = st1) as -> by congruence. simpl in Hch2.
      destruct (forwards_skip ms st1 c Hlive1 Hb1 Hc2) as (st' & Hrun & Hc' & Hch').
      exists st'. rewrite length_app. simpl.
      rewrite bool_decide_eq_true_2 by lia.
      rewrite take_app_length' by lia. split_and!; [done | congruence |].
      rewrite Hc'. split; [by intros [? ?] | lia].
Qed.

(** X11: how long a client that does not read survives.  For a
    registered client with [queued] in its mailbox and no receive by its
    write pump, a run of broadcasts returns; the mailbox then holds the
    first 256 of the payloads queued and broadcast, in order; the client
    is still registered exactly if there were no more than 256 of them,
    and otherwise its channel has been closed. *)
Theorem slow_client_cut_off ms st c queued :
  live_open st → bounded st →
  is_Some (clients st !! c) → send st !! c = Some (Chan.mk queued 256 false) →
  ∃ st', sys_run st (Forwards <$> ms) = Some st' ∧
         send st' !! c =
           Some (Chan.mk (firstn 256 (queued ++ ms)) 256
                         (bool_decide (256 < length (queued ++ ms)))) ∧
         (is_Some (clients st' !! c) ↔ length (queued ++ ms) ≤ 256).
Proof. apply broadcasts_fill. Qed.

(** X11 on a new client and 300 broadcasts. *)
Lemma slow_client_cut_off_witness :
  ∃ st', sys_run one_client (Forwards <$> replicate 300 [x07]) = Some st' ∧
         send st' !! 1%positive =
           Some (Chan.mk (firstn 256 ([] ++ replicate 300 [x07])) 256
                         (bool_decide (256 < length ([] ++ replicate 300 [x07])))) ∧
         (is_Some (clients st' !! 1%positive)
          ↔ length ([] ++ replicate 300 [x07]) ≤ 256).
Proof.
  apply (slow_client_cut_off (replicate 300 [x07]) one_client 1%positive []).
  - apply (bool_decide_unpack _). by vm_compute.
  - apply (bool_decide_unpack _). by vm_compute.
  - by exists true.
  - reflexivity.
Defined.

(** ** The capacity of a mailbox *)

(** C10: [serveWs] gives every client it registers an empty mailbox of
    capacity 256; in every state the program reaches every mailbox has
    capacity 256; and there a broadcast, whatever the order of its loop,
    returns and removes a registered client and closes its mailbox
    exactly if 256 payloads are pending in that mailbox.  More
    generally, in every state where the clients of the map have open
    channels of capacity 256 that hold no more than that, a broadcast
    returns, and for a registered client with 256 payloads pending it
    leaves the client out of the map and the mailbox closed with its 256
    payloads, while with fewer pending it leaves the client in the map
    and the payload at the end of the mailbox.  A mailbox with 256
    pending is reached by 256 broadcasts to a client that does not
    receive, and the next broadcast tears that client down. *)
Theorem mailbox_capacity_256 :
  (∀ st, ∃ st',
     serveWs true st = Some st' ∧
     clients st' !! fresh (dom (send st)) = Some true ∧
     send st' !! fresh (dom (send st)) = Some (Chan.mk [] 256 false)) ∧
  (∀ acts, ∃ st,
     sys_run newHub acts = Some st ∧
     (∀ c ch, send st !! c = Some ch → Chan.cap ch = 256) ∧
     (∀ m order c ch,
        order ≡ₚ range_keys (clients st) →
        is_Some (clients st !! c) → send st !! c = Some ch →
        ∃ st', broadcast_loop m order st = Some st' ∧
               (clients st' !! c = None ∧ is_closed c st' = true
                ↔ Chan.len ch = 256))) ∧
  (∀ st m order c ch,
     live_open st → bounded st →
     order ≡ₚ range_keys (clients st) →
     is_Some (clients st !! c) → send st !! c = Some ch →
     ∃ st', broadcast_loop m order st = Some st' ∧
            Chan.len ch ≤ 256 ∧
            (Chan.len ch = 256 →
               clients st' !! c = None ∧
               send st' !! c = Some (Chan.mk (Chan.buf ch) 256 true)) ∧
            (Chan.len ch < 256 →
               clients st' !! c = clients st !! c ∧
               send st' !! c = Some (Chan.mk (Chan.buf ch ++ [m]) 256 false))) ∧
  (∃ st c,
     sys_run newHub (Accepts true :: (Forwards <$> replicate 256 [x00])) = Some st ∧
     is_Some (clients st !! c) ∧
     send st !! c = Some (Chan.mk (replicate 256 [x00]) 256 false) ∧
     ∀ m, ∃ st', hub_step st (Broadcast m) = Some st' ∧
                 clients st' !! c = None ∧
                 send st' !! c = Some (Chan.mk (replicate 256 [x00]) 256 true)).
Proof.
  assert (∀ st m order c ch,
     live_open st → bounded st →
     order ≡ₚ range_keys (clients st) →
     is_Some (clients st !! c) → send st !! c = Some ch →
     ∃ st', broadcast_loop m order st = Some st' ∧
            Chan.len ch ≤ 256 ∧
            (Chan.len ch = 256 →
               clients st' !! c = None ∧
               send st' !! c = Some (Chan.mk (Chan.buf ch) 256 true)) ∧
            (Chan.len ch < 256 →
               clients st' !! c = clients st !! c ∧
               send st' !! c = Some (Chan.mk (Chan.buf ch ++ [m]) 256 false)))
    as Hstep.
  { intros st m order c ch Hlive Hb Hperm Hc Hch.
    destruct (Hb c ch Hch) as [Hcap Hlen].
    destruct (decide (Chan.full ch)) as [Hfull | Hroom].
    - destruct (broadcast_tears_down m order st c ch) as (st' & Hloop & Hgone & Hcl);
        [done.. |].
      exists st'. unfold Chan.full in Hfull. rewrite Hcap in Hcl.
      split_and!; [done | done | done | lia].
    - destruct (broadcast_enqueues m order st c ch) as (st' & Hloop & Hsame & Hq);
        [done.. |].
      exists st'. unfold Chan.full in Hroom. rewrite Hcap in Hq.
      split_and!; [done | done | lia | done]. }
  split_and!.
  - intros st. destruct (serveWs_accept st) as [-> _]. eexists. split; [done |].
    simpl. by rewrite !lookup_insert_eq.
  - intros acts. destruct newHub_inv as [Hlive0 Hb0].
    destruct (sys_run_inv acts newHub Hlive0 Hb0) as (st & Hrun & Hlive & Hb).
    exists st. split_and!; [done | |].
    + intros c ch Hch. by destruct (Hb c ch Hch).
    + intros m order c ch Hperm Hc Hch. destruct (Hb c ch Hch) as [Hcap Hlen].
      destruct (decide (Chan.full ch)) as [Hfull | Hroom].
      * destruct (broadcast_tears_down m order st c ch) as (st' & Hloop & Hgone & Hcl);
          [done.. |].
        exists st'. split; [done |]. unfold is_closed. rewrite Hcl. simpl.
        unfold Chan.full in Hfull. split; [lia | done].
      * destruct (broadcast_enqueues m order st c ch) as (st' & Hloop & Hsame & _);
          [done.. |].
        exists st'. split; [done |]. unfold Chan.full in Hroom. split; [| lia].
        intros [Hgone _]. rewrite Hsame in Hgone. rewrite Hgone in Hc.
        by destruct Hc.
  - exact Hstep.
  - destruct newHub_inv as [Hlive0 Hb0].
    destruct (sys_run_inv [Accepts true] newHub Hlive0 Hb0) as (st0 & Hrun0 & Hlive & Hb).
    cbn [sys_run sys_step] in Hrun0.
    destruct (serveWs_accept newHub) as [Hacc _]. rewrite Hacc in Hrun0.
    simpl in Hrun0. injection Hrun0 as <-.
    set (c := fresh (dom (send newHub))) in *.
    set (st0 := mkMachine _ _) in *.
    assert (is_Some (clients st0 !! c)) as Hc by (simpl; by rewrite lookup_insert_eq).
    assert (send st0 !! c = Some (Chan.mk [] 256 false)) as Hch
      by (simpl; by rewrite lookup_insert_eq).
    destruct (broadcasts_fill (replicate 256 [x00]) st0 c [] Hlive Hb Hc Hch)
      as (st & Hrun & Hch' & Hc').
    rewrite app_nil_l, length_replicate in Hch', Hc'.
    rewrite take_ge in Hch' by (by rewrite length_replicate).
    rewrite bool_decide_eq_false_2 in Hch' by lia.
    destruct (sys_run_inv (Forwards <$> replicate 256 [x00]) st0 Hlive Hb)
      as (st1 & Hrun1 & Hlive1 & Hb1).
    assert (st1 = st) as -> by congruence.
    exists st, c. split_and!.
    + cbn [sys_run sys_step]. rewrite Hacc. exact Hrun.
    + apply Hc'. lia.
    + done.
    + intros m.
      destruct (Hstep st m (range_keys (clients st)) c _ Hlive1 Hb1 (reflexivity _)
                  (proj2 Hc' ltac:(lia)) Hch') as (st' & Hloop & _ & Hfull & _).
      exists st'. split; [done |]. apply Hfull.
      unfold Chan.len. cbn [Chan.buf]. apply length_replicate.
Qed.

(** C10 on a client that is 256 payloads behind: the next broadcast
    closes its mailbox and takes it out of the map. *)
Lemma mailbox_capacity_256_witness :
  ∃ st', broadcast_loop [x01] [1%positive] slow_hub = Some st' ∧
         clients st' !! 1%positive = None ∧
         send st' !! 1%positive = Some (Chan.mk (replicate 256 [x00]) 256 true).
Proof.
  destruct (proj1 (proj2 (proj2 mailbox_capacity_256)) slow_hub [x01] [1%positive]
              1%positive (Chan.mk (replicate 256 [x00]) 256 false))
    as (st' & Hloop & _ & Hfull & _).
  - apply (bool_decide_unpack _). by vm_compute.
  - apply (bool_decide_unpack _). by vm_compute.
  - vm_compute. reflexivity.
  - by exists true.
  - reflexivity.
  - exists st'. split; [exact Hloop |]. apply Hfull. by vm_compute.
Defined.

(** X30: what a turn of the hub's loop does to the mailbox of one
    client.  Where the clients of the map have open channels, and for a
    client whose channel is closed if it is out of the map, a broadcast
    returns, whatever the order of its loop, and leaves the client's
    channel as [hub_touch] leaves it for [Offers]: the payload appended
    if the channel is open and has room, the channel closed if it is
    open and full, a closed channel as it was.  An unregister of the
    client leaves it as [hub_touch] does for [Closes].  An unregister
    of another client and a register leave it as it was. *)
Theorem hub_touch_is_the_hub st c ch :
  live_open st → send st !! c = Some ch →
  (clients st !! c = None → Chan.closed ch = true) →
  (∀ m order, order ≡ₚ range_keys (clients st) →
     ∃ st', broadcast_loop m order st = Some st' ∧
            send st' !! c = Some (hub_touch ch (Offers m))) ∧
  (∃ st', hub_step st (Unregister c) = Some st' ∧
          send st' !! c = Some (hub_touch ch Closes)) ∧
  (∀ c', c' ≠ c → is_Some (hub_step st (Unregister c')) ∧
     ∀ st', hub_step st (Unregister c') = Some st' → send st' !! c = Some ch) ∧
  (∀ c', ∃ st', hub_step st (Register c') = Some st' ∧ send st' !! c = Some ch).
Proof.
  intros Hlive Hch Hout. split_and!.
  - intros m order Hperm.
    destruct (broadcast_pointwise m order st Hlive Hperm) as (st' & Hrun & Hpt).
    exists st'. split; [done |]. destruct (Hpt c) as [Hnone Hsome].
    destruct (clients st !! c) as [b|] eqn:Hc.
    + destruct (Hlive c) as (ch0 & Hch0 & Hopen); [by rewrite Hc |].
      assert (ch0 = ch) as -> by congruence.
      destruct (Hsome ch) as [-> _]; [by eexists | done |].
      unfold delivered, hub_touch, Chan.try_send. rewrite Hopen.
      case_decide; simpl; by rewrite lookup_insert_eq.
    + destruct (Hnone eq_refl) as [_ ->]. by rewrite hub_touch_closed by auto.
  - cbn [hub_step]. destruct (clients st !! c) as [b|] eqn:Hc.
    + destruct (Hlive c) as (ch0 & Hch0 & Hopen); [by rewrite Hc |].
      assert (ch0 = ch) as -> by congruence.
      rewrite (on_unregister_present c st ch) by (by rewrite ?Hc).
      eexists. split; [done |]. simpl. rewrite lookup_insert_eq.
      unfold hub_touch. by rewrite Hopen.
    + rewrite (on_unregister_absent c st Hc). exists st. split; [done |].
      by rewrite hub_touch_closed by auto.
  - intros c' Hne. cbn [hub_step]. destruct (clients st !! c') as [b|] eqn:Hc'.
    + destruct (Hlive c') as (ch' & Hch' & Hopen); [by rewrite Hc' |].
      rewrite (on_unregister_present c' st ch') by (by rewrite ?Hc').
      split; [done |]. intros st' [= <-]. simpl. by rewrite lookup_insert_ne.
    + rewrite (on_unregister_absent c' st Hc'). split; [done |]. by intros st' [= <-].
  - intros c'. by eexists.
Qed.

(** X30 on a new client that is unregistered. *)
Lemma hub_touch_is_the_hub_witness :
  ∃ st', hub_step one_client (Unregister 1%positive) = Some st' ∧
         send st' !! 1%positive = Some (hub_touch (Chan.make 256) Closes).
Proof.
  apply (proj1 (proj2 (hub_touch_is_the_hub one_client 1%positive (Chan.make 256)
                         ltac:(apply (bool_decide_unpack _); by vm_compute)
                         eq_refl
                         ltac:(intros H; discriminate H)))).
Defined.

(** X12: from the hub to the page.  Up to 256 payloads are broadcast to
    a registered client with an empty mailbox; its write pump wakes and
    takes the first; the hub goes on and broadcasts [ms'] before the
    pump has its writer and counts the mailbox.  With its writes
    succeeding the pump then sends one text frame: the payloads of the
    first broadcasts followed by those of [ms'] that the hub has put in
    the mailbox by then (all of them when they fit), joined by line
    feeds in the order of the broadcasts; the mailbox is left empty; and
    the script's [split] of the frame gives back exactly the payloads of
    the frame provided none of them holds a line feed. *)
Theorem broadcasts_reach_the_page m ms ms' st c :
  live_open st → bounded st →
  is_Some (clients st !! c) → send st !! c = Some (Chan.mk [] 256 false) →
  length (m :: ms) ≤ 256 →
  ∃ st1 st2 at_len effs arrived,
    sys_run st (Forwards <$> m :: ms) = Some st1 ∧
    send st1 !! c = Some (Chan.mk (m :: ms) 256 false) ∧
    sys_run st1 (Takes c :: (Forwards <$> ms')) = Some st2 ∧
    send st2 !! c = Some at_len ∧
    at_len = foldl hub_touch (Chan.mk ms 256 false) (Offers <$> ms') ∧
    Chan.buf at_len = ms ++ arrived ∧
    (length ms + length ms' ≤ 256 → arrived = ms') ∧
    write_turn (OnSend true true (Offers <$> ms')) (Chan.mk (m :: ms) 256 false)
      = (effs, Chan.mk [] 256 (Chan.closed at_len), Continue) ∧
    frames None (conn_calls effs) = [(TextMessage, join newline (m :: ms ++ arrived))] ∧
    (Forall (λ p, x0a ∉ p) (m :: ms ++ arrived) →
     split x0a (join newline (m :: ms ++ arrived)) = m :: ms ++ arrived).
Proof.
  intros Hlive Hb Hc Hch Hlen. simpl in Hlen.
  destruct (broadcasts_fill (m :: ms) st c [] Hlive Hb Hc Hch) as (st1 & Hrun & Hch1 & Hc1).
  rewrite app_nil_l, take_ge, bool_decide_eq_false_2 in Hch1 by (simpl; lia).
  rewrite app_nil_l in Hc1. apply proj2 in Hc1. specialize (Hc1 ltac:(simpl; lia)).
  destruct (sys_run_inv (Forwards <$> m :: ms) st Hlive Hb) as (st1' & Hrun' & Hlive1 & Hb1).
  assert (st1' = st1) as -> by congruence.
  destruct (take_inv c st1 Hlive1 Hb1) as [Hlive2 Hb2].
  assert (send (take c st1) !! c = Some (Chan.mk ms 256 false)) as Hch2.
  { unfold take. rewrite Hch1. unfold Chan.recv. simpl. by rewrite lookup_insert_eq. }
  assert (is_Some (clients (take c st1) !! c)) as Hc2 by (by rewrite take_clients).
  destruct (broadcasts_fill ms' (take c st1) c ms Hlive2 Hb2 Hc2 Hch2)
    as (st2 & Hrun2 & Hch3 & _).
  rewrite <- offers_fill in Hch3 by lia.
  destruct (write_turn_frame m ms 256 false (Offers <$> ms'))
    as (effs & arrived & Hbuf & _ & _ & Hfit & Hturn & Hframes & Hsplit).
  exists st1, st2, (foldl hub_touch (Chan.mk ms 256 false) (Offers <$> ms')), effs, arrived.
  split_and!; try done.
  - intros Hroom. by apply (Hfit ms').
  - intros Hfree. apply Hsplit. by apply Forall_forall.
Qed.

(** X12 on two broadcasts to a new client and a third while the pump is
    busy. *)
Lemma broadcasts_reach_the_page_witness :
  ∃ st1 st2 at_len effs arrived,
    sys_run one_client (Forwards <$> ["h"%byte; "i"%byte] :: [["y"%byte; "o"%byte]])
      = Some st1 ∧
    send st1 !! 1%positive
      = Some (Chan.mk (["h"%byte; "i"%byte] :: [["y"%byte; "o"%byte]]) 256 false) ∧
    sys_run st1 (Takes 1%positive :: (Forwards <$> [["!"%byte]])) = Some st2 ∧
    send st2 !! 1%positive = Some at_len ∧
    at_len = foldl hub_touch (Chan.mk [["y"%byte; "o"%byte]] 256 false)
                   (Offers <$> [["!"%byte]]) ∧
    Chan.buf at_len = [["y"%byte; "o"%byte]] ++ arrived ∧
    (length [["y"%byte; "o"%byte]] + length [["!"%byte]] ≤ 256 →
     arrived = [["!"%byte]]) ∧
    write_turn (OnSend true true (Offers <$> [["!"%byte]]))
               (Chan.mk (["h"%byte; "i"%byte] :: [["y"%byte; "o"%byte]]) 256 false)
      = (effs, Chan.mk [] 256 (Chan.closed at_len), Continue) ∧
    frames None (conn_calls effs)
      = [(TextMessage,
          join newline (["h"%byte; "i"%byte] :: [["y"%byte; "o"%byte]] ++ arrived))] ∧
    (Forall (λ p, x0a ∉ p) (["h"%byte; "i"%byte] :: [["y"%byte; "o"%byte]] ++ arrived) →
     split x0a (join newline (["h"%byte; "i"%byte] :: [["y"%byte; "o"%byte]] ++ arrived))
     = ["h"%byte; "i"%byte] :: [["y"%byte; "o"%byte]] ++ arrived).
Proof.
  apply (broadcasts_reach_the_page ["h"%byte; "i"%byte] [["y"%byte; "o"%byte]]
           [["!"%byte]] one_client 1%positive).
  - apply (bool_decide_unpack _). by vm_compute.
  - apply (bool_decide_unpack _). by vm_compute.
  - by exists true.
  - reflexivity.
  - simpl. lia.
Defined.

(** * DayList.go *)

Lemma wrap_int_small z : (- 2 ^ 63 ≤ z < 2 ^ 63)%Z → wrap_int z = z.
Proof.
  intros Hz. unfold wrap_int.
  rewrite Z.mod_small by lia. lia.
Qed.

Lemma list_find_middle {A} (P : A → Prop) `{!∀ x, Decision (P x)}
    (l1 l2 : list A) (x : A) :
  Forall (λ y, ¬ P y) l1 → P x →
  list_find P (l1 ++ x :: l2) = Some (length l1, x).
Proof.
  intros Hl1 Hx. apply list_find_Some. split_and!.
  - by apply list_lookup_middle.
  - done.
  - intros j y Hj Hlt. rewrite lookup_app_l in Hj by done.
    by apply (Forall_lookup_1 _ _ _ _ Hl1 Hj).
Qed.

(** X13: [deleteNote] leaves the notes as they are and reports the ID
    as not found when no note has it; otherwise it cuts out the first
    note with that ID and nothing else, keeping the order of the rest:
    later notes with the same ID stay. *)
Theorem deleteNote_cuts_first id notes :
  (Forall (λ n, DayList.ID n ≠ id) notes →
     DayList.deleteNote id notes = (notes, [DayList.NotFound id])) ∧
  (∀ before n after,
     notes = before ++ n :: after →
     Forall (λ n', DayList.ID n' ≠ id) before → DayList.ID n = id →
     DayList.deleteNote id notes = (before ++ after, [DayList.Deleted id])).
Proof.
  unfold DayList.deleteNote. split.
  - intros Hnone. by rewrite (proj2 (list_find_None _ notes) Hnone).
  - intros before n after -> Hbefore Hn.
    rewrite (list_find_middle (λ n, DayList.ID n = id) before after n Hbefore Hn).
    by rewrite delete_middle.
Qed.

Lemma sorted_lt_last (ids : list Z) (x y : Z) :
  StronglySorted Z.lt (ids ++ [y]) → x ∈ ids → (x < y)%Z.
Proof.
  intros Hs Hx. apply (StronglySorted_app_1_elem_of Z.lt ids [y]); [done.. |].
  by left.
Qed.

Lemma sorted_delete (ids : list Z) i :
  StronglySorted Z.lt ids → StronglySorted Z.lt (delete i ids).
Proof.
  intros Hs. destruct (ids !! i) as [x|] eqn:Hi.
  - rewrite <- (take_drop_middle ids i x Hi) in Hs.
    rewrite delete_take_drop.
    apply StronglySorted_app in Hs as (Hlt & Hl & Hr).
    apply StronglySorted_cons in Hr as [_ Hr].
    apply StronglySorted_app. split_and!; [| done..].
    intros x1 x2 H1 H2. apply Hlt; [done |]. by right.
  - rewrite delete_take_drop, take_ge, drop_ge, app_nil_r.
    + done.
    + apply lookup_ge_None in Hi. lia.
    + by apply lookup_ge_None.
Qed.

(** The IDs are in strictly increasing order, between 1 and [k]. *)
Lemma exec_keeps_order k notes cmd :
  StronglySorted Z.lt (DayList.ID <$> notes) →
  Forall (λ id, 1 ≤ id ≤ k)%Z (DayList.ID <$> notes) →
  (0 ≤ k)%Z → (k + 1 < 2 ^ 63)%Z →
  StronglySorted Z.lt (DayList.ID <$> DayList.exec notes cmd) ∧
  Forall (λ id, 1 ≤ id ≤ k + 1)%Z (DayList.ID <$> DayList.exec notes cmd).
Proof.
  intros Hs Hb Hk0 Hk. destruct cmd as [content now | id]; simpl.
  - rewrite fmap_app. simpl.
    assert (Forall (λ id, 1 ≤ id ≤ k + 1)%Z (DayList.ID <$> notes)) as Hb'.
    { eapply Forall_impl; [exact Hb |]. simpl. lia. }
    destruct (last notes) as [n|] eqn:Hlast.
    + apply last_Some in Hlast as [notes' ->].
      rewrite fmap_app in Hs, Hb, Hb' |- *. simpl in *.
      apply Forall_app in Hb as [_ Hn]. rewrite Forall_singleton in Hn.
      rewrite wrap_int_small by lia. split.
      * apply StronglySorted_app. split_and!; [| done | repeat constructor].
        intros x1 x2 Hx1 ->%list_elem_of_singleton.
        apply elem_of_app in Hx1 as [Hx1 | ->%list_elem_of_singleton]; [| lia].
        pose proof (sorted_lt_last _ _ _ Hs Hx1). lia.
      * apply Forall_app. split; [done |]. apply Forall_singleton. lia.
    + apply last_None in Hlast as ->. simpl. split.
      * repeat constructor.
      * apply Forall_singleton. lia.
  - unfold DayList.deleteNote.
    destruct (list_find _ notes) as [[index n]|]; simpl.
    + rewrite list_fmap_delete. split; [by apply sorted_delete |].
      rewrite delete_take_drop.
      rewrite <- (take_drop index (DayList.ID <$> notes)) in Hb.
      apply Forall_app in Hb as [Hl Hr]. apply Forall_app. split.
      * eapply Forall_impl; [exact Hl |]. simpl. lia.
      * replace (S index) with (index + 1) by lia. rewrite <- drop_drop.
        apply Forall_drop. eapply Forall_impl; [exact Hr |]. simpl. lia.
    + split; [done |]. eapply Forall_impl; [exact Hb |]. simpl. lia.
Qed.

Lemma run_keeps_order cmds : ∀ k notes,
  StronglySorted Z.lt (DayList.ID <$> notes) →
  Forall (λ id, 1 ≤ id ≤ k)%Z (DayList.ID <$> notes) →
  (0 ≤ k)%Z → (k + Z.of_nat (length cmds) < 2 ^ 63)%Z →
  StronglySorted Z.lt (DayList.ID <$> foldl DayList.exec notes cmds) ∧
  Forall (λ id, 1 ≤ id ≤ k + Z.of_nat (length cmds))%Z
         (DayList.ID <$> foldl DayList.exec notes cmds).
Proof.
  induction cmds as [|cmd cmds IH]; intros k notes Hs Hb Hk0 Hk; simpl in *.
  - split; [done |]. eapply Forall_impl; [exact Hb |]. simpl. lia.
  - destruct (exec_keeps_order k notes cmd Hs Hb) as [Hs1 Hb1]; [lia.. |].
    destruct (IH (k + 1)%Z _ Hs1 Hb1) as [Hs' Hb']; [lia.. |].
    split; [done |]. eapply Forall_impl; [exact Hb' |]. simpl. lia.
Qed.

(** X14: starting from no notes, after any sequence of fewer than 2^63
    additions and deletions the IDs of the notes are in strictly
    increasing order, hence pairwise different, and lie between 1 and
    the number of commands run. *)
Theorem note_ids_increase cmds :
  (Z.of_nat (length cmds) < 2 ^ 63)%Z →
  StronglySorted Z.lt (DayList.ID <$> foldl DayList.exec [] cmds) ∧
  NoDup (DayList.ID <$> foldl DayList.exec [] cmds) ∧
  Forall (λ id, 1 ≤ id ≤ Z.of_nat (length cmds))%Z
         (DayList.ID <$> foldl DayList.exec [] cmds).
Proof.
  intros Hlen.
  destruct (run_keeps_order cmds 0 []) as [Hs Hb]; [constructor | constructor | lia.. |].
  split_and!; [done | | done].
  clear Hb. induction Hs as [|x l Hs IH Hx]; constructor; [| done].
  intros Hin. rewrite Forall_forall in Hx. specialize (Hx x Hin). lia.
Qed.

(** X14 on three additions with a deletion in between. *)
Lemma note_ids_increase_witness :
  StronglySorted Z.lt
    (DayList.ID <$> foldl DayList.exec []
       [DayList.Add "a" 10; DayList.Add "b" 11; DayList.Delete 1; DayList.Add "c" 12]) ∧
  NoDup
    (DayList.ID <$> foldl DayList.exec []
       [DayList.Add "a" 10; DayList.Add "b" 11; DayList.Delete 1; DayList.Add "c" 12]) ∧
  Forall (λ id, 1 ≤ id ≤ Z.of_nat (length
       [DayList.Add "a" 10; DayList.Add "b" 11; DayList.Delete 1; DayList.Add "c" 12]))%Z
    (DayList.ID <$> foldl DayList.exec []
       [DayList.Add "a" 10; DayList.Add "b" 11; DayList.Delete 1; DayList.Add "c" 12]).
Proof.
  apply (note_ids_increase
           [DayList.Add "a" 10; DayList.Add "b" 11; DayList.Delete 1; DayList.Add "c" 12]).
  simpl. lia.
Defined.

(** X15: IDs are handed out by position, not remembered.  When the IDs
    are in increasing order and the last one is below the largest [int],
    adding a note and deleting the ID just printed gives back the notes
    as they were, and the next note added is given that same ID again. *)
Theorem addNote_then_deleteNote notes c1 t1 c2 t2 :
  StronglySorted Z.lt (DayList.ID <$> notes) →
  (∀ n, last notes = Some n → (- 2 ^ 63 ≤ DayList.ID n < 2 ^ 63 - 1)%Z) →
  ∃ id,
    (DayList.addNote c1 t1 notes).2 = [DayList.Added id] ∧
    DayList.deleteNote id (DayList.addNote c1 t1 notes).1
      = (notes, [DayList.Deleted id]) ∧
    (DayList.addNote c2 t2 notes).2 = [DayList.Added id].
Proof.
  intros Hs Hlast. unfold DayList.addNote. simpl.
  set (id := match last notes with
             | Some n => wrap_int (DayList.ID n + 1)
             | None => 1%Z
             end).
  exists id. split; [done |]. split; [| done]. unfold DayList.deleteNote.
  assert (Forall (λ n, ¬ DayList.ID n = id) notes) as Hfresh.
  { subst id. destruct (last notes) as [n|] eqn:Hn.
    - specialize (Hlast n eq_refl). rewrite wrap_int_small by lia.
      apply last_Some in Hn as [notes' ->]. rewrite fmap_app in Hs. simpl in Hs.
      apply Forall_app. split.
      + apply Forall_forall. intros n' Hn'.
        assert (DayList.ID n' < DayList.ID n)%Z; [| lia].
        apply (sorted_lt_last (DayList.ID <$> notes')); [done |].
        by apply list_elem_of_fmap_2.
      + apply Forall_singleton. lia.
    - apply last_None in Hn as ->. constructor. }
  rewrite (list_find_middle (λ n, DayList.ID n = id) notes []
             (DayList.mkNote id c1 t1) Hfresh eq_refl).
  by rewrite delete_middle, app_nil_r.
Qed.

(** X15 on two notes with the IDs 1 and 2. *)
Lemma addNote_then_deleteNote_witness :
  ∃ id,
    (DayList.addNote "c" 12
       [DayList.mkNote 1 "a" 10; DayList.mkNote 2 "b" 11]).2 = [DayList.Added id] ∧
    DayList.deleteNote id
      (DayList.addNote "c" 12 [DayList.mkNote 1 "a" 10; DayList.mkNote 2 "b" 11]).1
      = ([DayList.mkNote 1 "a" 10; DayList.mkNote 2 "b" 11], [DayList.Deleted id]) ∧
    (DayList.addNote "d" 13
       [DayList.mkNote 1 "a" 10; DayList.mkNote 2 "b" 11]).2 = [DayList.Added id].
Proof.
  apply (addNote_then_deleteNote
           [DayList.mkNote 1 "a" 10; DayList.mkNote 2 "b" 11] "c" 12 "d" 13).
  - apply (bool_decide_unpack _). by vm_compute.
  - intros n [= <-]. simpl. lia.
Defined.

(** X16: the extra argument that [go run] puts first is skipped.  When
    the first argument is an absolute path and the next one is not, [main]
    behaves exactly as it does without the path. *)
Theorem main_skips_path IsAbs Atoi prog path command rest loaded now save_ok :
  IsAbs path = true → IsAbs command = false →
  DayList.main IsAbs Atoi (prog :: path :: command :: rest) loaded now save_ok
  = DayList.main IsAbs Atoi (prog :: command :: rest) loaded now save_ok.
Proof.
  intros Hpath Hcommand. unfold DayList.main. destruct loaded as [notes|]; [| done].
  simpl. rewrite Hpath, Hcommand. done.
Qed.

(** X16 with a stand-in for [filepath.IsAbs]. *)
Lemma main_skips_path_witness :
  DayList.main (λ s, bool_decide (s = "/data/DayList.go")) (λ _, None)
    ("DayList" :: "/data/DayList.go" :: "list" :: []) (Some []) 5 true
  = DayList.main (λ s, bool_decide (s = "/data/DayList.go")) (λ _, None)
    ("DayList" :: "list" :: []) (Some []) 5 true.
Proof.
  apply (main_skips_path (λ s, bool_decide (s = "/data/DayList.go")) (λ _, None)
           "DayList" "/data/DayList.go" "list" [] (Some []) 5 true).
  - reflexivity.
  - reflexivity.
Defined.

(** X17: when [main] calls [saveNotes].  It exits with status 0 exactly
    if it called [saveNotes] and the write succeeded.  A run that stops
    at a load error or for want of a command exits with status 1 and
    never calls it.  With a command that is not taken for a path: [add]
    without a content, [delete] without an ID or with an ID that is not
    a number, and every command other than [add], [list] and [delete]
    print their message, exit with status 1 and never call it; [add]
    with a content saves the notes after [addNote], [list] saves the
    notes as they were loaded, and [delete] with a number saves the
    notes after [deleteNote]. *)
Theorem main_saves_after_a_command IsAbs Atoi now save_ok :
  (∀ args loaded,
     DayList.exit_code (DayList.main IsAbs Atoi args loaded now save_ok) = 0%Z
     ↔ save_ok = true ∧
       is_Some (DayList.saved (DayList.main IsAbs Atoi args loaded now save_ok))) ∧
  (∀ args,
     DayList.main IsAbs Atoi args None now save_ok
     = DayList.mkOutcome 1 [DayList.LoadFailed] None) ∧
  (∀ args notes,
     length args < 2 →
     DayList.main IsAbs Atoi args (Some notes) now save_ok
     = DayList.mkOutcome 1 [DayList.Usage] None) ∧
  (∀ prog command rest notes,
     IsAbs command = false →
     (command = "add" →
        (rest = [] →
           DayList.main IsAbs Atoi (prog :: command :: rest) (Some notes) now save_ok
           = DayList.mkOutcome 1 [DayList.UsageAdd] None) ∧
        (∀ content more, rest = content :: more →
           DayList.saved
             (DayList.main IsAbs Atoi (prog :: command :: rest) (Some notes) now save_ok)
           = Some (DayList.addNote content now notes).1)) ∧
     (command = "list" →
        DayList.saved
          (DayList.main IsAbs Atoi (prog :: command :: rest) (Some notes) now save_ok)
        = Some notes) ∧
     (command = "delete" →
        (rest = [] →
           DayList.main IsAbs Atoi (prog :: command :: rest) (Some notes) now save_ok
           = DayList.mkOutcome 1 [DayList.UsageDelete] None) ∧
        (∀ text more, rest = text :: more → Atoi text = None →
           DayList.main IsAbs Atoi (prog :: command :: rest) (Some notes) now save_ok
           = DayList.mkOutcome 1 [DayList.IdNotNumber] None) ∧
        (∀ text more id, rest = text :: more → Atoi text = Some id →
           DayList.saved
             (DayList.main IsAbs Atoi (prog :: command :: rest) (Some notes) now save_ok)
           = Some (DayList.deleteNote id notes).1)) ∧
     (command ≠ "add" → command ≠ "list" → command ≠ "delete" →
        DayList.main IsAbs Atoi (prog :: command :: rest) (Some notes) now save_ok
        = DayList.mkOutcome 1 [DayList.UnknownCommand command; DayList.AvailableCommands]
                            None)).
Proof.
  assert (∀ r, DayList.saved (DayList.finish save_ok r) = Some r.1) as Hsaved
    by (intros r; unfold DayList.finish; by destruct save_ok).
  split_and!.
  - intros args loaded. unfold DayList.main. destruct loaded as [notes|].
    + assert (∀ r,
        DayList.exit_code (DayList.finish save_ok r) = 0%Z
        ↔ save_ok = true ∧ is_Some (DayList.saved (DayList.finish save_ok r)))
        as Hfinish.
      { intros r. unfold DayList.finish. destruct save_ok; simpl.
        - by split; [intros _; split; [| eexists] |].
        - by split; [| intros [? _]]. }
      assert (∀ out,
        DayList.exit_code (DayList.fail out) = 0%Z
        ↔ save_ok = true ∧ is_Some (DayList.saved (DayList.fail out))) as Hfail.
      { intros out. simpl. split; [done | by intros [_ [? ?]]]. }
      repeat case_decide; try apply Hfail; try apply Hfinish.
      all: destruct (Atoi _); [apply Hfinish | apply Hfail].
    + simpl. split; [done | by intros [_ [? ?]]].
  - done.
  - intros args notes Hlen. unfold DayList.main. by rewrite decide_True by done.
  - intros prog command rest notes Hrel. unfold DayList.main.
    rewrite decide_False by (simpl; lia).
    simpl. rewrite Hrel. simpl. split_and!.
    + intros ->. rewrite decide_True by done. split.
      * intros ->. by rewrite decide_True by (simpl; lia).
      * intros content more ->. rewrite decide_False by (simpl; lia).
        by rewrite Hsaved.
    + intros ->. rewrite decide_False by done. rewrite decide_True by done.
      by rewrite Hsaved.
    + intros ->. rewrite decide_False by done. rewrite decide_False by done.
      rewrite decide_True by done. split_and!.
      * intros ->. by rewrite decide_True by (simpl; lia).
      * intros text more -> Hno. rewrite decide_False by (simpl; lia).
        simpl. by rewrite Hno.
      * intros text more id -> Hid. rewrite decide_False by (simpl; lia).
        simpl. rewrite Hid. by rewrite Hsaved.
    + intros Hadd Hlist Hdel. by rewrite !decide_False by done.
Qed.

(** * RESTful_API.go *)

Lemma list_find_skip {A} (P : A → Prop) `{!∀ x, Decision (P x)}
    (l1 l2 : list A) (x : A) :
  ¬ P x →
  snd <$> list_find P (l1 ++ x :: l2) = snd <$> list_find P (l1 ++ l2).
Proof.
  intros Hx. induction l1 as [|y l1 IH]; csimpl.
  - case_decide; [done |]. rewrite <- option_fmap_compose.
    by destruct (list_find P l2) as [[? ?]|].
  - case_decide; [done |]. rewrite <- !option_fmap_compose.
    destruct (list_find P (l1 ++ x :: l2)) as [[? ?]|],
             (list_find P (l1 ++ l2)) as [[? ?]|]; simpl in *; congruence.
Qed.

Lemma list_find_insert_other {A} (P : A → Prop) `{!∀ x, Decision (P x)}
    (l : list A) (i : nat) (x y : A) :
  l !! i = Some y → ¬ P x → ¬ P y →
  list_find P (<[i := x]> l) = list_find P l.
Proof.
  revert i. induction l as [|z l IH]; intros i Hi Hx Hy; [done |].
  destruct i as [|i]; csimpl in *.
  - injection Hi as ->. by repeat case_decide.
  - case_decide; [done |]. by rewrite (IH i).
Qed.

Lemma find_by_id (ts : list RestApi.Task) i t :
  NoDup (RestApi.ID <$> ts) → ts !! i = Some t →
  list_find (λ t', RestApi.ID t' = RestApi.ID t) ts = Some (i, t).
Proof.
  intros Hnd Hi. apply list_find_Some. split_and!; [done.. |].
  intros j y Hj Hlt Heq.
  assert (j = i); [| lia].
  apply (NoDup_lookup (RestApi.ID <$> ts) j i (RestApi.ID t) Hnd).
  - by rewrite list_lookup_fmap, Hj, <- Heq.
  - by rewrite list_lookup_fmap, Hi.
Qed.

(** X18: a created task can be fetched.  [createTask] answers 201 with
    the stored task, whose ID is the store's [nextID] whatever ID the
    client sent and whose creation time is the clock's; the task is
    appended to the list, and when no task has that ID yet a [getTask]
    of it answers 200 with that same task. *)
Theorem createTask_then_getTask task now st :
  Forall (λ t, RestApi.ID t ≠ RestApi.nextID st) (RestApi.tasks st) →
  ∃ t,
    (RestApi.createTask (Some task) now st).2
      = RestApi.mkResponse 201 (RestApi.JsonTask t) ∧
    t = RestApi.mkTask (RestApi.nextID st) (RestApi.Title task)
          (RestApi.Description task) (RestApi.Completed task) now ∧
    RestApi.tasks (RestApi.createTask (Some task) now st).1 = RestApi.tasks st ++ [t] ∧
    RestApi.getTask (RestApi.nextID st) (RestApi.createTask (Some task) now st).1
      = ((RestApi.createTask (Some task) now st).1,
         RestApi.mkResponse 200 (RestApi.JsonTask t)).
Proof.
  intros Hfresh. eexists. split_and!; [done.. |].
  unfold RestApi.getTask, RestApi.createTask. cbn [fst RestApi.tasks].
  by rewrite (list_find_middle (λ t, RestApi.ID t = RestApi.nextID st)
                (RestApi.tasks st) []
                (RestApi.mkTask (RestApi.nextID st) (RestApi.Title task)
                   (RestApi.Description task) (RestApi.Completed task) now)
                Hfresh eq_refl).
Qed.

(** X18 on the empty store. *)
Lemma createTask_then_getTask_witness :
  ∃ t,
    (RestApi.createTask (Some (RestApi.mkTask 77 "a" "b" false 0)) 5 RestApi.start).2
      = RestApi.mkResponse 201 (RestApi.JsonTask t) ∧
    t = RestApi.mkTask (RestApi.nextID RestApi.start) "a" "b" false 5 ∧
    RestApi.tasks
      (RestApi.createTask (Some (RestApi.mkTask 77 "a" "b" false 0)) 5 RestApi.start).1
      = RestApi.tasks RestApi.start ++ [t] ∧
    RestApi.getTask (RestApi.nextID RestApi.start)
      (RestApi.createTask (Some (RestApi.mkTask 77 "a" "b" false 0)) 5 RestApi.start).1
      = ((RestApi.createTask (Some (RestApi.mkTask 77 "a" "b" false 0)) 5
            RestApi.start).1,
         RestApi.mkResponse 200 (RestApi.JsonTask t)).
Proof.
  apply (createTask_then_getTask (RestApi.mkTask 77 "a" "b" false 0) 5 RestApi.start).
  constructor.
Defined.

Lemma unique_id_split (ts : list RestApi.Task) t :
  NoDup (RestApi.ID <$> ts) → t ∈ ts →
  ∃ l1 l2, ts = l1 ++ t :: l2 ∧
           Forall (λ t', RestApi.ID t' ≠ RestApi.ID t) (l1 ++ l2).
Proof.
  intros Hnd Hin. apply list_elem_of_split in Hin as (l1 & l2 & ->).
  exists l1, l2. split; [done |].
  rewrite fmap_app, fmap_cons in Hnd.
  apply NoDup_app in Hnd as (_ & Hl1 & Hl2). apply NoDup_cons in Hl2 as [Hl2 _].
  apply Forall_app. split; apply Forall_forall; intros t' Ht' Heq.
  - apply (Hl1 (RestApi.ID t')); [by apply list_elem_of_fmap_2 |].
    rewrite Heq. by left.
  - apply Hl2. rewrite <- Heq. by apply list_elem_of_fmap_2.
Qed.

(** X19: with pairwise different IDs, [deleteTask] of an ID that no task
    has answers 404 and changes nothing; of the ID of a stored task it
    answers 204, after which a [getTask] and a second [deleteTask] of
    that ID answer 404 and change nothing, [nextID] is as before, and a
    [getTask] of any other ID gets the answer it got before. *)
Theorem deleteTask_then_getTask id st :
  NoDup (RestApi.ID <$> RestApi.tasks st) →
  (Forall (λ t, RestApi.ID t ≠ id) (RestApi.tasks st) →
     RestApi.deleteTask id st
       = (st, RestApi.mkResponse 404 (RestApi.ErrorText "Задача не найдена"))) ∧
  (∀ t, t ∈ RestApi.tasks st → RestApi.ID t = id →
     ∃ st',
       RestApi.deleteTask id st = (st', RestApi.mkResponse 204 RestApi.NoBody) ∧
       RestApi.nextID st' = RestApi.nextID st ∧
       RestApi.getTask id st'
         = (st', RestApi.mkResponse 404 (RestApi.ErrorText "Задача не найдена")) ∧
       RestApi.deleteTask id st'
         = (st', RestApi.mkResponse 404 (RestApi.ErrorText "Задача не найдена")) ∧
       ∀ id', id' ≠ id →
              (RestApi.getTask id' st').2 = (RestApi.getTask id' st).2).
Proof.
  intros Hnd. split.
  - intros Hnone. unfold RestApi.deleteTask.
    by rewrite (proj2 (list_find_None _ _) Hnone).
  - intros t Hin <-. destruct (unique_id_split _ t Hnd Hin) as (l1 & l2 & Hts & Hrest).
    pose proof Hrest as Hrest'. apply Forall_app in Hrest' as [Hl1 _].
    exists (RestApi.mkStore (l1 ++ l2) (RestApi.nextID st)).
    unfold RestApi.deleteTask, RestApi.getTask. rewrite Hts.
    rewrite (list_find_middle (λ t', RestApi.ID t' = RestApi.ID t) l1 l2 t Hl1 eq_refl).
    rewrite delete_middle. cbn [RestApi.tasks RestApi.nextID].
    rewrite (proj2 (list_find_None _ _) Hrest).
    split_and!; [done.. |]. intros id' Hne.
    assert (snd <$> list_find (λ t', RestApi.ID t' = id') (l1 ++ t :: l2)
            = snd <$> list_find (λ t', RestApi.ID t' = id') (l1 ++ l2)) as Hsame.
    { apply list_find_skip. congruence. }
    destruct (list_find _ (l1 ++ t :: l2)) as [[? ?]|],
             (list_find _ (l1 ++ l2)) as [[? ?]|]; simpl in *; congruence.
Qed.

(** X19 on a store with the tasks 1 and 2. *)
Lemma deleteTask_then_getTask_witness :
  ∃ st',
    RestApi.deleteTask 1
      (RestApi.mkStore [RestApi.mkTask 1 "a" "" false 0; RestApi.mkTask 2 "b" "" true 0] 3)
      = (st', RestApi.mkResponse 204 RestApi.NoBody) ∧
    RestApi.nextID st' = 3%Z ∧
    RestApi.getTask 1 st'
      = (st', RestApi.mkResponse 404 (RestApi.ErrorText "Задача не найдена")) ∧
    RestApi.deleteTask 1 st'
      = (st', RestApi.mkResponse 404 (RestApi.ErrorText "Задача не найдена")) ∧
    ∀ id', id' ≠ 1%Z →
      (RestApi.getTask id' st').2
      = (RestApi.getTask id'
           (RestApi.mkStore
              [RestApi.mkTask 1 "a" "" false 0; RestApi.mkTask 2 "b" "" true 0] 3)).2.
Proof.
  apply (proj2 (deleteTask_then_getTask 1
           (RestApi.mkStore
              [RestApi.mkTask 1 "a" "" false 0; RestApi.mkTask 2 "b" "" true 0] 3)
           ltac:(apply (bool_decide_unpack _); by vm_compute))
         (RestApi.mkTask 1 "a" "" false 0)).
  - by left.
  - reflexivity.
Defined.

Lemma fmap_ID_insert (ts : list RestApi.Task) i t t' :
  ts !! i = Some t → RestApi.ID t' = RestApi.ID t →
  RestApi.ID <$> <[i := t']> ts = RestApi.ID <$> ts.
Proof.
  intros Hi Hid. rewrite list_fmap_insert, Hid.
  apply list_insert_id. by rewrite list_lookup_fmap, Hi.
Qed.

(** X20: with pairwise different IDs, [updateTask] of the ID of a stored
    task answers 200 with that task carrying the new title, description
    and completion flag and its old ID and creation time (whatever ID
    and time the client sent); the task keeps its place, the IDs in the
    list and [nextID] are as before, a [getTask] of the ID then answers
    with the updated task and a [getTask] of any other ID gets the
    answer it got before.  For an ID that no task has it answers 404 and
    changes nothing. *)
Theorem updateTask_keeps_identity u id st :
  NoDup (RestApi.ID <$> RestApi.tasks st) →
  (Forall (λ t, RestApi.ID t ≠ id) (RestApi.tasks st) →
     RestApi.updateTask (Some u) id st
       = (st, RestApi.mkResponse 404 (RestApi.ErrorText "Задача не найдена"))) ∧
  (∀ i t, RestApi.tasks st !! i = Some t → RestApi.ID t = id →
     ∃ st' t',
       t' = RestApi.mkTask id (RestApi.Title u) (RestApi.Description u)
              (RestApi.Completed u) (RestApi.CreatedAt t) ∧
       RestApi.updateTask (Some u) id st
         = (st', RestApi.mkResponse 200 (RestApi.JsonTask t')) ∧
       RestApi.tasks st' = <[i := t']> (RestApi.tasks st) ∧
       RestApi.ID <$> RestApi.tasks st' = RestApi.ID <$> RestApi.tasks st ∧
       RestApi.nextID st' = RestApi.nextID st ∧
       RestApi.getTask id st' = (st', RestApi.mkResponse 200 (RestApi.JsonTask t')) ∧
       ∀ id', id' ≠ id →
              (RestApi.getTask id' st').2 = (RestApi.getTask id' st).2).
Proof.
  intros Hnd. split.
  - intros Hnone. unfold RestApi.updateTask.
    by rewrite (proj2 (list_find_None _ _) Hnone).
  - intros i t Hi <-.
    set (t' := RestApi.mkTask (RestApi.ID t) (RestApi.Title u) (RestApi.Description u)
                 (RestApi.Completed u) (RestApi.CreatedAt t)).
    exists (RestApi.mkStore (<[i := t']> (RestApi.tasks st)) (RestApi.nextID st)), t'.
    assert (RestApi.ID <$> <[i := t']> (RestApi.tasks st)
            = RestApi.ID <$> RestApi.tasks st) as Hids.
    { by apply (fmap_ID_insert _ i t). }
    split_and!; [done | | done.. | |].
    + unfold RestApi.updateTask. by rewrite (find_by_id _ i t Hnd Hi).
    + unfold RestApi.getTask. cbn [RestApi.tasks].
      rewrite (find_by_id (<[i := t']> (RestApi.tasks st)) i t'); [done | |].
      * by rewrite Hids.
      * apply list_lookup_insert_eq. by apply lookup_lt_Some in Hi.
    + intros id' Hne. unfold RestApi.getTask. cbn [RestApi.tasks].
      rewrite (list_find_insert_other (λ t0, RestApi.ID t0 = id') _ i t' t Hi);
        [| simpl; congruence | congruence].
      by destruct (list_find _ (RestApi.tasks st)) as [[? ?]|].
Qed.

(** X20 on a store with the tasks 1 and 2. *)
Lemma updateTask_keeps_identity_witness :
  RestApi.updateTask (Some (RestApi.mkTask 9 "x" "y" true 99)) 5
    (RestApi.mkStore [RestApi.mkTask 1 "a" "" false 0; RestApi.mkTask 2 "b" "" true 0] 3)
  = (RestApi.mkStore
       [RestApi.mkTask 1 "a" "" false 0; RestApi.mkTask 2 "b" "" true 0] 3,
     RestApi.mkResponse 404 (RestApi.ErrorText "Задача не найдена")).
Proof.
  apply (proj1 (updateTask_keeps_identity (RestApi.mkTask 9 "x" "y" true 99) 5
           (RestApi.mkStore
              [RestApi.mkTask 1 "a" "" false 0; RestApi.mkTask 2 "b" "" true 0] 3)
           ltac:(apply (bool_decide_unpack _); by vm_compute))).
  apply (bool_decide_unpack _). by vm_compute.
Defined.

(** One request keeps the IDs pairwise different and below [nextID],
    which it leaves as it is or raises by one. *)
Lemma handle_keeps_ids Atoi st r k :
  NoDup (RestApi.ID <$> RestApi.tasks st) →
  Forall (λ id, 1 ≤ id < RestApi.nextID st)%Z (RestApi.ID <$> RestApi.tasks st) →
  (1 ≤ RestApi.nextID st ≤ k)%Z → (k + 1 < 2 ^ 63)%Z →
  NoDup (RestApi.ID <$> RestApi.tasks (RestApi.handle Atoi st r).1) ∧
  Forall (λ id, 1 ≤ id < RestApi.nextID (RestApi.handle Atoi st r).1)%Z
         (RestApi.ID <$> RestApi.tasks (RestApi.handle Atoi st r).1) ∧
  (RestApi.nextID st ≤ RestApi.nextID (RestApi.handle Atoi st r).1 ≤ k + 1)%Z.
Proof.
  intros Hnd Hb Hk Hbig.
  assert (NoDup (RestApi.ID <$> RestApi.tasks st) ∧
          Forall (λ id, 1 ≤ id < RestApi.nextID st)%Z (RestApi.ID <$> RestApi.tasks st) ∧
          (RestApi.nextID st ≤ RestApi.nextID st ≤ k + 1)%Z) as Hsame
    by (split_and!; [done.. | lia | lia]).
  assert (∀ decoded now,
    NoDup (RestApi.ID <$> RestApi.tasks (RestApi.createTask decoded now st).1) ∧
    Forall (λ id, 1 ≤ id < RestApi.nextID (RestApi.createTask decoded now st).1)%Z
      (RestApi.ID <$> RestApi.tasks (RestApi.createTask decoded now st).1) ∧
    (RestApi.nextID st ≤ RestApi.nextID (RestApi.createTask decoded now st).1 ≤ k + 1)%Z)
    as Hcreate.
  { intros [task|] now; [| done]. simpl. rewrite fmap_app. simpl.
    rewrite wrap_int_small by lia. split_and!; [| | lia..].
    - apply NoDup_app. split_and!; [done | | repeat constructor; by intros ?%elem_of_nil].
      intros id Hid ->%list_elem_of_singleton.
      rewrite Forall_forall in Hb. specialize (Hb _ Hid). lia.
    - apply Forall_app. split.
      + eapply Forall_impl; [exact Hb |]. simpl. lia.
      + apply Forall_singleton. lia. }
  assert (∀ decoded id,
    NoDup (RestApi.ID <$> RestApi.tasks (RestApi.updateTask decoded id st).1) ∧
    Forall (λ id', 1 ≤ id' < RestApi.nextID (RestApi.updateTask decoded id st).1)%Z
      (RestApi.ID <$> RestApi.tasks (RestApi.updateTask decoded id st).1) ∧
    (RestApi.nextID st ≤ RestApi.nextID (RestApi.updateTask decoded id st).1 ≤ k + 1)%Z)
    as Hupdate.
  { intros [u|] id; [| done]. unfold RestApi.updateTask.
    destruct (list_find _ (RestApi.tasks st)) as [[i t]|] eqn:Hfind; [| done].
    apply list_find_Some in Hfind as (Hi & _ & _). simpl.
    rewrite (fmap_ID_insert _ i t) by done. done. }
  assert (∀ id,
    NoDup (RestApi.ID <$> RestApi.tasks (RestApi.deleteTask id st).1) ∧
    Forall (λ id', 1 ≤ id' < RestApi.nextID (RestApi.deleteTask id st).1)%Z
      (RestApi.ID <$> RestApi.tasks (RestApi.deleteTask id st).1) ∧
    (RestApi.nextID st ≤ RestApi.nextID (RestApi.deleteTask id st).1 ≤ k + 1)%Z)
    as Hdelete.
  { intros id. unfold RestApi.deleteTask.
    destruct (list_find _ (RestApi.tasks st)) as [[i t]|]; [| done]. simpl.
    rewrite list_fmap_delete. split_and!; [| | lia..].
    - eapply sublist_NoDup; [exact Hnd | apply sublist_delete].
    - by apply Forall_delete. }
  assert (∀ id, (RestApi.getTask id st).1 = st) as Hget.
  { intros id. unfold RestApi.getTask.
    by destruct (list_find _ (RestApi.tasks st)) as [[? ?]|]. }
  destruct r as [method decoded now | method path decoded]; simpl.
  - unfold RestApi.tasksHandler. repeat case_decide; [done | apply Hcreate | done].
  - unfold RestApi.taskHandler. case_decide; [done |].
    destruct (Atoi _) as [id|]; [| done].
    repeat case_decide; [by rewrite Hget | apply Hupdate | apply Hdelete | done].
Qed.

Lemma serve_keeps_ids Atoi rs : ∀ st k,
  NoDup (RestApi.ID <$> RestApi.tasks st) →
  Forall (λ id, 1 ≤ id < RestApi.nextID st)%Z (RestApi.ID <$> RestApi.tasks st) →
  (1 ≤ RestApi.nextID st ≤ k)%Z → (k + Z.of_nat (length rs) < 2 ^ 63)%Z →
  NoDup (RestApi.ID <$> RestApi.tasks (RestApi.serve Atoi st rs)) ∧
  Forall (λ id, 1 ≤ id < RestApi.nextID (RestApi.serve Atoi st rs))%Z
         (RestApi.ID <$> RestApi.tasks (RestApi.serve Atoi st rs)) ∧
  (RestApi.nextID st ≤ RestApi.nextID (RestApi.serve Atoi st rs)
   ≤ k + Z.of_nat (length rs))%Z.
Proof.
  induction rs as [|r rs IH]; intros st k Hnd Hb Hk Hbig; simpl in *.
  - split_and!; [done.. | lia | lia].
  - destruct (handle_keeps_ids Atoi st r k Hnd Hb Hk) as (Hnd1 & Hb1 & Hk1); [lia |].
    destruct (IH _ (k + 1)%Z Hnd1 Hb1) as (Hnd' & Hb' & Hk'); [lia.. |].
    unfold RestApi.serve in *. simpl. split_and!; [done.. | lia | lia].
Qed.

(** X21: from the empty store, after any sequence of fewer than 2^63 - 1
    requests the IDs of the stored tasks are pairwise different,
    positive and below [nextID], which has been raised at most once for
    each request. *)
Theorem task_ids_unique Atoi rs :
  (Z.of_nat (length rs) < 2 ^ 63 - 1)%Z →
  NoDup (RestApi.ID <$> RestApi.tasks (RestApi.serve Atoi RestApi.start rs)) ∧
  Forall (λ id, 1 ≤ id < RestApi.nextID (RestApi.serve Atoi RestApi.start rs))%Z
         (RestApi.ID <$> RestApi.tasks (RestApi.serve Atoi RestApi.start rs)) ∧
  (1 ≤ RestApi.nextID (RestApi.serve Atoi RestApi.start rs)
   ≤ 1 + Z.of_nat (length rs))%Z.
Proof.
  intros Hlen. apply serve_keeps_ids; simpl; [constructor | constructor | lia..].
Qed.

(** X21 on a create, a delete and another create. *)
Lemma task_ids_unique_witness :
  NoDup (RestApi.ID <$> RestApi.tasks (RestApi.serve (λ _, Some 1%Z) RestApi.start
           [RestApi.ToTasks "POST" (Some (RestApi.mkTask 0 "a" "" false 0)) 5;
            RestApi.ToTask "DELETE" "/tasks/1" None;
            RestApi.ToTasks "POST" (Some (RestApi.mkTask 0 "b" "" false 0)) 6])) ∧
  Forall (λ id, 1 ≤ id < RestApi.nextID (RestApi.serve (λ _, Some 1%Z) RestApi.start
           [RestApi.ToTasks "POST" (Some (RestApi.mkTask 0 "a" "" false 0)) 5;
            RestApi.ToTask "DELETE" "/tasks/1" None;
            RestApi.ToTasks "POST" (Some (RestApi.mkTask 0 "b" "" false 0)) 6]))%Z
         (RestApi.ID <$> RestApi.tasks (RestApi.serve (λ _, Some 1%Z) RestApi.start
           [RestApi.ToTasks "POST" (Some (RestApi.mkTask 0 "a" "" false 0)) 5;
            RestApi.ToTask "DELETE" "/tasks/1" None;
            RestApi.ToTasks "POST" (Some (RestApi.mkTask 0 "b" "" false 0)) 6])) ∧
  (1 ≤ RestApi.nextID (RestApi.serve (λ _, Some 1%Z) RestApi.start
           [RestApi.ToTasks "POST" (Some (RestApi.mkTask 0 "a" "" false 0)) 5;
            RestApi.ToTask "DELETE" "/tasks/1" None;
            RestApi.ToTasks "POST" (Some (RestApi.mkTask 0 "b" "" false 0)) 6])
   ≤ 1 + Z.of_nat (length
           [RestApi.ToTasks "POST" (Some (RestApi.mkTask 0 "a" "" false 0)) 5;
            RestApi.ToTask "DELETE" "/tasks/1" None;
            RestApi.ToTasks "POST" (Some (RestApi.mkTask 0 "b" "" false 0)) 6]))%Z.
Proof.
  apply (task_ids_unique (λ _, Some 1%Z)
           [RestApi.ToTasks "POST" (Some (RestApi.mkTask 0 "a" "" false 0)) 5;
            RestApi.ToTask "DELETE" "/tasks/1" None;
            RestApi.ToTasks "POST" (Some (RestApi.mkTask 0 "b" "" false 0)) 6]).
  simpl. lia.
Defined.

(** X22: IDs are never handed out twice.  Whatever requests come in
    between (fewer than 2^63 - 1 in all), a task created later gets an ID
    above the ID of every task that was ever in the store before, deleted
    since or not, and [nextID] never goes down. *)
Theorem task_ids_never_reused Atoi rs1 rs2 t task now :
  (Z.of_nat (length (rs1 ++ rs2)) < 2 ^ 63 - 1)%Z →
  t ∈ RestApi.tasks (RestApi.serve Atoi RestApi.start rs1) →
  ∃ t',
    (RestApi.createTask (Some task) now
       (RestApi.serve Atoi (RestApi.serve Atoi RestApi.start rs1) rs2)).2
      = RestApi.mkResponse 201 (RestApi.JsonTask t') ∧
    (RestApi.ID t < RestApi.ID t')%Z ∧
    (RestApi.nextID (RestApi.serve Atoi RestApi.start rs1)
     ≤ RestApi.nextID (RestApi.serve Atoi (RestApi.serve Atoi RestApi.start rs1) rs2))%Z.
Proof.
  rewrite length_app. intros Hlen Hin.
  destruct (serve_keeps_ids Atoi rs1 RestApi.start 1) as (Hnd1 & Hb1 & Hk1);
    simpl; [constructor | constructor | lia.. |].
  simpl in Hk1.
  destruct (serve_keeps_ids Atoi rs2 (RestApi.serve Atoi RestApi.start rs1)
              (1 + Z.of_nat (length rs1))) as (_ & _ & Hk2); [done.. | lia | lia |].
  eexists. split; [done |]. simpl. split; [| lia].
  rewrite Forall_forall in Hb1.
  specialize (Hb1 (RestApi.ID t) (list_elem_of_fmap_2 _ _ _ Hin)). lia.
Qed.

(** X22 on a task that is created, deleted, and followed by another. *)
Lemma task_ids_never_reused_witness :
  ∃ t',
    (RestApi.createTask (Some (RestApi.mkTask 0 "b" "" false 0)) 6
       (RestApi.serve (λ _, Some 1%Z)
          (RestApi.serve (λ _, Some 1%Z) RestApi.start
             [RestApi.ToTasks "POST" (Some (RestApi.mkTask 0 "a" "" false 0)) 5])
          [RestApi.ToTask "DELETE" "/tasks/1" None])).2
      = RestApi.mkResponse 201 (RestApi.JsonTask t') ∧
    (RestApi.ID (RestApi.mkTask 1 "a" "" false 5) < RestApi.ID t')%Z ∧
    (RestApi.nextID (RestApi.serve (λ _, Some 1%Z) RestApi.start
        [RestApi.ToTasks "POST" (Some (RestApi.mkTask 0 "a" "" false 0)) 5])
     ≤ RestApi.nextID (RestApi.serve (λ _, Some 1%Z)
          (RestApi.serve (λ _, Some 1%Z) RestApi.start
             [RestApi.ToTasks "POST" (Some (RestApi.mkTask 0 "a" "" false 0)) 5])
          [RestApi.ToTask "DELETE" "/tasks/1" None]))%Z.
Proof.
  apply (task_ids_never_reused (λ _, Some 1%Z)
           [RestApi.ToTasks "POST" (Some (RestApi.mkTask 0 "a" "" false 0)) 5]
           [RestApi.ToTask "DELETE" "/tasks/1" None]
           (RestApi.mkTask 1 "a" "" false 5)).
  - simpl. lia.
  - vm_compute. by left.
Defined.

(** X23: the store changes only on a request that succeeds in changing
    it: every request leaves the tasks and [nextID] exactly as they were
    unless it is a POST answered 201, a PUT answered 200 or a DELETE
    answered 204. *)
Theorem store_changes_on_success Atoi st r :
  (RestApi.handle Atoi st r).1 = st ∨
  (RestApi.method_of r = "POST" ∧ RestApi.status (RestApi.handle Atoi st r).2 = 201%Z) ∨
  (RestApi.method_of r = "PUT" ∧ RestApi.status (RestApi.handle Atoi st r).2 = 200%Z) ∨
  (RestApi.method_of r = "DELETE" ∧ RestApi.status (RestApi.handle Atoi st r).2 = 204%Z).
Proof.
  destruct r as [method decoded now | method path decoded]; simpl.
  - unfold RestApi.tasksHandler. repeat case_decide; [by left | | by left].
    destruct decoded; [| by left]. right. by left.
  - unfold RestApi.taskHandler. case_decide; [by left |].
    destruct (Atoi _) as [id|]; [| by left].
    repeat case_decide; subst.
    + left. unfold RestApi.getTask.
      by destruct (list_find _ (RestApi.tasks st)) as [[? ?]|].
    + unfold RestApi.updateTask. destruct decoded; [| by left].
      destruct (list_find _ (RestApi.tasks st)) as [[? ?]|]; [| by left].
      right. right. by left.
    + unfold RestApi.deleteTask.
      destruct (list_find _ (RestApi.tasks st)) as [[? ?]|]; [| by left].
      by repeat right.
    + by left.
Qed.

Lemma Split_nonempty sep s : Split sep s ≠ [].
Proof.
  destruct s as [|a s]; simpl; [done |].
  case_decide; [done |]. by destruct (Split sep s).
Qed.

Lemma Split_segment sep seg tail :
  Split sep seg = [seg] →
  Split sep (seg +:+ String sep tail) = seg :: Split sep tail.
Proof.
  induction seg as [|a seg IH]; simpl.
  - intros _. by case_decide.
  - case_decide as Ha; [done |].
    destruct (Split sep seg) as [|piece pieces] eqn:Hs;
      [by apply Split_nonempty in Hs |].
    intros [= -> ->]. by rewrite IH.
Qed.

Lemma Split_tasks s :
  Split slash ("/tasks/" +:+ s) = "" :: "tasks" :: Split slash s.
Proof.
  change ("/tasks/" +:+ s) with ("" +:+ String slash ("tasks" +:+ String slash s)).
  rewrite (Split_segment slash "" _ eq_refl).
  by rewrite (Split_segment slash "tasks" _ eq_refl).
Qed.

(** X24: [taskHandler] reads the ID from the third piece of the path and
    ignores whatever follows it: a request for [/tasks/<id>/<anything>],
    where [<id>] holds no solidus, is handled exactly as the same request
    for [/tasks/<id>]. *)
Theorem taskHandler_ignores_trailing Atoi method seg tail decoded st :
  Split slash seg = [seg] →
  RestApi.taskHandler Atoi method ("/tasks/" +:+ seg +:+ String slash tail) decoded st
  = RestApi.taskHandler Atoi method ("/tasks/" +:+ seg) decoded st.
Proof.
  intros Hseg. unfold RestApi.taskHandler.
  rewrite !Split_tasks, (Split_segment slash seg tail Hseg), Hseg.
  pose proof (Split_nonempty slash tail).
  destruct (Split slash tail); [done |]. simpl.
  repeat case_decide; try lia; done.
Qed.

(** X24 on the ID [7]. *)
Lemma taskHandler_ignores_trailing_witness :
  RestApi.taskHandler (λ _, Some 7%Z) "GET" ("/tasks/" +:+ "7" +:+ String slash "x/y")
    None RestApi.start
  = RestApi.taskHandler (λ _, Some 7%Z) "GET" ("/tasks/" +:+ "7") None RestApi.start.
Proof.
  apply (taskHandler_ignores_trailing (λ _, Some 7%Z) "GET" "7" "x/y" None RestApi.start).
  reflexivity.
Defined.

(** ** Tracker.go *)

Lemma alter_middle {A} (f : A → A) (l1 l2 : list A) (x : A) :
  alter f (length l1) (l1 ++ x :: l2) = l1 ++ f x :: l2.
Proof. induction l1 as [|y l1 IH]; [done |]. simpl. by f_equal. Qed.

Lemma filter_none {A} (P : A → Prop) `{!∀ x, Decision (P x)} (l : list A) :
  Forall (λ x, ¬ P x) l → filter P l = [].
Proof.
  induction 1 as [|x l Hx _ IH]; [done |].
  by rewrite filter_cons_False.
Qed.

Lemma running_open_session now t : Tracker.running (Tracker.open_session now t).
Proof. unfold Tracker.running. simpl. by rewrite last_snoc. Qed.

Lemma close_session_last now t before s :
  Tracker.Sessions t = before ++ [s] →
  Tracker.Sessions (Tracker.close_session now t)
  = before ++ [Tracker.mkSession (Tracker.Start s) now].
Proof.
  intros Hs. unfold Tracker.close_session. simpl. rewrite Hs.
  rewrite length_app. simpl.
  replace (length before + 1 - 1) with (length before) by lia.
  by rewrite alter_middle.
Qed.

Lemma close_session_stops now t :
  now ≠ 0%Z → ¬ Tracker.running (Tracker.close_session now t).
Proof.
  intros Hnow. unfold Tracker.running.
  destruct (last (Tracker.Sessions (Tracker.close_session now t))) as [s|] eqn:Hlast;
    [| tauto].
  destruct (last (Tracker.Sessions t)) as [s0|] eqn:Hlast0.
  - apply last_Some in Hlast0 as [before Hs].
    rewrite (close_session_last now t before s0 Hs), last_snoc in Hlast.
    by injection Hlast as <-.
  - apply last_None in Hlast0. unfold Tracker.close_session in Hlast.
    simpl in Hlast. by rewrite Hlast0 in Hlast.
Qed.

Lemma new_task_idle id name : ¬ Tracker.running (Tracker.mkTask id name []).
Proof. unfold Tracker.running. simpl. tauto. Qed.

Lemma startTask_running_count EqualFold name now ok tasks :
  length (filter Tracker.running tasks) ≤ 1 →
  length (filter Tracker.running (Tracker.startTask EqualFold name now ok tasks).1) ≤ 1.
Proof.
  intros Hone. unfold Tracker.startTask, Tracker.findActiveTask.
  destruct (list_find Tracker.running tasks) as [[i active]|] eqn:Hfind; [done |].
  apply list_find_None in Hfind.
  destruct (list_find _ tasks) as [[j t]|] eqn:Hname; simpl.
  - apply list_find_Some in Hname as (Hj & _ & _).
    apply list_elem_of_split_length in Hj as (l1 & l2 & -> & ->).
    apply Forall_app in Hfind as [Hl1 Hl2]. apply Forall_cons in Hl2 as [_ Hl2].
    rewrite alter_middle, filter_app, filter_cons.
    rewrite (filter_none _ l1 Hl1), (filter_none _ l2 Hl2).
    case_decide; simpl; lia.
  - rewrite alter_middle, filter_app, filter_cons.
    rewrite (filter_none _ tasks Hfind). case_decide; simpl; lia.
Qed.

Lemma stopTask_running_count now ok tasks :
  now ≠ 0%Z →
  length (filter Tracker.running tasks) ≤ 1 →
  length (filter Tracker.running (Tracker.stopTask now ok tasks).1) ≤ 1.
Proof.
  intros Hnow Hone. unfold Tracker.stopTask, Tracker.findActiveTask.
  destruct (list_find Tracker.running tasks) as [[i active]|] eqn:Hfind; [| done].
  simpl. apply list_find_Some in Hfind as (Hi & Hrun & _).
  apply list_elem_of_split_length in Hi as (l1 & l2 & -> & ->).
  rewrite alter_middle. revert Hone.
  rewrite !filter_app, !filter_cons.
  rewrite (decide_True _ _ Hrun).
  rewrite (decide_False _ _ (close_session_stops now active Hnow)).
  rewrite !length_app. simpl. lia.
Qed.

(** X25: whatever sequence of [startTask] and [stopTask] calls is made
    on [tasks], with a clock that never shows the zero time, at most one
    task is running afterwards if at most one was before. *)
Theorem one_task_at_a_time EqualFold cmds tasks :
  Forall (λ cmd, Tracker.at_time cmd ≠ 0%Z) cmds →
  length (filter Tracker.running tasks) ≤ 1 →
  length (filter Tracker.running (foldl (Tracker.exec EqualFold) tasks cmds)) ≤ 1.
Proof.
  intros Hclock. revert tasks.
  induction Hclock as [|cmd cmds Hcmd _ IH]; intros tasks Hone; [done |].
  simpl. apply IH. destruct cmd as [name now ok | now ok]; simpl.
  - by apply startTask_running_count.
  - by apply stopTask_running_count.
Qed.

(** X25 on three starts and a stop. *)
Lemma one_task_at_a_time_witness :
  length (filter Tracker.running
            (foldl (Tracker.exec String.eqb) []
                   [Tracker.DoStart "a" 5 true; Tracker.DoStart "b" 6 true;
                    Tracker.DoStop 7 true; Tracker.DoStart "b" 8 true])) ≤ 1.
Proof.
  apply (one_task_at_a_time String.eqb
           [Tracker.DoStart "a" 5 true; Tracker.DoStart "b" 6 true;
            Tracker.DoStop 7 true; Tracker.DoStart "b" 8 true] []).
  - repeat constructor; simpl; lia.
  - simpl. lia.
Defined.

Lemma insert_middle {A} (l1 l2 : list A) (x y : A) :
  <[length l1 := y]> (l1 ++ x :: l2) = l1 ++ y :: l2.
Proof. induction l1 as [|z l1 IH]; [done |]. simpl. by f_equal. Qed.

Lemma stop_after_open l1 l2 t0 now stop :
  Forall (λ t, ¬ Tracker.running t) l1 →
  Forall (λ t, ¬ Tracker.running t) l2 →
  stop ≠ 0%Z →
  let stopped :=
    Tracker.mkTask (Tracker.ID t0) (Tracker.Name t0)
                   (Tracker.Sessions t0 ++ [Tracker.mkSession now stop]) in
  Tracker.findActiveTask (l1 ++ Tracker.open_session now t0 :: l2)
  = Some (length l1, Tracker.open_session now t0)
  ∧ Tracker.stopTask stop true (l1 ++ Tracker.open_session now t0 :: l2)
    = (l1 ++ stopped :: l2, [Tracker.Stopped (Tracker.Name t0) now stop])
  ∧ Tracker.findActiveTask (l1 ++ stopped :: l2) = None.
Proof.
  intros Hl1 Hl2 Hstop stopped.
  assert (Tracker.findActiveTask (l1 ++ Tracker.open_session now t0 :: l2)
          = Some (length l1, Tracker.open_session now t0)) as Hfind.
  { apply list_find_middle; [done |]. apply running_open_session. }
  assert (Tracker.close_session stop (Tracker.open_session now t0) = stopped) as Hclose.
  { unfold stopped, Tracker.close_session. simpl. f_equal.
    rewrite length_app. simpl.
    replace (length (Tracker.Sessions t0) + 1 - 1)
      with (length (Tracker.Sessions t0)) by lia.
    by rewrite alter_middle. }
  split_and!.
  - done.
  - unfold Tracker.stopTask. rewrite Hfind, alter_middle, Hclose. simpl.
    by rewrite last_snoc.
  - apply list_find_None. apply Forall_app. split; [done |].
    apply Forall_cons. split; [| done].
    rewrite <- Hclose. by apply close_session_stops.
Qed.

(** X26: when no task is running, [startTask] leaves exactly the task it
    started running, with a last session that begins now and has no
    end; a [stopTask] that follows writes its time into that session
    and nowhere else, reports the task with both times, and leaves no
    task running. *)
Theorem start_then_stop EqualFold name now stop tasks :
  Tracker.findActiveTask tasks = None → stop ≠ 0%Z →
  ∃ i t before,
    let started := (Tracker.startTask EqualFold name now true tasks).1 in
    Tracker.findActiveTask started = Some (i, t)
    ∧ Tracker.Sessions t = before ++ [Tracker.mkSession now 0]
    ∧ Tracker.stopTask stop true started
      = (<[i := Tracker.mkTask (Tracker.ID t) (Tracker.Name t)
                  (before ++ [Tracker.mkSession now stop])]> started,
         [Tracker.Stopped (Tracker.Name t) now stop])
    ∧ Tracker.findActiveTask (Tracker.stopTask stop true started).1 = None.
Proof.
  intros Hidle Hstop. unfold Tracker.startTask. rewrite Hidle.
  apply list_find_None in Hidle.
  destruct (list_find _ tasks) as [[j t0]|] eqn:Hname; simpl.
  - apply list_find_Some in Hname as (Hj & _ & _).
    apply list_elem_of_split_length in Hj as (l1 & l2 & -> & ->).
    apply Forall_app in Hidle as [Hl1 Hl2]. apply Forall_cons in Hl2 as [_ Hl2].
    rewrite alter_middle.
    destruct (stop_after_open l1 l2 t0 now stop Hl1 Hl2 Hstop) as (Hfind & Hstopped & Hnone).
    exists (length l1), (Tracker.open_session now t0), (Tracker.Sessions t0).
    rewrite insert_middle, Hstopped. done.
  - rewrite alter_middle.
    destruct (stop_after_open tasks [] (Tracker.mkTask (Tracker.newID tasks) name [])
                now stop Hidle (Forall_nil_2 _) Hstop) as (Hfind & Hstopped & Hnone).
    exists (length tasks), (Tracker.open_session now (Tracker.mkTask (Tracker.newID tasks) name [])), [].
    rewrite insert_middle, Hstopped. done.
Qed.

(** X26 on a first task. *)
Lemma start_then_stop_witness :
  ∃ i t before,
    let started := (Tracker.startTask String.eqb "a" 5 true []).1 in
    Tracker.findActiveTask started = Some (i, t)
    ∧ Tracker.Sessions t = before ++ [Tracker.mkSession 5 0]
    ∧ Tracker.stopTask 9 true started
      = (<[i := Tracker.mkTask (Tracker.ID t) (Tracker.Name t)
                  (before ++ [Tracker.mkSession 5 9])]> started,
         [Tracker.Stopped (Tracker.Name t) 5 9])
    ∧ Tracker.findActiveTask (Tracker.stopTask 9 true started).1 = None.
Proof.
  apply (start_then_stop String.eqb "a" 5 9 []); [reflexivity | lia].
Defined.

Lemma keeps_refl t : Tracker.keeps t t.
Proof. split_and!; [done.. |]. intros j s Hj. by exists s. Qed.

Lemma keeps_trans t1 t2 t3 :
  Tracker.keeps t1 t2 → Tracker.keeps t2 t3 → Tracker.keeps t1 t3.
Proof.
  intros (Hid & Hname & Hs) (Hid' & Hname' & Hs'). split_and!; [congruence.. |].
  intros j s Hj. destruct (Hs j s Hj) as (s' & Hj' & Hstart & Hend).
  destruct (Hs' j s' Hj') as (s'' & Hj'' & Hstart' & Hend').
  exists s''. split_and!; [done | congruence |].
  intros Hne. specialize (Hend Hne). subst s'. by apply Hend'.
Qed.

Lemma keeps_open_session now t : Tracker.keeps t (Tracker.open_session now t).
Proof.
  split_and!; [done.. |]. intros j s Hj. exists s. split_and!; [| done..].
  simpl. by apply lookup_app_l_Some.
Qed.

Lemma keeps_close_session now t :
  Tracker.running t → Tracker.keeps t (Tracker.close_session now t).
Proof.
  intros Hrun. split_and!; [done.. |]. intros j s Hj.
  unfold Tracker.running in Hrun.
  destruct (last (Tracker.Sessions t)) as [s0|] eqn:Hlast; [| done].
  apply last_Some in Hlast as [before Hs].
  rewrite (close_session_last now t before s0 Hs). rewrite Hs in Hj.
  apply lookup_app_Some in Hj as [Hj | [Hge Hj]].
  - exists s. split_and!; [| done..]. by apply lookup_app_l_Some.
  - apply list_lookup_singleton_Some in Hj as [Hj ->].
    exists (Tracker.mkSession (Tracker.Start s) now). split_and!; [| done |].
    + replace j with (length before + 0) by lia.
      by rewrite lookup_app_r, Nat.add_comm, Nat.add_sub by lia.
    + intros Hne. by destruct Hne.
Qed.

Lemma alter_keeps (f : Tracker.Task → Tracker.Task) (k : nat)
    (tasks : list Tracker.Task) (i : nat) t :
  (∀ t0, tasks !! k = Some t0 → Tracker.keeps t0 (f t0)) →
  tasks !! i = Some t →
  ∃ t', alter f k tasks !! i = Some t' ∧ Tracker.keeps t t'.
Proof.
  intros Hf Hi. destruct (decide (k = i)) as [-> | Hne].
  - exists (f t). rewrite list_lookup_alter_eq, Hi. split; [done |]. by apply Hf.
  - exists t. rewrite list_lookup_alter_ne by done. split; [done |]. apply keeps_refl.
Qed.

Lemma exec_keeps EqualFold cmd tasks i t :
  tasks !! i = Some t →
  ∃ t', Tracker.exec EqualFold tasks cmd !! i = Some t' ∧ Tracker.keeps t t'.
Proof.
  intros Hi. destruct cmd as [name now ok | now ok]; simpl.
  - unfold Tracker.startTask.
    destruct (Tracker.findActiveTask tasks) as [[k active]|].
    { exists t. split; [done | apply keeps_refl]. }
    destruct (list_find _ tasks) as [[k t0]|]; simpl.
    + apply alter_keeps; [| done]. intros. apply keeps_open_session.
    + apply alter_keeps; [| by apply lookup_app_l_Some].
      intros. apply keeps_open_session.
  - unfold Tracker.stopTask.
    destruct (Tracker.findActiveTask tasks) as [[k active]|] eqn:Hfind; simpl.
    + apply list_find_Some in Hfind as (Hk & Hrun & _).
      apply alter_keeps; [| done]. intros t0 Ht0.
      assert (t0 = active) as -> by congruence. by apply keeps_close_session.
    + exists t. split; [done | apply keeps_refl].
Qed.

(** X27: no sequence of [startTask] and [stopTask] calls removes,
    reorders, renumbers or renames a task, moves the start of a session,
    or touches a session that has ended: a task stays at its place in
    [tasks] with its ID and name, and each of its sessions stays at its
    place with its start, and whole if its end was set. *)
Theorem history_is_kept EqualFold cmds tasks i t :
  tasks !! i = Some t →
  ∃ t', foldl (Tracker.exec EqualFold) tasks cmds !! i = Some t'
        ∧ Tracker.keeps t t'.
Proof.
  revert tasks t. induction cmds as [|cmd cmds IH]; intros tasks t Hi.
  - exists t. split; [done | apply keeps_refl].
  - simpl. destruct (exec_keeps EqualFold cmd tasks i t Hi) as (t1 & Hi1 & Hk1).
    destruct (IH _ t1 Hi1) as (t' & Hi' & Hk').
    exists t'. split; [done |]. by apply (keeps_trans t t1 t').
Qed.

(** X27 on a task with one ended session. *)
Lemma history_is_kept_witness :
  ∃ t', foldl (Tracker.exec String.eqb)
              [Tracker.mkTask 1 "a" [Tracker.mkSession 2 3]]
              [Tracker.DoStart "a" 5 true; Tracker.DoStop 7 true;
               Tracker.DoStart "b" 8 true] !! 0 = Some t'
        ∧ Tracker.keeps (Tracker.mkTask 1 "a" [Tracker.mkSession 2 3]) t'.
Proof.
  apply (history_is_kept String.eqb
           [Tracker.DoStart "a" 5 true; Tracker.DoStop 7 true;
            Tracker.DoStart "b" 8 true]
           [Tracker.mkTask 1 "a" [Tracker.mkSession 2 3]] 0
           (Tracker.mkTask 1 "a" [Tracker.mkSession 2 3])).
  reflexivity.
Defined.

Lemma newID_counts (tasks : list Tracker.Task) :
  (∀ (i : nat) t, tasks !! i = Some t → Tracker.ID t = Z.of_nat i + 1)%Z →
  (Z.of_nat (length tasks) + 1 < 2 ^ 63)%Z →
  Tracker.newID tasks = (Z.of_nat (length tasks) + 1)%Z.
Proof.
  unfold Tracker.newID.
  induction tasks as [|t tasks IH] using rev_ind; intros Hids Hlen; [done |].
  rewrite foldl_snoc, length_app in *. simpl in *.
  rewrite IH.
  - rewrite (Hids (length tasks) t) by (by rewrite lookup_app_r, Nat.sub_diag by lia).
    rewrite decide_True by lia. rewrite wrap_int_small by lia. lia.
  - intros i t' Hi. apply Hids. by apply lookup_app_l_Some.
  - lia.
Qed.

Lemma alter_ids (f : Tracker.Task → Tracker.Task) (k : nat)
    (tasks : list Tracker.Task) :
  (∀ t, Tracker.ID (f t) = Tracker.ID t) →
  (∀ (i : nat) t, tasks !! i = Some t → Tracker.ID t = Z.of_nat i + 1)%Z →
  (∀ (i : nat) t, alter f k tasks !! i = Some t → Tracker.ID t = Z.of_nat i + 1)%Z.
Proof.
  intros Hf Hids i t. destruct (decide (k = i)) as [-> | Hne].
  - rewrite list_lookup_alter_eq. destruct (tasks !! i) as [t0|] eqn:Hi; [| done].
    simpl. intros [= <-]. rewrite Hf. by apply Hids.
  - rewrite list_lookup_alter_ne by done. apply Hids.
Qed.

Lemma exec_counts EqualFold cmd (tasks : list Tracker.Task) :
  (∀ (i : nat) t, tasks !! i = Some t → Tracker.ID t = Z.of_nat i + 1)%Z →
  (Z.of_nat (length tasks) + 1 < 2 ^ 63)%Z →
  (∀ (i : nat) t, Tracker.exec EqualFold tasks cmd !! i = Some t →
                  Tracker.ID t = Z.of_nat i + 1)%Z
  ∧ length (Tracker.exec EqualFold tasks cmd) ≤ S (length tasks).
Proof.
  intros Hids Hlen. destruct cmd as [name now ok | now ok]; simpl.
  - unfold Tracker.startTask.
    destruct (Tracker.findActiveTask tasks) as [[k active]|]; [split; [done | simpl; lia] |].
    destruct (list_find _ tasks) as [[k t0]|]; simpl.
    + rewrite length_alter. split; [| lia]. by apply alter_ids.
    + rewrite length_alter, length_app. simpl. split; [| lia].
      apply alter_ids; [done |]. intros i t Hi.
      apply lookup_app_Some in Hi as [Hi | [Hge Hi]]; [by apply Hids |].
      apply list_lookup_singleton_Some in Hi as [Hi <-]. simpl.
      rewrite newID_counts by done. lia.
  - unfold Tracker.stopTask.
    destruct (Tracker.findActiveTask tasks) as [[k active]|]; simpl.
    + rewrite length_alter. split; [| lia]. by apply alter_ids.
    + split; [done | lia].
Qed.

Lemma run_counts EqualFold cmds (tasks : list Tracker.Task) :
  (∀ (i : nat) t, tasks !! i = Some t → Tracker.ID t = Z.of_nat i + 1)%Z →
  (Z.of_nat (length tasks) + Z.of_nat (length cmds) < 2 ^ 63)%Z →
  (∀ (i : nat) t, foldl (Tracker.exec EqualFold) tasks cmds !! i = Some t →
                  Tracker.ID t = Z.of_nat i + 1)%Z.
Proof.
  revert tasks. induction cmds as [|cmd cmds IH]; intros tasks Hids Hlen; [done |].
  simpl in *.
  destruct (exec_counts EqualFold cmd tasks Hids ltac:(lia)) as [Hids' Hlen'].
  apply IH; [done | lia].
Qed.

(** X28: starting from no tasks, the tasks are numbered in the order in
    which they were first started: after any sequence of [startTask] and
    [stopTask] calls, short enough for the count not to wrap around, the
    task at place [i] of [tasks], counted from zero, has the ID
    [i + 1]. *)
Theorem task_ids_count_up EqualFold cmds (i : nat) t :
  (Z.of_nat (length cmds) < 2 ^ 63)%Z →
  foldl (Tracker.exec EqualFold) [] cmds !! i = Some t →
  Tracker.ID t = (Z.of_nat i + 1)%Z.
Proof.
  intros Hlen. apply run_counts; [done | simpl; lia].
Qed.

(** X28 on the second of two tasks. *)
Lemma task_ids_count_up_witness :
  Tracker.ID (Tracker.mkTask 2 "b" [Tracker.mkSession 8 0]) = (Z.of_nat 1 + 1)%Z.
Proof.
  apply (task_ids_count_up String.eqb
           [Tracker.DoStart "a" 5 true; Tracker.DoStop 7 true;
            Tracker.DoStart "b" 8 true] 1
           (Tracker.mkTask 2 "b" [Tracker.mkSession 8 0])).
  - simpl. lia.
  - reflexivity.
Defined.

(** X29: when no task is running and some task's name equals the given
    one under [strings.EqualFold], [startTask] creates no task: the new
    session goes to the first such task in [tasks], every other task is
    left as it is, and the task is reported under the name it is stored
    with, not the name that was given. *)
Theorem startTask_resumes_first_match EqualFold name now ok tasks (i : nat) t :
  Tracker.findActiveTask tasks = None →
  tasks !! i = Some t → EqualFold (Tracker.Name t) name = true →
  ∃ (j : nat) t0,
    j ≤ i ∧ tasks !! j = Some t0 ∧ EqualFold (Tracker.Name t0) name = true
    ∧ (∀ (k : nat) tk, k < j → tasks !! k = Some tk →
                       EqualFold (Tracker.Name tk) name = false)
    ∧ Tracker.startTask EqualFold name now ok tasks
      = (<[j := Tracker.open_session now t0]> tasks,
         if ok then [Tracker.Started (Tracker.Name t0)] else [Tracker.SaveFailed]).
Proof.
  intros Hidle Hi Hname. unfold Tracker.startTask. rewrite Hidle.
  destruct (list_find _ tasks) as [[j t0]|] eqn:Hfind.
  - apply list_find_Some in Hfind as (Hj & Hmatch & Hfirst).
    exists j, t0. split_and!.
    + destruct (decide (j ≤ i)) as [|Hlt]; [done |].
      by destruct (Hfirst i t Hi ltac:(lia)).
    + done.
    + done.
    + intros k tk Hk Htk. specialize (Hfirst k tk Htk Hk).
      by destruct (EqualFold (Tracker.Name tk) name).
    + apply list_elem_of_split_length in Hj as (l1 & l2 & -> & ->).
      by rewrite alter_middle, insert_middle.
  - apply list_find_None in Hfind.
    by destruct (Forall_lookup_1 _ _ _ _ Hfind Hi).
Qed.

(** X29 on a name given in another case. *)
Lemma startTask_resumes_first_match_witness :
  ∃ (j : nat) t0,
    j ≤ 1
    ∧ [Tracker.mkTask 1 "a" []; Tracker.mkTask 2 "B" []] !! j = Some t0
    ∧ (λ s1 s2, String.eqb s1 "B" && String.eqb s2 "b") (Tracker.Name t0) "b" = true
    ∧ (∀ (k : nat) tk, k < j →
         [Tracker.mkTask 1 "a" []; Tracker.mkTask 2 "B" []] !! k = Some tk →
         (λ s1 s2, String.eqb s1 "B" && String.eqb s2 "b") (Tracker.Name tk) "b" = false)
    ∧ Tracker.startTask (λ s1 s2, String.eqb s1 "B" && String.eqb s2 "b") "b" 5 true
        [Tracker.mkTask 1 "a" []; Tracker.mkTask 2 "B" []]
      = (<[j := Tracker.open_session 5 t0]>
           [Tracker.mkTask 1 "a" []; Tracker.mkTask 2 "B" []],
         [Tracker.Started (Tracker.Name t0)]).
Proof.
  apply (startTask_resumes_first_match
           (λ s1 s2, String.eqb s1 "B" && String.eqb s2 "b") "b" 5 true
           [Tracker.mkTask 1 "a" []; Tracker.mkTask 2 "B" []] 1
           (Tracker.mkTask 2 "B" [])); reflexivity.
Defined.
